(** * kickboxerdb: the per-scope consensus manager

    A shallow embedding of the egalitarian-paxos consensus core
    (package [consensus]) and the properties its specification states.

    Conventions of the embedding:
    - [uint32] ballots and [uint64] sequences are integers of [Z], the
      wrap-around of [++] is written out ([incr32], [incr64]);
    - an [InstanceID] (a 128 bit uuid) is a natural number of [N]; the
      field [InstanceID] of an instance is [IID] here, the type keeping the
      name;
    - the scope's [instances] map holds pointers in the source, and the
      [inProgress] and [committed] containers hold the same pointers: the
      embedding keeps one store, [instances], and the two containers are
      sets of ids into it;
    - commit and execute timeouts are wall-clock values and the stat
      counters are metrics: neither is part of the embedding;
    - [Persist] returns [nil] in every version of the source, so the
      branches taken on its error are never taken. *)

From Stdlib Require Import ZArith List Bool Lia String Ascii Sorted.
From stdpp Require Import gmap strings list fin_maps fin_sets.
Import ListNotations.

Local Open Scope Z_scope.

(** ** Data model *)

Abbreviation InstanceID := N.
Abbreviation NodeId := N.

(** Modelled from the spec: the [const] block that declares the instance
    statuses is not under src. The specification orders them
    [PreAccepted < Accepted < Committed < Executed]; they are numbered from
    1, so that the zero value of the type, which a freshly made instance
    carries ([makeInstance]) and at which [var maxStatus InstanceStatus]
    starts, lies below [INSTANCE_PREACCEPTED], as the test
    [instance.Status <= INSTANCE_PREACCEPTED] of [managerPrepareApply]
    presumes. *)
Definition INSTANCE_PREACCEPTED : Z := 1.
Definition INSTANCE_ACCEPTED : Z := 2.
Definition INSTANCE_COMMITTED : Z := 3.
Definition INSTANCE_EXECUTED : Z := 4.

Record Instruction := mkInstruction {
  Cmd : string;
  Key : string;
  Args : list string;
  Timestamp : Z
}.

Record Instance := mkInstance {
  IID : InstanceID;
  LeaderID : NodeId;
  Successors : list NodeId;
  Commands : list Instruction;
  Dependencies : list InstanceID;
  Sequence : Z;
  Status : Z;
  MaxBallot : Z;
  Noop : bool;
  DependencyMatch : bool;
  ReadOnly : bool
}.

Definition setStatus (st : Z) (i : Instance) : Instance :=
  mkInstance (IID i) (LeaderID i) (Successors i) (Commands i) (Dependencies i)
    (Sequence i) st (MaxBallot i) (Noop i) (DependencyMatch i) (ReadOnly i).

Definition setMaxBallot (b : Z) (i : Instance) : Instance :=
  mkInstance (IID i) (LeaderID i) (Successors i) (Commands i) (Dependencies i)
    (Sequence i) (Status i) b (Noop i) (DependencyMatch i) (ReadOnly i).

Definition setNoopFlag (n : bool) (i : Instance) : Instance :=
  mkInstance (IID i) (LeaderID i) (Successors i) (Commands i) (Dependencies i)
    (Sequence i) (Status i) (MaxBallot i) n (DependencyMatch i) (ReadOnly i).

Definition setAttributes (deps : list InstanceID) (seq : Z) (i : Instance) : Instance :=
  mkInstance (IID i) (LeaderID i) (Successors i) (Commands i) deps
    seq (Status i) (MaxBallot i) (Noop i) (DependencyMatch i) (ReadOnly i).

(** [existing.Dependencies = inst.Dependencies; existing.Sequence =
    inst.Sequence; existing.MaxBallot = inst.MaxBallot; existing.Noop =
    inst.Noop]: the four assignments of the accept and commit paths. *)
Definition adopt (existing inst : Instance) : Instance :=
  setNoopFlag (Noop inst)
    (setMaxBallot (MaxBallot inst)
       (setAttributes (Dependencies inst) (Sequence inst) existing)).

Definition uint32_max : Z := 2 ^ 32 - 1.
Definition incr32 (b : Z) : Z := (b + 1) mod 2 ^ 32.
Definition incr64 (n : Z) : Z := (n + 1) mod 2 ^ 64.

Record Scope := mkScope {
  instances : gmap InstanceID Instance;
  inProgress : gset InstanceID;
  committed : gset InstanceID;
  executed : list InstanceID;
  maxSeq : Z
}.

Inductive error :=
| InvalidStatusUpdateError (iid : InstanceID) (status : Z)
| BallotError
| TimeoutError
| OtherError.

Definition isInvalidStatusUpdate (e : error) : bool :=
  match e with InvalidStatusUpdateError _ _ => true | _ => false end.

Record AcceptRequest := mkAcceptRequest {
  arInstance : Instance;
  arMissingInstances : list Instance
}.

Record AcceptResponse := mkAcceptResponse {
  arAccepted : bool;
  arMaxBallot : Z
}.

Record CommitRequest := mkCommitRequest { crInstance : Instance }.

Inductive result (A : Type) :=
| Ok (a : A)
| Err (e : error).
Arguments Ok {A} a.
Arguments Err {A} e.

(** ** Commit and pre-accept on the scope *)

(** [s.instances.Add(instance)]. *)
Definition instancesAdd (s : Scope) (instance : Instance) : Scope :=
  mkScope (<[IID instance := instance]> (instances s))
          (inProgress s) (committed s) (executed s) (maxSeq s).

(** [if instance.Sequence > s.maxSeq { s.maxSeq = instance.Sequence }],
    which the later version calls [updateSeq]. *)
Definition updateSeq (m seq : Z) : Z := if m <? seq then seq else m.

(** The tail of [commitInstanceUnsafe], after the instance to commit has
    been chosen. *)
Definition commitStore (s : Scope) (instance : Instance) (incrementBallot : bool) : Scope :=
  let instance := setStatus INSTANCE_COMMITTED instance in
  let instance :=
    if incrementBallot then setMaxBallot (incr32 (MaxBallot instance)) instance
    else instance in
  mkScope (<[IID instance := instance]> (instances s))
          (inProgress s ∖ {[IID instance]})
          ({[IID instance]} ∪ committed s)
          (executed s)
          (updateSeq (maxSeq s) (Sequence instance)).

(** [commitInstanceUnsafe] of the scope. *)
Definition commitInstanceUnsafe (s : Scope) (inst : Instance) (incrementBallot : bool)
  : Scope * option error :=
  match instances s !! IID inst with
  | Some existing =>
      if INSTANCE_COMMITTED <? Status existing
      then (s, Some (InvalidStatusUpdateError (IID existing) INSTANCE_COMMITTED))
      else (commitStore s (adopt existing inst) incrementBallot, None)
  | None => (commitStore s inst incrementBallot, None)
  end.

(** [HandleCommit]: the reply is the empty [CommitResponse]; the execution
    it schedules on success runs asynchronously and is not part of the
    handler's own transition. *)
Definition HandleCommit (s : Scope) (request : CommitRequest) : Scope * result unit :=
  match commitInstanceUnsafe s (crInstance request) false with
  | (s', Some e) => if isInvalidStatusUpdate e then (s', Ok tt) else (s', Err e)
  | (s', None) => (s', Ok tt)
  end.

(** Modelled from the spec: [preAcceptInstanceUnsafe] is not under src.
    Section 4.4 has it transition the instance to [PreAccepted] and persist,
    section 4.3 has a transition against a higher status yield
    [InvalidStatusUpdate]; PreAcceptInstanceTest adds that a repeated
    pre-accept keeps the stored instance and copies the noop flag onto it. *)
Definition preAcceptInstanceUnsafe (s : Scope) (inst : Instance) (incrementBallot : bool)
  : Scope * option error :=
  let store instance :=
    let instance := setStatus INSTANCE_PREACCEPTED instance in
    let instance :=
      if incrementBallot then setMaxBallot (incr32 (MaxBallot instance)) instance
      else instance in
    mkScope (<[IID instance := instance]> (instances s))
            ({[IID instance]} ∪ inProgress s)
            (committed s)
            (executed s)
            (updateSeq (maxSeq s) (Sequence instance)) in
  match instances s !! IID inst with
  | Some existing =>
      if INSTANCE_PREACCEPTED <? Status existing
      then (s, Some (InvalidStatusUpdateError (IID existing) INSTANCE_PREACCEPTED))
      else (store (setNoopFlag (Noop inst) existing), None)
  | None => (store inst, None)
  end.

(** ** Missing instances (part_002)

    The accept that [addMissingInstancesUnsafe] calls differs between the
    two versions of the accept phase below, so it is an argument here. *)

(** One turn of the loop of [addMissingInstancesUnsafe]: [inl] carries the
    scope into the next turn, [inr] is the early [return]. The pre-accept
    case returns [nil] where the other two return [err]; either way the
    loop is left. The phase functions store the very object the final
    [s.instances.Add(instance)] stores again, with the status they gave
    it, hence the final [Add] re-stores what the phase function stored. *)
Definition addMissingStep (accept : Scope -> Instance -> Scope * option error)
  (s : Scope) (instance : Instance) : Scope + Scope * option error :=
  match instances s !! IID instance with
  | Some _ => inl s
  | None =>
      let after (r : Scope * option error) (onErr : error -> option error) :=
        match r with
        | (s', Some e) => inr (s', onErr e)
        | (s', None) =>
            inl (match instances s' !! IID instance with
                 | Some stored => instancesAdd s' stored
                 | None => instancesAdd s' instance
                 end)
        end in
      if Status instance =? INSTANCE_PREACCEPTED
      then after (preAcceptInstanceUnsafe s instance false) (fun _ => None)
      else if Status instance =? INSTANCE_ACCEPTED
      then after (accept s instance) Some
      else if (Status instance =? INSTANCE_COMMITTED) || (Status instance =? INSTANCE_EXECUTED)
      then after (commitInstanceUnsafe s instance false) Some
      else inl (instancesAdd s instance)
  end.

Fixpoint addMissingInstancesUnsafe (accept : Scope -> Instance -> Scope * option error)
  (s : Scope) (l : list Instance) : Scope * option error :=
  match l with
  | [] => (s, None)
  | instance :: l' =>
      match addMissingStep accept s instance with
      | inl s' => addMissingInstancesUnsafe accept s' l'
      | inr r => r
      end
  end.

(** ** The accept phase of scope_accept.go *)

Module ScopeAccept.

(** The tail shared by both branches of [acceptInstanceUnsafe]:
    [instance.Status = INSTANCE_ACCEPTED], the two [Add]s and the update
    of [maxSeq]. *)
Definition acceptStore (s : Scope) (instance : Instance) : Scope :=
  let instance := setStatus INSTANCE_ACCEPTED instance in
  mkScope (<[IID instance := instance]> (instances s))
          ({[IID instance]} ∪ inProgress s)
          (committed s)
          (executed s)
          (updateSeq (maxSeq s) (Sequence instance)).

Definition acceptInstanceUnsafe (s : Scope) (inst : Instance) : Scope * option error :=
  match instances s !! IID inst with
  | Some existing =>
      if INSTANCE_ACCEPTED <? Status existing
      then (s, Some (InvalidStatusUpdateError (IID existing) INSTANCE_ACCEPTED))
      else (acceptStore s (adopt existing inst), None)
  | None => (acceptStore s inst, None)
  end.

(** [HandleAccept]: the ballot check, the accept, the missing instances. *)
Definition HandleAccept (s : Scope) (request : AcceptRequest) : Scope * result AcceptResponse :=
  let inst := arInstance request in
  let rejected :=
    match instances s !! IID inst with
    | Some instance =>
        if MaxBallot instance >=? MaxBallot inst
        then Some (mkAcceptResponse false (MaxBallot instance))
        else None
    | None => None
    end in
  match rejected with
  | Some response => (s, Ok response)
  | None =>
      let (s1, err) := acceptInstanceUnsafe s inst in
      match (match err with
             | Some e => if isInvalidStatusUpdate e then None else Some e
             | None => None
             end) with
      | Some e => (s1, Err e)
      | None =>
          let s2 :=
            if (0 <? length (arMissingInstances request))%nat
            then fst (addMissingInstancesUnsafe acceptInstanceUnsafe s1
                        (arMissingInstances request))
            else s1 in
          (s2, Ok (mkAcceptResponse true 0))
      end
  end.

End ScopeAccept.

(** ** The accept phase of the later version (second part of manager_test.go) *)

Module ManagerAccept.

(** Modelled from the spec: [getOrSetInstance] is not under src. Section
    4.1, [get_or_create]: an instance stored under the id is returned and
    the proposed one ignored; else the proposed one is stored, with the
    status [Executed] clamped to [Committed]. *)
Definition getOrSetInstance (s : Scope) (inst : Instance) : Scope * Instance * bool :=
  match instances s !! IID inst with
  | Some existing => (s, existing, true)
  | None =>
      let inst' :=
        if Status inst =? INSTANCE_EXECUTED then setStatus INSTANCE_COMMITTED inst
        else inst in
      (instancesAdd s inst', inst', false)
  end.

(** Modelled from the spec: the method [accept] of [Instance] is not under
    src. Section 4.5, replica: rejected against a higher local status, else
    the incoming dependencies, sequence, ballot and noop flag are adopted
    and the status becomes [Accepted]; section 4.3: the ballot becomes
    [max(local, inbound)] and is incremented when the flag is set.
    TestHigherStatusFailure has the rejection be an
    [InvalidStatusUpdateError] that leaves the status and the containers
    as they were. Section 8 lets a duplicate accept against a higher
    status absorb a higher ballot and the noop flag: what the instance
    holds after the rejection is not settled by src, and nothing below
    is stated of it. *)
Definition instanceAccept (instance inst : Instance) (incrementBallot : bool)
  : result Instance :=
  if INSTANCE_ACCEPTED <? Status instance
  then Err (InvalidStatusUpdateError (IID instance) INSTANCE_ACCEPTED)
  else
    let i := setStatus INSTANCE_ACCEPTED
               (setNoopFlag (Noop inst)
                  (setAttributes (Dependencies inst) (Sequence inst) instance)) in
    let i := setMaxBallot (Z.max (MaxBallot instance) (MaxBallot inst)) i in
    Ok (if incrementBallot then setMaxBallot (incr32 (MaxBallot i)) i else i).

Definition acceptInstance (s : Scope) (inst : Instance) (incrementBallot : bool)
  : Scope * option error :=
  let '(s1, instance, existed) := getOrSetInstance s inst in
  match instanceAccept instance inst incrementBallot with
  | Err e => (s1, Some e)
  | Ok instance' =>
      (mkScope (<[IID instance' := instance']> (instances s1))
               ({[IID instance']} ∪ inProgress s1)
               (committed s1)
               (executed s1)
               (updateSeq (maxSeq s1) (Sequence instance')), None)
  end.

Definition acceptInstanceUnsafe (s : Scope) (inst : Instance) (incrementBallot : bool)
  : Scope * option error :=
  acceptInstance s inst incrementBallot.

(** The first statement of [HandleAccept]: the missing instances of the
    request are added; the error of [addMissingInstancesUnsafe] is dropped. *)
Definition missingAdded (s : Scope) (request : AcceptRequest) : Scope :=
  if (0 <? length (arMissingInstances request))%nat
  then fst (addMissingInstancesUnsafe
              (fun s i => acceptInstanceUnsafe s i false) s
              (arMissingInstances request))
  else s.

(** [HandleAccept]: the missing instances, the ballot check, the accept. *)
Definition HandleAccept (s : Scope) (request : AcceptRequest) : Scope * result AcceptResponse :=
  let inst := arInstance request in
  let s0 := missingAdded s request in
  let rejected :=
    match instances s0 !! IID inst with
    | Some instance =>
        let ballot := MaxBallot instance in
        if ballot >=? MaxBallot inst
        then Some (mkAcceptResponse false ballot)
        else None
    | None => None
    end in
  match rejected with
  | Some response => (s0, Ok response)
  | None =>
      let (s1, err) := acceptInstanceUnsafe s0 inst false in
      match (match err with
             | Some e => if isInvalidStatusUpdate e then None else Some e
             | None => None
             end) with
      | Some e => (s1, Err e)
      | None => (s1, Ok (mkAcceptResponse true 0))
      end
  end.

End ManagerAccept.

(** ** Prepare on the replica (manager_prepare.go) *)

Record PrepareRequest := mkPrepareRequest {
  prBallot : Z;
  prInstanceID : InstanceID
}.

Record PrepareResponse := mkPrepareResponse {
  prAccepted : bool;
  prInstance : option Instance
}.

(** Modelled from the spec: the method [updateBallot] of [Instance] is not
    under src. Section 4.3: the ballot becomes [max(local, inbound)]; the
    boolean its callers test says whether the ballot changed. *)
Definition updateBallot (instance : Instance) (ballot : Z) : Instance * bool :=
  if MaxBallot instance <? ballot then (setMaxBallot ballot instance, true)
  else (instance, false).

(** [HandlePrepare]: an unknown instance is accepted with no instance in
    the reply; a known one is accepted iff the ballot of the request is
    above the local one, and a copy of it is returned either way. *)
Definition HandlePrepare (s : Scope) (request : PrepareRequest)
  : Scope * result PrepareResponse :=
  match instances s !! prInstanceID request with
  | None => (s, Ok (mkPrepareResponse true None))
  | Some instance =>
      let accepted := prBallot request >? MaxBallot instance in
      let instance' :=
        if accepted then fst (updateBallot instance (prBallot request)) else instance in
      (mkScope (<[prInstanceID request := instance']> (instances s))
               (inProgress s) (committed s) (executed s) (maxSeq s),
       Ok (mkPrepareResponse accepted (Some instance')))
  end.

(** ** Runs of operations on one scope *)

Inductive operation :=
| OpAccept (inst : Instance)
| OpCommit (inst : Instance) (incrementBallot : bool)
| OpHandleAccept (request : AcceptRequest)
| OpHandleCommit (request : CommitRequest)
| OpHandlePrepare (request : PrepareRequest).

Definition step (s : Scope) (o : operation) : Scope :=
  match o with
  | OpAccept inst => fst (ScopeAccept.acceptInstanceUnsafe s inst)
  | OpCommit inst b => fst (commitInstanceUnsafe s inst b)
  | OpHandleAccept r => fst (ScopeAccept.HandleAccept s r)
  | OpHandleCommit r => fst (HandleCommit s r)
  | OpHandlePrepare r => fst (HandlePrepare s r)
  end.

Definition run (s : Scope) (ops : list operation) : Scope := fold_left step ops s.

(** The instance an operation brings does not carry a ballot below the
    stored one, and the increment does not wrap around. The two handlers
    that compare ballots themselves need no such condition. *)
Definition carriesBallot (s : Scope) (inst : Instance) (incrementBallot : bool) : Prop :=
  forall existing, instances s !! IID inst = Some existing ->
    MaxBallot existing <= MaxBallot inst /\
    (incrementBallot = true -> MaxBallot inst < uint32_max).

Definition ballotGuarded (s : Scope) (o : operation) : Prop :=
  match o with
  | OpAccept inst => carriesBallot s inst false
  | OpCommit inst b => carriesBallot s inst b
  | OpHandleAccept _ => True
  | OpHandleCommit r => carriesBallot s (crInstance r) false
  | OpHandlePrepare _ => True
  end.

Fixpoint guardedRun (s : Scope) (ops : list operation) : Prop :=
  match ops with
  | [] => True
  | o :: ops' => ballotGuarded s o /\ guardedRun (step s o) ops'
  end.

(** Sample data: an instance with the given id, status and ballot. *)
Definition sampleInstance (iid : InstanceID) (status ballot : Z) : Instance :=
  mkInstance iid 0%N [] [] [] 1 status ballot false false false.

Definition scopeOf (l : list Instance) : Scope :=
  mkScope (list_to_map (map (fun i => (IID i, i)) l)) ∅ ∅ [] 0.

(** ** What the properties speak of *)

(** Every instance is stored under its own id, as [InstanceMap.Add]
    stores it. *)
Definition wfScope (s : Scope) : Prop :=
  forall k i, instances s !! k = Some i -> IID i = k.

(** Every instance of [s] is still stored in [s'], with an [f] that is not
    below the one it had. *)
Definition nonDecreasing (f : Instance -> Z) (s s' : Scope) : Prop :=
  forall iid i, instances s !! iid = Some i ->
    exists i', instances s' !! iid = Some i' /\ f i <= f i'.

Definition scopeOfStep (r : Scope + Scope * option error) : Scope :=
  match r with inl s => s | inr (s, _) => s end.

(** [g] keeps [f] from decreasing when it is given an instance the scope
    does not know. *)
Definition freshMono (f : Instance -> Z) (g : Scope -> Instance -> Scope * option error) : Prop :=
  forall s i, wfScope s -> instances s !! IID i = None -> nonDecreasing f s (fst (g s i)).

Definition wfPreserving (g : Scope -> Instance -> Scope * option error) : Prop :=
  forall s i, wfScope s -> wfScope (fst (g s i)).

(** Sample requests and scopes. *)
Definition staleCommit : CommitRequest := mkCommitRequest (sampleInstance 1 INSTANCE_COMMITTED 3).

Definition startScope : Scope := scopeOf [sampleInstance 1 INSTANCE_PREACCEPTED 5].

Definition guardedOperations : list operation :=
  [OpHandleAccept (mkAcceptRequest (sampleInstance 1 INSTANCE_PREACCEPTED 7) []);
   OpHandlePrepare (mkPrepareRequest 6 1);
   OpCommit (sampleInstance 1 INSTANCE_ACCEPTED 7) true;
   OpHandleCommit (mkCommitRequest (sampleInstance 1 INSTANCE_COMMITTED 8))].

(** The reply of an accept handler is a rejection. *)
Definition isRejection (r : result AcceptResponse) : Prop :=
  exists resp, r = Ok resp /\ arAccepted resp = false.

Definition equalBallotRequest : AcceptRequest :=
  mkAcceptRequest (sampleInstance 1 INSTANCE_PREACCEPTED 5) [].

(** The scope stores an instance under the id. *)
Definition known (s : Scope) (iid : InstanceID) : Prop := is_Some (instances s !! iid).

Definition keepsKnown (s s' : Scope) : Prop := forall iid, known s iid -> known s' iid.

Definition staleAcceptRequest : AcceptRequest :=
  mkAcceptRequest (sampleInstance 1 INSTANCE_PREACCEPTED 4)
    [sampleInstance 2 INSTANCE_ACCEPTED 0; sampleInstance 3 INSTANCE_EXECUTED 0].

(** ** Awaiting a quorum (scope.go, scope_accept.go, manager_prepare.go)

    The three senders share one receive loop:
    [numReceived := 1; for numReceived < quorumSize { select { ... } }].
    What the [select] takes in each turn is decided by the scheduler and
    the network; the embedding is given the sequence of these choices. *)

Inductive event (A : Type) :=
| Received (response : A)
| TimedOut.
Arguments Received {A} response.
Arguments TimedOut {A}.

Inductive awaited (A : Type) :=
| Quorum (responses : list A) (rest : list (event A))
| Timeout
| Blocked (responses : list A).
Arguments Quorum {A} responses rest.
Arguments Timeout {A}.
Arguments Blocked {A} responses.

(** The loop, entered with [numReceived] responses counted and
    [responses] collected. An empty sequence of events leaves the loop
    blocked in its [select]. *)
Fixpoint receiveLoop {A} (quorumSize numReceived : nat) (responses : list A)
    (events : list (event A)) : awaited A :=
  if (numReceived <? quorumSize)%nat then
    match events with
    | [] => Blocked responses
    | Received response :: events' =>
        receiveLoop quorumSize (S numReceived) (responses ++ [response]) events'
    | TimedOut :: _ => Timeout
    end
  else Quorum responses events.

(** [numReceived := 1 // this node counts as a response]. *)
Definition awaitQuorum {A} (quorumSize : nat) (events : list (event A)) : awaited A :=
  receiveLoop quorumSize 1 [] events.

(** [quorumSize := ((len(replicas) + 1) / 2) + 1], in [sendPreAccept] and
    in [sendAccept]. *)
Definition preAcceptQuorumSize (replicas : nat) : nat := ((replicas + 1) / 2 + 1)%nat.
Definition acceptQuorumSize (replicas : nat) : nat := ((replicas + 1) / 2 + 1)%nat.

(** [quorumSize := (len(replicas) / 2) + 1], in [managerSendPrepare], where
    the line above it keeps the former size as a comment. *)
Definition prepareQuorumSize (replicas : nat) : nat := (replicas / 2 + 1)%nat.

(** Modelled from the spec: [getScopeReplicas] and [getInstanceReplicas]
    are not under src. The messages go to the other replicas and the local
    one counts as a response (section 4.4), as [ExecuteInstructions] builds
    its [remoteReplicas]: of a replica set of [N] nodes, [N - 1]. *)
Definition remoteReplicas (N : nat) : nat := (N - 1)%nat.

(** The quorum of the specification: ⌊N/2⌋ + 1. *)
Definition majority (N : nat) : nat := (N / 2 + 1)%nat.

(** The drain that follows the loop in [managerSendPrepare]: responses
    already in the channel are taken, the [default] case ends it. *)
Fixpoint drain {A} (responses : list A) (events : list (event A)) : list A :=
  match events with
  | Received response :: events' => drain (responses ++ [response]) events'
  | _ => responses
  end.

Fixpoint undrained {A} (events : list (event A)) : list (event A) :=
  match events with
  | Received _ :: events' => undrained events'
  | _ => events
  end.

(** The receiving half of [managerSendPrepare]. *)
Definition sendPrepareReceive {A} (replicas : nat) (events : list (event A)) : awaited A :=
  match awaitQuorum (prepareQuorumSize replicas) events with
  | Quorum responses rest => Quorum (drain responses rest) (undrained rest)
  | Timeout => Timeout
  | Blocked responses => Blocked responses
  end.

(** ** The prepare phase of the coordinator (manager_prepare.go) *)

(** First loop of [analyzePrepareResponses]: whether an instance was seen
    and the highest ballot of the instances seen. *)
Definition highestBallot (responses : list PrepareResponse) : bool * Z :=
  fold_left
    (fun (acc : bool * Z) response =>
       match prInstance response with
       | Some instance =>
           (true, if MaxBallot instance >? snd acc then MaxBallot instance else snd acc)
       | None => acc
       end)
    responses (false, 0).

(** Second loop: the first instance, among those not below the highest
    ballot, whose status is above every status before it. *)
Definition highestStatus (maxBallot : Z) (responses : list PrepareResponse)
  : Z * option Instance :=
  fold_left
    (fun (acc : Z * option Instance) response =>
       match prInstance response with
       | None => acc
       | Some instance =>
           if MaxBallot instance <? maxBallot then acc
           else if Status instance >? fst acc then (Status instance, Some instance)
           else acc
       end)
    responses (0, None).

Definition analyzePrepareResponses (responses : list PrepareResponse) : option Instance :=
  let (otherInstancesSeen, maxBallot) := highestBallot responses in
  if negb otherInstancesSeen then None
  else snd (highestStatus maxBallot responses).

(** The instances the responses carry. *)
Definition responseInstances (responses : list PrepareResponse) : list Instance :=
  omap prInstance responses.
Arguments responseInstances : simpl never.

(** An instance as a replica stores it: a [uint32] ballot and one of the
    four statuses. *)
Definition validInstance (i : Instance) : Prop :=
  0 <= MaxBallot i <= uint32_max /\
  INSTANCE_PREACCEPTED <= Status i <= INSTANCE_EXECUTED.

(** ** Applying the prepare responses (manager_prepare.go)

    The phase entry points are package-level variables of the source,
    swapped in its tests; the messages they exchange are outside the
    embedding. They are the variables of this section. The coordinator's
    own instance is a pointer into the store: the embedding names it by
    its id and reads it from the store where the source dereferences it. *)

Section PrepareApply.

Variable preAcceptPhase : Scope -> Instance -> Scope * result bool.
Variable acceptPhase : Scope -> Instance -> Scope * option error.
Variable commitPhase : Scope -> Instance -> Scope * option error.

(** The local instance as the store has it; [dflt] stands for the object
    the caller holds should the store have lost it. *)
Definition localInstance (s : Scope) (dflt : Instance) : Instance :=
  default dflt (instances s !! IID dflt).

(** A method that writes through the pointer: the instance stored under
    the id is replaced by its image. *)
Definition mutateLocal (f : Instance -> Instance) (s : Scope) (instance : Instance) : Scope :=
  mkScope (alter f (IID instance) (instances s))
          (inProgress s) (committed s) (executed s) (maxSeq s).

(** The loop of [managerPrepareCheckResponses]. *)
Definition checkLoop (responses : list PrepareResponse) : bool * Z * Z :=
  fold_left
    (fun (acc : bool * Z * Z) response =>
       let '(accepted, maxBallot, maxStatus) := acc in
       let '(maxBallot, maxStatus) :=
         match prInstance response with
         | Some instance =>
             (if MaxBallot instance >? maxBallot then MaxBallot instance else maxBallot,
              if Status instance >? maxStatus then Status instance else maxStatus)
         | None => (maxBallot, maxStatus)
         end in
       (accepted && prAccepted response, maxBallot, maxStatus))
    responses (true, 0, 0).

(** The last response instance with the highest ballot and the highest
    status. *)
Definition maxInstanceOf (maxBallot maxStatus : Z) (responses : list PrepareResponse)
  : option Instance :=
  fold_left
    (fun (acc : option Instance) response =>
       match prInstance response with
       | Some rInstance =>
           if (MaxBallot rInstance =? maxBallot) && (Status rInstance =? maxStatus)
           then Some rInstance else acc
       | None => acc
       end)
    responses None.

Definition managerPrepareCheckResponses (s : Scope) (instance : Instance)
    (responses : list PrepareResponse) : Scope * option error :=
  let '(accepted, maxBallot, maxStatus) := checkLoop responses in
  let s1 := mutateLocal (fun i => fst (updateBallot i maxBallot)) s instance in
  if negb accepted then
    let local := localInstance s1 instance in
    let r :=
      match maxInstanceOf maxBallot maxStatus responses with
      | Some maxInstance =>
          if Status maxInstance >? Status local then
            if Status maxInstance =? INSTANCE_ACCEPTED
            then ManagerAccept.acceptInstance s1 maxInstance false
            else if (Status maxInstance =? INSTANCE_COMMITTED)
                    || (Status maxInstance =? INSTANCE_EXECUTED)
            then commitInstanceUnsafe s1 maxInstance false
            else (s1, None)
          else (s1, None)
      | None => (s1, None)
      end in
    match r with
    | (s2, Some e) => (s2, Some e)
    | (s2, None) => (s2, Some BallotError)
    end
  else (s1, None).

(** The three cases of the [switch] of [managerPrepareApply], last first;
    each falls through into the one before it here. *)
Definition applyCommit (s : Scope) (prepareInstance : Instance) : Scope * option error :=
  commitPhase s prepareInstance.

Definition applyAccept (s : Scope) (instance : Instance) (acceptRequired : bool)
    (prepareInstance : Instance) : Scope * option error :=
  if acceptRequired then
    match acceptPhase s prepareInstance with
    | (s', Some e) => (s', Some e)
    | (s', None) => applyCommit s' (localInstance s' instance)
    end
  else applyCommit s prepareInstance.

Definition applyPreAccept (s : Scope) (instance : Instance) (prepareInstance : Instance)
  : Scope * option error :=
  match preAcceptPhase s prepareInstance with
  | (s', Err e) => (s', Some e)
  | (s', Ok acceptRequired) =>
      applyAccept s' instance acceptRequired (localInstance s' instance)
  end.

Definition managerPrepareApply (s : Scope) (instance : Instance)
    (responses : list PrepareResponse) : Scope * option error :=
  match managerPrepareCheckResponses s instance responses with
  | (s1, Some e) => (s1, Some e)
  | (s1, None) =>
      let remoteInstance := analyzePrepareResponses responses in
      let local := localInstance s1 instance in
      let '(s2, status, prepareInstance) :=
        match remoteInstance with
        | Some remote =>
            let prepareInstance :=
              if Status local >? Status remote then local else remote in
            (s1, Status prepareInstance, prepareInstance)
        | None =>
            if Status local <=? INSTANCE_PREACCEPTED then
              let s2 := mutateLocal (setNoopFlag true) s1 instance in
              (s2, INSTANCE_PREACCEPTED, localInstance s2 instance)
            else (s1, INSTANCE_PREACCEPTED, local)
        end in
      if status =? INSTANCE_PREACCEPTED then applyPreAccept s2 instance prepareInstance
      else if status =? INSTANCE_ACCEPTED then applyAccept s2 instance true prepareInstance
      else if (status =? INSTANCE_COMMITTED) || (status =? INSTANCE_EXECUTED)
      then applyCommit s2 prepareInstance
      else (s2, Some OtherError)
  end.

(** The recovery of an instance no other replica knows, in the words of the
    specification: the instance is marked noop and the three phases are run
    on the local instance, each on the instance as the phase before left
    it, up to the first error. *)
Definition noopRecoveryAllPhases (s : Scope) (local : Instance) : Scope * option error :=
  let s1 := mutateLocal (setNoopFlag true) s local in
  match preAcceptPhase s1 (localInstance s1 local) with
  | (s2, Err e) => (s2, Some e)
  | (s2, Ok _) =>
      match acceptPhase s2 (localInstance s2 local) with
      | (s3, Some e) => (s3, Some e)
      | (s3, None) => commitPhase s3 (localInstance s3 local)
      end
  end.

(** The same, with the accept phase run only when the pre-accept phase
    reports that it is required. *)
Definition noopRecovery (s : Scope) (local : Instance) : Scope * option error :=
  let s1 := mutateLocal (setNoopFlag true) s local in
  match preAcceptPhase s1 (localInstance s1 local) with
  | (s2, Err e) => (s2, Some e)
  | (s2, Ok acceptRequired) =>
      if acceptRequired then
        match acceptPhase s2 (localInstance s2 local) with
        | (s3, Some e) => (s3, Some e)
        | (s3, None) => commitPhase s3 (localInstance s3 local)
        end
      else commitPhase s2 (localInstance s2 local)
  end.

End PrepareApply.

(** A response to a prepare request for an instance the replica does not
    know, as [HandlePrepare] builds it. *)
Definition unknownInstanceResponse (response : PrepareResponse) : Prop :=
  prInstance response = None /\ prAccepted response = true.

(** Sample phases: a pre-accept that stores the instance and reports that
    no accept is required, an accept that is rejected, the commit of the
    scope. *)
Definition fastPreAccept (s : Scope) (i : Instance) : Scope * result bool :=
  (fst (preAcceptInstanceUnsafe s i true), Ok false).
Definition slowPreAccept (s : Scope) (i : Instance) : Scope * result bool :=
  (fst (preAcceptInstanceUnsafe s i true), Ok true).
Definition rejectedAccept (s : Scope) (i : Instance) : Scope * option error :=
  (s, Some BallotError).
Definition localAccept (s : Scope) (i : Instance) : Scope * option error :=
  ManagerAccept.acceptInstance s i true.
Definition localCommit (s : Scope) (i : Instance) : Scope * option error :=
  commitInstanceUnsafe s i true.

Definition unknownInstance : Instance := sampleInstance 1 INSTANCE_PREACCEPTED 0.
Definition unknownScope : Scope := scopeOf [unknownInstance].
Definition unknownResponses : list PrepareResponse :=
  [mkPrepareResponse true None; mkPrepareResponse true None].

(** ** Merging the pre-accept responses *)

Record PreAcceptResponse := mkPreAcceptResponse {
  paAccepted : bool;
  paMaxBallot : Z;
  paInstance : Instance;
  paMissingInstances : list Instance
}.

(** [NewInstanceIDSet(deps)]. *)
Definition NewInstanceIDSet (deps : list InstanceID) : gset InstanceID := list_to_set deps.

(** One response merged into the dependencies and the sequence so far. *)
Definition mergeAttributes (acc : gset InstanceID * Z) (response : PreAcceptResponse)
  : gset InstanceID * Z :=
  (fst acc ∪ NewInstanceIDSet (Dependencies (paInstance response)),
   Z.max (snd acc) (Sequence (paInstance response))).

(** Modelled from the spec: [mergePreAcceptAttributes] is not under src,
    its tests are. Section 4.4, step 5: the dependencies become the union
    of the local and of all returned dependency sets, the sequence the
    maximum of the local and of all returned sequences, and [changes] says
    whether the merged dependencies or the merged sequence differ from the
    local ones. The dependencies are compared as sets, as the tests compare
    them. *)
Definition mergePreAcceptAttributes (instance : Instance)
    (responses : list PreAcceptResponse) : Instance * bool :=
  let localDeps := NewInstanceIDSet (Dependencies instance) in
  let (deps, seq) := fold_left mergeAttributes responses (localDeps, Sequence instance) in
  let changes :=
    negb (bool_decide (deps = localDeps)) || negb (seq =? Sequence instance) in
  (setAttributes (elements deps) seq instance, changes).

(** The instances of TestMergePreAcceptAttributes. *)
Definition mergeLocal : Instance :=
  mkInstance 100 0 [] [] [1; 2; 3; 4]%N 3 INSTANCE_PREACCEPTED 0 false false false.
Definition mergeRemote : Instance :=
  mkInstance 100 0 [] [] [2; 3; 4; 5]%N 4 INSTANCE_PREACCEPTED 0 false false false.

(** ** The dependency manager

    Modelled from the spec: the dependency manager is not under src, its
    tests are (manager_dependencies_test.go). Section 4.2 and the list of
    persisted state in section 6: per key a record of the four sets
    [writes], [reads], [acknowledged] and [executed]; a key of the form
    [a:b:c] is a path, and the keys related to it are its ancestors (its
    proper prefixes), itself and its descendants (its extensions). *)

Module DependencyManager.

Record dependencies := mkDependencies {
  writes : gset InstanceID;
  reads : gset InstanceID;
  acknowledged : gset InstanceID;
  executed : gset InstanceID
}.

Definition newDependencies : dependencies := mkDependencies ∅ ∅ ∅ ∅.

(** The key [a:b:c] as the path [a; b; c]. *)
Fixpoint splitKeyFrom (segment : string) (key : string) : list string :=
  match key with
  | EmptyString => [segment]
  | String c key' =>
      if Ascii.eqb c ":"%char then segment :: splitKeyFrom EmptyString key'
      else splitKeyFrom (segment ++ String c EmptyString)%string key'
  end.

Definition splitKey (key : string) : list string := splitKeyFrom EmptyString key.

(** The key of the instruction the instance carries. *)
Definition instanceKey (instance : Instance) : list string :=
  match Commands instance with
  | instruction :: _ => splitKey (Key instruction)
  | [] => []
  end.

Definition related (key other : list string) : Prop :=
  other `prefix_of` key \/ key `prefix_of` other.

(** Modelled from the spec: [getLocalDeps], the dependencies one key
    contributes: its writes for a read, its writes and reads for a write
    (TestLocalReadDeps, TestLocalWriteDeps). *)
Definition getLocalDeps (d : dependencies) (instance : Instance) : gset InstanceID :=
  if ReadOnly instance then writes d else writes d ∪ reads d.

(** The union of the local dependencies of the related keys. *)
Definition relatedDeps (m : gmap (list string) dependencies) (key : list string)
    (instance : Instance) : gset InstanceID :=
  map_fold
    (fun other d acc =>
       if decide (related key other) then getLocalDeps d instance ∪ acc else acc)
    ∅ m.

(** The instance joins the reads of the key if it is a read, its writes
    otherwise (TestLastKeyReadIsUpdated, TestLastKeyWriteIsUpdated). *)
Definition register (instance : Instance) (d : dependencies) : dependencies :=
  if ReadOnly instance
  then mkDependencies (writes d) ({[IID instance]} ∪ reads d) (acknowledged d) (executed d)
  else mkDependencies ({[IID instance]} ∪ writes d) (reads d) (acknowledged d) (executed d).

(** The entries that are both acknowledged and executed leave the four
    sets (TestRemovalOfExAckedWrites, TestRemovalOfExAckedReads). *)
Definition prune (d : dependencies) : dependencies :=
  let gone := acknowledged d ∩ executed d in
  mkDependencies (writes d ∖ gone) (reads d ∖ gone)
                 (acknowledged d ∖ gone) (executed d ∖ gone).

(** Modelled from the spec: [GetAndSetDeps]. The dependencies are computed
    first, then the key is pruned and the instance registered under it: the
    tests find a pruned entry still among the dependencies returned by the
    call that pruned it. The instance's own id is never returned
    (TestNoSelfDependence). *)
Definition getAndSetDepsAt (m : gmap (list string) dependencies) (key : list string)
    (instance : Instance) : gmap (list string) dependencies * gset InstanceID :=
  let deps := relatedDeps m key instance ∖ {[IID instance]} in
  let node := default newDependencies (m !! key) in
  (<[key := register instance (prune node)]> m, deps).

Definition GetAndSetDeps (m : gmap (list string) dependencies) (instance : Instance)
  : gmap (list string) dependencies * gset InstanceID :=
  getAndSetDepsAt m (instanceKey instance) instance.

(** Modelled from the spec: [ReportAcknowledged] marks the dependencies of
    the instance, the instance itself left out, acknowledged under its key;
    [ReportExecuted] marks the instance executed under its key. *)
Definition ReportAcknowledged (m : gmap (list string) dependencies) (instance : Instance)
  : gmap (list string) dependencies :=
  let key := instanceKey instance in
  let d := default newDependencies (m !! key) in
  <[key := mkDependencies (writes d) (reads d)
             (acknowledged d ∪ (list_to_set (Dependencies instance) ∖ {[IID instance]}))
             (executed d)]> m.

Definition ReportExecuted (m : gmap (list string) dependencies) (instance : Instance)
  : gmap (list string) dependencies :=
  let key := instanceKey instance in
  let d := default newDependencies (m !! key) in
  <[key := mkDependencies (writes d) (reads d) (acknowledged d)
             ({[IID instance]} ∪ executed d)]> m.

(** What the claims say of a key: the sets of its record, the empty ones
    if the key has none yet. *)
Definition depsOf (m : gmap (list string) dependencies) (key : list string) : dependencies :=
  default newDependencies (m !! key).

(** Sample data: an instance with one instruction on the key. *)
Definition instanceOn (iid : InstanceID) (key : string) (readOnly : bool) : Instance :=
  mkInstance iid 0%N [] [mkInstruction "SET" key [] 0] [] 0 0 0 false false readOnly.

(** The registrations of TestIntegration, in its order; the ids are
    1 .. 10. *)
Definition integrationInstances : list Instance :=
  [instanceOn 1 "a" false; instanceOn 2 "a" true;
   instanceOn 3 "a:b" false; instanceOn 4 "a:b" true;
   instanceOn 5 "a:b:c" false; instanceOn 6 "a:b:c" true;
   instanceOn 7 "a:b:c:d" false; instanceOn 8 "a:b:c:d" true;
   instanceOn 9 "a:b1" false; instanceOn 10 "a:b1" true].

Definition integrationManager : gmap (list string) dependencies :=
  fold_left (fun m i => fst (GetAndSetDeps m i)) integrationInstances ∅.

(** The steps of TestSingleKeyIntegration on the key [a]: the writes 0 and
    1 are registered, 1 is accepted, which acknowledges its dependency 0,
    the write 2 is registered, 0 is executed, then the writes 3 and 4 are
    registered. Each registration is given with the dependencies it
    returned. *)
Definition singleKeySteps
  : gmap (list string) dependencies * list (gset InstanceID) :=
  let register (st : gmap (list string) dependencies * list (gset InstanceID)) iid :=
    let (m, deps) := GetAndSetDeps (fst st) (instanceOn iid "a" false) in
    (m, snd st ++ [deps]) in
  let st := register (∅, []) 0%N in
  let st := register st 1%N in
  let st :=
    (ReportAcknowledged (fst st)
       (mkInstance 1 0 [] [mkInstruction "SET" "a" [] 0] [0%N] 0 0 0 false false false),
     snd st) in
  let st := register st 2%N in
  let st := (ReportExecuted (fst st) (instanceOn 0 "a" false), snd st) in
  let st := register st 3%N in
  register st 4%N.

End DependencyManager.

(** ** The execution order

    Modelled from the spec: [getExecutionOrder] is not under src, its test
    is (part_001). Section 4.8, step 1: a depth-first traversal of the
    transitive dependencies of the instance, sorted at each level by
    [(sequence, instance id)] to break ties, the dependencies already
    executed skipped. TestDependencyOrdering says what a level is: it
    makes instances that depend on each other and has them ordered by
    their sequences, and by their ids where it gives them one sequence.
    Instances that depend on each other are one level of the traversal
    here, sorted by [(sequence, instance id)]; the dependencies of a level
    are visited in that order too, before the level is added to the
    order. An id without an instance in the store has no dependencies to
    follow and the sequence 0. *)

Definition dependenciesOf (s : Scope) (iid : InstanceID) : list InstanceID :=
  match instances s !! iid with
  | Some i => Dependencies i
  | None => []
  end.








(** Every id the traversal can meet: the instance it starts from and the
    dependencies of the stored instances. *)
Definition universe (s : Scope) (root : InstanceID) : gset InstanceID :=
  {[root]} ∪ map_fold (fun _ i acc => list_to_set (Dependencies i) ∪ acc) ∅ (instances s).








(** [pending s visited a b]: [b] is [a] or a transitive dependency of
    [a], along a chain of dependencies none of which is in [visited]. *)
Inductive pending (s : Scope) (visited : gset InstanceID) : InstanceID -> InstanceID -> Prop :=
| pending_here a : a ∉ visited -> pending s visited a a
| pending_dep a d b :
    a ∉ visited -> In d (dependenciesOf s a) -> pending s visited d b ->
    pending s visited a b.

(** [a] waits for [b]: [b] is [a] or a transitive dependency of [a] along
    instances that are not executed. *)
Definition waitsFor (s : Scope) (a b : InstanceID) : Prop :=
  pending s (list_to_set (executed s)) a b.

(** The two instances wait for each other: they are of one level. *)
Definition interdependent (s : Scope) (a b : InstanceID) : Prop :=
  waitsFor s a b /\ waitsFor s b a.









(** ** The coordinator's half of the accept phase (scope_accept.go, part_002) *)

(** [updateInstanceBallotFromResponses], on the object the caller holds.
    The responses come as the ballots their [GetBallot] returns. *)
Definition updateInstanceBallotFromResponses (instance : Instance) (responses : list Z)
  : Instance :=
  let ballot :=
    fold_left (fun ballot response => if response >? ballot then response else ballot)
      responses (MaxBallot instance) in
  if ballot >? MaxBallot instance then setMaxBallot ballot instance else instance.

(** [sendAccept]: the quorum is awaited, then the responses collected are
    checked. [None] is the sender still waiting in its [select]. A
    response is a [BallotMessage] through its [MaxBallot] field. The
    instance returned is the object of the caller after the call. *)
Definition sendAccept (instance : Instance) (replicas : nat)
    (events : list (event AcceptResponse)) : option (Instance * option error) :=
  match awaitQuorum (acceptQuorumSize replicas) events with
  | Timeout => Some (instance, Some TimeoutError)
  | Blocked _ => None
  | Quorum responses _ =>
      let accepted :=
        fold_left (fun accepted response => accepted && arAccepted response)
          responses true in
      if negb accepted
      then Some (updateInstanceBallotFromResponses instance (map arMaxBallot responses),
                 Some BallotError)
      else Some (instance, None)
  end.

(** ** Invariants of the scope *)

(** The two containers agree with the statuses: what is in progress is
    stored with a status up to [INSTANCE_ACCEPTED], what is committed with
    one from [INSTANCE_COMMITTED] on. *)
Definition consistent (s : Scope) : Prop :=
  wfScope s
  /\ (forall iid, iid ∈ inProgress s ->
        exists i, instances s !! iid = Some i /\ Status i <= INSTANCE_ACCEPTED)
  /\ (forall iid, iid ∈ committed s ->
        exists i, instances s !! iid = Some i /\ INSTANCE_COMMITTED <= Status i).

(** No stored instance has a sequence above [maxSeq]. *)
Definition seqBounded (s : Scope) : Prop :=
  forall iid i, instances s !! iid = Some i -> Sequence i <= maxSeq s.

(** The missing instances an accept request brings are instances as a
    replica stores them. *)
Definition wellFormedOperation (o : operation) : Prop :=
  match o with
  | OpHandleAccept r => Forall validInstance (arMissingInstances r)
  | _ => True
  end.

(** Every instance of [s] is stored in [s'] as it is in [s]. *)
Definition keepsInstances (s s' : Scope) : Prop :=
  forall iid i, instances s !! iid = Some i -> instances s' !! iid = Some i.

(** A phase function stores an unknown instance under its id, without an
    error, and touches no other entry of the store. *)
Definition storesFresh (acc : Scope -> Instance -> Scope * option error)
    (inst : Instance) : Prop :=
  forall s, instances s !! IID inst = None ->
    exists s' v, acc s inst = (s', None)
                 /\ instances s' = <[IID inst := v]> (instances s)
                 /\ IID v = IID inst.


(** The instance stored under [iid] is [e] but for its ballot, which is
    not below the ballot of [e]. *)
Definition storedButBallot (s : Scope) (iid : InstanceID) (e : Instance) : Prop :=
  exists e', instances s !! iid = Some e'
             /\ e' = setMaxBallot (MaxBallot e') e
             /\ MaxBallot e <= MaxBallot e'.
(** ** Creating instances (scope.go, part_002)

    [range] over a map visits its keys in an order the language leaves
    open; [elements] stands for that order, and nothing below depends on
    which it is. *)

(** [getCurrentDepsUnsafe] of part_002: the instances in progress, the
    committed ones, and the instance executed last. *)
Definition getCurrentDepsUnsafe (s : Scope) : list InstanceID :=
  let deps := [] in
  let deps := deps ++ elements (inProgress s) in
  let deps := deps ++ elements (committed s) in
  if (0 <? length (executed s))%nat
  then deps ++ [nth (length (executed s) - 1) (executed s) 0%N]
  else deps.

(** [getNextSeqUnsafe]: [s.maxSeq++; return s.maxSeq]. *)
Definition getNextSeqUnsafe (s : Scope) : Scope * Z :=
  let seq := incr64 (maxSeq s) in
  (mkScope (instances s) (inProgress s) (committed s) (executed s) seq, seq).

(** The outcome of a call that may panic. *)
Inductive outcome (A : Type) :=
| Returned (a : A)
| Panicked.
Arguments Returned {A} a.
Arguments Panicked {A}.

(** scope.go, the first version of the scope. *)
Module FirstScope.

(** [getCurrentDepsUnsafe]: the slice is made with a length, not only a
    capacity, and the dependencies are appended to it. *)
Definition getCurrentDepsUnsafe (s : Scope) : list InstanceID :=
  let executedDeps := if (length (executed s) =? 0)%nat then 0%nat else 1%nat in
  let deps := replicate (size (inProgress s) + size (committed s) + executedDeps) 0%N in
  let deps := deps ++ elements (inProgress s) in
  let deps := deps ++ elements (committed s) in
  if (0 <? executedDeps)%nat
  then deps ++ [nth (length (executed s) - 1) (executed s) 0%N]
  else deps.

(** [makeInstance]. The id [NewInstanceID()] draws and the id of the local
    node are arguments. *)
Definition makeInstance (s : Scope) (newInstanceID : InstanceID) (localID : NodeId)
    (instructions : list Instruction) : Scope * Instance :=
  let deps := getCurrentDepsUnsafe s in
  let (s1, seq) := getNextSeqUnsafe s in
  let instance :=
    mkInstance newInstanceID localID [] instructions deps seq
      INSTANCE_PREACCEPTED 0 false false false in
  (mkScope (<[IID instance := instance]> (instances s1))
           ({[IID instance]} ∪ inProgress s1)
           (committed s1) (executed s1) (maxSeq s1),
   instance).

Inductive setupError :=
| LocalReplicaNotFound
| RemoteReplicaSize.

(** The replica setup of [ExecuteInstructions]. [make] panics on the
    negative capacity that an empty replica list gives it. *)
Definition replicaSetup (localID : NodeId) (replicas : list NodeId)
  : outcome (list NodeId + setupError) :=
  if (Z.of_nat (length replicas) - 1 <? 0) then Panicked
  else
    let '(remoteReplicas, localReplicaFound) :=
      fold_left
        (fun (acc : list NodeId * bool) replica =>
           let (remoteReplicas, localReplicaFound) := acc in
           if negb (replica =? localID)%N
           then (remoteReplicas ++ [replica], localReplicaFound)
           else (remoteReplicas, true))
        replicas ([], false) in
    if negb localReplicaFound then Returned (inr LocalReplicaNotFound)
    else if negb (Z.of_nat (length remoteReplicas) =? Z.of_nat (length replicas) - 1)
    then Returned (inr RemoteReplicaSize)
    else Returned (inl remoteReplicas).

End FirstScope.

(** [NewScope]: no instance, empty containers. *)
Definition NewScope : Scope := mkScope ∅ ∅ ∅ [] 0.

(** The number of dependencies [getCurrentDepsUnsafe] counts before it
    collects them. *)
Definition numDeps (s : Scope) : nat :=
  (size (inProgress s) + size (committed s)
   + (if (0 <? length (executed s))%nat then 1 else 0))%nat.

(** ** More of the prepare phase (manager_prepare.go) *)

(** Every instance the responses carry is the instance asked for. *)
Definition answersFor (instance : Instance) (responses : list PrepareResponse) : Prop :=
  Forall (fun r => forall i, prInstance r = Some i -> IID i = IID instance) responses.

(** *** Deferring to the successors

    What the [select] of [managerDeferToSuccessor] takes after the
    request went out to a successor. A response of an unexpected type is
    dropped by the sending goroutine, and the [select] then ends with the
    commit event or the timeout. *)
Inductive successorEvent :=
| SuccessorResponse (instance : option Instance)
| SuccessorError
| SuccessorCommitted
| SuccessorTimedOut.

Section DeferToSuccessor.

(** [m.acceptInstance(instance, false)] and [m.commitInstance(instance,
    false)] of the manager are not under src; they are variables here, as
    are the events of the network: [contact nid] is what contacting the
    successor [nid] ends with. *)
Variable acceptInstance : Scope -> Instance -> Scope * option error.
Variable commitInstance : Scope -> Instance -> Scope * option error.
Variable contact : NodeId -> successorEvent.

(** The loop over the successors. [contacted] lists the nodes a request
    was sent to so far, in the order of sending. *)
Fixpoint deferLoop (s : Scope) (instance : Instance) (localID : NodeId)
    (replicas successors contacted : list NodeId)
  : Scope * result bool * list NodeId :=
  match successors with
  | [] => (s, Ok true, contacted)
  | nid :: successors' =>
      if (nid =? localID)%N then (s, Ok true, contacted)
      else if existsb (N.eqb nid) replicas then
        let contacted := contacted ++ [nid] in
        match contact nid with
        | SuccessorResponse None =>
            deferLoop s instance localID replicas successors' contacted
        | SuccessorResponse (Some rInstance) =>
            let local := localInstance s instance in
            if Status rInstance >? Status local then
              if Status rInstance =? INSTANCE_ACCEPTED then
                match acceptInstance s local with
                | (s', Some e) => (s', Err e, contacted)
                | (s', None) => (s', Ok false, contacted)
                end
              else if (Status rInstance =? INSTANCE_COMMITTED)
                      || (Status rInstance =? INSTANCE_EXECUTED) then
                match commitInstance s local with
                | (s', Some e) => (s', Err e, contacted)
                | (s', None) => (s', Ok true, contacted)
                end
              else (s, Ok false, contacted)
            else (s, Ok false, contacted)
        | SuccessorError =>
            deferLoop s instance localID replicas successors' contacted
        | SuccessorCommitted => (s, Ok true, contacted)
        | SuccessorTimedOut =>
            deferLoop s instance localID replicas successors' contacted
        end
      else deferLoop s instance localID replicas successors' contacted
  end.

Definition managerDeferToSuccessor (s : Scope) (instance : Instance) (localID : NodeId)
    (replicas : list NodeId) : Scope * result bool * list NodeId :=
  deferLoop s instance localID replicas (Successors (localInstance s instance)) [].

End DeferToSuccessor.

(** The successors listed ahead of the local node. *)
Fixpoint ahead (localID : NodeId) (successors : list NodeId) : list NodeId :=
  match successors with
  | [] => []
  | nid :: successors' =>
      if (nid =? localID)%N then [] else nid :: ahead localID successors'
  end.

(** The successors ahead of the local node that are replicas of the
    instance: those [managerDeferToSuccessor] may turn to. *)
Definition consulted (localID : NodeId) (replicas successors : list NodeId) : list NodeId :=
  List.filter (fun nid => existsb (N.eqb nid) replicas) (ahead localID successors).

(** A contact that yields nothing: an error, a timeout, or a successor
    that does not know the instance. *)
Definition fruitless (e : successorEvent) : Prop :=
  e = SuccessorResponse None \/ e = SuccessorError \/ e = SuccessorTimedOut.

(** Sample data: an instance whose successors are the nodes 2, 3, 4 and 5. *)
Definition succeededInstance : Instance :=
  mkInstance 1 2 [2; 3; 4; 5]%N [] [] 1 INSTANCE_PREACCEPTED 0 false false false.

(** ** Instructions (store.go)

    A timestamp stands for the [time.Time] of the source and is compared
    as [==] compares it. *)

Module Store.

(** The loop of [Equal] over the arguments,
    [for n := 0; n < len(i.Args); n++], entered at index [n] with [count]
    turns to go. *)
Fixpoint argsLoop (iArgs oArgs : list string) (n count : nat) : bool :=
  match count with
  | O => true
  | S count' =>
      if negb (String.eqb (nth n iArgs EmptyString) (nth n oArgs EmptyString)) then false
      else argsLoop iArgs oArgs (S n) count'
  end.

Definition Equal (i o : Instruction) : bool :=
  if negb (String.eqb (Cmd i) (Cmd o)) then false
  else if negb (String.eqb (Key i) (Key o)) then false
  else if negb (length (Args i) =? length (Args o))%nat then false
  else if negb (argsLoop (Args i) (Args o) 0 (length (Args i))) then false
  else if negb (Timestamp i =? Timestamp o) then false
  else true.

(** The builtin [copy(dst, src)]: as many elements as the shorter of the
    two slices holds are copied. *)
Definition copy {A} (dst src : list A) : list A :=
  let n := Nat.min (length dst) (length src) in
  take n src ++ drop n dst.

Definition Copy (i : Instruction) : Instruction :=
  let newArgs := replicate (length (Args i)) EmptyString in
  mkInstruction (Cmd i) (Key i) (copy newArgs (Args i)) (Timestamp i).

End Store.

(** ** Joining the cluster (cluster.go) *)

Module Cluster.

Inductive ClusterStatus :=
| CLUSTER_INITIALIZING
| CLUSTER_NORMAL
| CLUSTER_STREAMING.

Definition DatacenterID := string.

(** A node of the topology: its id, its datacenter, and whether it is a
    [*RemoteNode]. *)
Record Node := mkNode {
  nodeId : NodeId;
  dcId : DatacenterID;
  isRemote : bool
}.

(** What [SendMessage] of the node streamed from yields. *)
Inductive streamReply :=
| SendFailed
| StreamResponse
| OtherResponse.

(** [streamFromNode]: the type assertion of [cn] to [*RemoteNode] panics
    on a node of another type. *)
Definition streamFromNode (status : ClusterStatus) (cn : Node) (reply : streamReply)
  : outcome (ClusterStatus * option error) :=
  if negb (isRemote cn) then Panicked
  else
    match reply with
    | SendFailed => Returned (status, Some OtherError)
    | OtherResponse => Returned (status, Some OtherError)
    | StreamResponse => Returned (CLUSTER_STREAMING, None)
    end.

(** The loop of [JoinCluster] that looks for the local node, entered at
    index [i]; [None] when the loop ends without the [break]. *)
Fixpoint indexLoop (localID : NodeId) (nodes : list Node) (i : nat) : option nat :=
  match nodes with
  | [] => None
  | n :: nodes' =>
      if (nodeId n =? localID)%N then Some i else indexLoop localID nodes' (S i)
  end.

(** [nodes[i]] for an [int] index: out of range, the index panics. *)
Definition index (nodes : list Node) (i : Z) : outcome Node :=
  if i <? 0 then Panicked
  else match nodes !! Z.to_nat i with
       | Some n => Returned n
       | None => Panicked
       end.

(** [JoinCluster]. [var idx int] stays 0 when the local node is not
    found; [%] is the remainder of the truncated division. The error of
    [streamFromNode] is dropped. *)
Definition JoinCluster (status : ClusterStatus) (localID : NodeId) (nodes : list Node)
    (reply : streamReply) : outcome (ClusterStatus * option error) :=
  let idx := Z.of_nat (default 0%nat (indexLoop localID nodes 0)) in
  match index nodes idx with
  | Panicked => Panicked
  | Returned n =>
      if negb (nodeId n =? localID)%N then Panicked
      else
        match index nodes (Z.rem (idx - 1) (Z.of_nat (length nodes))) with
        | Panicked => Panicked
        | Returned stream_from =>
            match streamFromNode status stream_from reply with
            | Panicked => Panicked
            | Returned (status', _) => Returned (status', None)
            end
        end
  end.

(** The status [JoinCluster] leaves when it returns. *)
Definition joined (status : ClusterStatus) (reply : streamReply) : ClusterStatus :=
  match reply with
  | StreamResponse => CLUSTER_STREAMING
  | _ => status
  end.

(** *** Reading at a consistency level

    [ConsistencyLevel] is a string type; [CONSISTENCY_OTHER] stands for
    the strings that name no level. *)
Inductive ConsistencyLevel :=
| CONSISTENCY_ONE
| CONSISTENCY_QUORUM
| CONSISTENCY_QUORUM_LOCAL
| CONSISTENCY_ALL
| CONSISTENCY_ALL_LOCAL
| CONSISTENCY_CONSENSUS
| CONSISTENCY_CONSENSUS_LOCAL
| CONSISTENCY_OTHER.

Definition readLocalOnly (cl : ConsistencyLevel) : bool :=
  match cl with
  | CONSISTENCY_ONE => true
  | CONSISTENCY_QUORUM_LOCAL => true
  | CONSISTENCY_ALL_LOCAL => true
  | CONSISTENCY_CONSENSUS_LOCAL => true
  | _ => false
  end.

(** A [map[DatacenterID][]Node], as [range] goes through it: the keys are
    distinct, the order is the one the iteration happens to take. *)
Definition replicaMap := list (DatacenterID * list Node).

Definition numMappedNodes (m : replicaMap) : nat :=
  fold_left (fun num (entry : DatacenterID * list Node) => (num + length (snd entry))%nat)
    m 0%nat.

Inductive readError :=
| ConsensusNotImplemented
| UnknownConsistency
| TooManyErrors
| ReadTimeout.

(** The [switch] over the consistency level in [ExecuteRead]. *)
Definition requiredResponses (consistency : ConsistencyLevel) (nodes : list Node)
  : nat + readError :=
  match consistency with
  | CONSISTENCY_ONE => inl 1%nat
  | CONSISTENCY_QUORUM | CONSISTENCY_QUORUM_LOCAL => inl (length nodes / 2 + 1)%nat
  | CONSISTENCY_ALL | CONSISTENCY_ALL_LOCAL => inl (length nodes)
  | CONSISTENCY_CONSENSUS | CONSISTENCY_CONSENSUS_LOCAL => inr ConsensusNotImplemented
  | CONSISTENCY_OTHER => inr UnknownConsistency
  end.

(** The loop of [ExecuteRead] over the replica map: the number of
    responses required of each datacenter, and the nodes queried, by id. *)
Fixpoint planLoop (consistency : ConsistencyLevel) (localDC : DatacenterID)
    (m : replicaMap) (numRequiredResponses : gmap DatacenterID nat)
    (nodeMap : gmap NodeId Node)
  : gmap DatacenterID nat * gmap NodeId Node + readError :=
  match m with
  | [] => inl (numRequiredResponses, nodeMap)
  | (dcid, nodes) :: m' =>
      if negb (String.eqb dcid localDC) && readLocalOnly consistency
      then planLoop consistency localDC m' (<[dcid := 0%nat]> numRequiredResponses) nodeMap
      else
        match requiredResponses consistency nodes with
        | inr e => inr e
        | inl num =>
            planLoop consistency localDC m' (<[dcid := num]> numRequiredResponses)
              (fold_left (fun nodeMap n => <[nodeId n := n]> nodeMap) nodes nodeMap)
        end
  end.

(** What the [select] of the waiting loop takes: the response of a node,
    with its value unless the node reported an error, or the timeout. *)
Inductive queryEvent (V : Type) :=
| Responded (nid : NodeId) (val : option V)
| QueryTimedOut.
Arguments Responded {V} nid val.
Arguments QueryTimedOut {V}.

(** [ReadValues] carries the values that go to [Reconcile] and the events
    not taken; [ReadWaiting] is the loop still in its [select]. *)
Inductive readResult (V : Type) :=
| ReadValues (values : list V) (rest : list (queryEvent V))
| ReadFailed (e : readError)
| ReadPanicked
| ReadWaiting.
Arguments ReadValues {V} values rest.
Arguments ReadFailed {V} e.
Arguments ReadPanicked {V}.
Arguments ReadWaiting {V}.

(** The number a map of counters holds for a key, 0 if none. *)
Definition counted (counters : gmap DatacenterID nat) (dcid : DatacenterID) : nat :=
  default 0%nat (counters !! dcid).

Definition consistencySatisfied (numRequiredResponses numReceivedResponses
    : gmap DatacenterID nat) : bool :=
  forallb
    (fun (entry : DatacenterID * nat) =>
       negb (counted numReceivedResponses (fst entry) <? snd entry)%nat)
    (map_to_list numRequiredResponses).

Fixpoint waitLoop {V} (numRequiredResponses : gmap DatacenterID nat)
    (nodeMap : gmap NodeId Node) (numNodes : nat)
    (numReceivedResponses : gmap DatacenterID nat) (numTotalResponses : nat)
    (values : list V) (events : list (queryEvent V)) : readResult V :=
  if consistencySatisfied numRequiredResponses numReceivedResponses
  then ReadValues values events
  else if (numNodes <=? numTotalResponses)%nat then ReadFailed TooManyErrors
  else
    match events with
    | [] => ReadWaiting
    | QueryTimedOut :: _ => ReadFailed ReadTimeout
    | Responded nid None :: events' =>
        waitLoop numRequiredResponses nodeMap numNodes
          numReceivedResponses (S numTotalResponses) values events'
    | Responded nid (Some val) :: events' =>
        match nodeMap !! nid with
        | None => ReadPanicked
        | Some n =>
            waitLoop numRequiredResponses nodeMap numNodes
              (<[dcId n := S (counted numReceivedResponses (dcId n))]> numReceivedResponses)
              (S numTotalResponses) (values ++ [val]) events'
        end
    end.

(** [ExecuteRead], up to the values it hands to [Reconcile]. *)
Definition ExecuteRead {V} (consistency : ConsistencyLevel) (localDC : DatacenterID)
    (m : replicaMap) (events : list (queryEvent V)) : readResult V :=
  let numNodes := numMappedNodes m in
  match planLoop consistency localDC m ∅ ∅ with
  | inr e => ReadFailed e
  | inl (numRequiredResponses, nodeMap) =>
      waitLoop numRequiredResponses nodeMap numNodes ∅ 0 [] events
  end.

(** The successful responses among the events that come from the given
    nodes. *)
Definition answersOf {V} (nodes : list Node) (events : list (queryEvent V)) : nat :=
  length
    (List.filter
       (fun ev =>
          match ev with
          | Responded nid (Some _) => existsb (fun n => (nodeId n =? nid)%N) nodes
          | _ => false
          end)
       events).

(** The responses among the events, successful or not. *)
Definition responsesIn {V} (events : list (queryEvent V)) : nat :=
  length
    (List.filter
       (fun ev => match ev with Responded _ _ => true | QueryTimedOut => false end)
       events).

(** The replica map groups the nodes by their datacenter. *)
Definition grouped (m : replicaMap) : Prop :=
  NoDup (map fst m)
  /\ Forall (fun entry : DatacenterID * list Node =>
               Forall (fun n => dcId n = fst entry) (snd entry)) m.

(** Sample data: two datacenters, three nodes in the first and one in the
    second. *)
Definition sampleReplicas : replicaMap :=
  [("DC1"%string, [mkNode 1 "DC1" true; mkNode 2 "DC1" true; mkNode 3 "DC1" true]);
   ("DC2"%string, [mkNode 4 "DC2" true])].

Definition sampleEvents : list (queryEvent Z) :=
  [Responded 1%N (Some 10); Responded 2%N None; Responded 3%N (Some 30); QueryTimedOut].

(** The three nodes of the first datacenter report an error. *)
Definition failingEvents : list (queryEvent Z) :=
  [Responded 1%N None; Responded 2%N None; Responded 3%N None].

End Cluster.

(** ** The literal partitioner (part_005)

    [GetToken] builds its token in a byte slice and hands the same slice
    to a [bytes.Buffer]. Slices share their backing arrays, so the
    embedding keeps the arrays in a heap and a slice is a view of one of
    them. *)

Module Partitioner.

(** The arrays allocated so far; a byte is an integer below 256. *)
Abbreviation heap := (list (list Z)).

(** A slice that starts at the beginning of its array: the array, the
    length, the capacity. *)
Record slice := mkSlice {
  array : nat;
  len : nat;
  cap : nat
}.

(** [make([]byte, n)]: a new array of [n] zero bytes. *)
Definition make (h : heap) (n : nat) : heap * slice :=
  (h ++ [replicate n 0], mkSlice (length h) n n).

(** The bytes a slice shows. *)
Definition bytesOf (h : heap) (s : slice) : list Z :=
  take (len s) (default [] (h !! array s)).

(** [bytes.NewBuffer(b)]: the buffer takes [b] as its contents, ready to
    be read; what is written to the buffer comes after them. *)
Record Buffer := mkBuffer { buf : slice }.

Definition NewBuffer (b : slice) : Buffer := mkBuffer b.

(** [Write] of [bytes.Buffer]: the bytes are appended in place when the
    capacity of the slice allows, and else to a copy of the contents in a
    new, larger array. *)
Definition Write (h : heap) (b : Buffer) (p : list Z) : heap * Buffer :=
  let s := buf b in
  if (len s + length p <=? cap s)%nat then
    let old := default [] (h !! array s) in
    let new := take (len s) old ++ p ++ drop (len s + length p) old in
    (<[array s := new]> h, mkBuffer (mkSlice (array s) (len s + length p) (cap s)))
  else
    let c := (2 * cap s + length p)%nat in
    let new := bytesOf h s ++ p ++ replicate (c - (len s + length p)) 0 in
    (h ++ [new], mkBuffer (mkSlice (length h) (len s + length p) c)).

(** The eight bytes of a [uint64], least significant first, as
    [binary.Write] with [binary.LittleEndian] writes them. *)
Definition littleEndian64 (v : Z) : list Z :=
  [v mod 256; (v / 2 ^ 8) mod 256; (v / 2 ^ 16) mod 256; (v / 2 ^ 24) mod 256;
   (v / 2 ^ 32) mod 256; (v / 2 ^ 40) mod 256; (v / 2 ^ 48) mod 256;
   (v / 2 ^ 56) mod 256].

Section GetToken.

(** [strconv.Atoi] of the standard library: the integer a string
    denotes, if it denotes one. *)
Variable Atoi : string -> option Z.

Definition GetToken (key : string) : outcome (list Z) :=
  match Atoi key with
  | None => Panicked
  | Some val =>
      if val <? 0 then Panicked
      else
        let uval := val mod 2 ^ 64 in
        let (h, b) := make [] 8 in
        let buffer := NewBuffer b in
        let (h, buffer) := Write h buffer (littleEndian64 uval) in
        if negb (len b =? 8)%nat then Panicked
        else Returned (bytesOf h b)
  end.

End GetToken.

End Partitioner.

(** * Properties *)

Lemma nonDecreasing_refl f s : nonDecreasing f s s.
Proof. intros iid i H. exists i. split; [done | lia]. Qed.

Lemma nonDecreasing_trans f s1 s2 s3 :
  nonDecreasing f s1 s2 -> nonDecreasing f s2 s3 -> nonDecreasing f s1 s3.
Proof.
  intros H12 H23 iid i H.
  destruct (H12 _ _ H) as (i2 & H2 & Hle2).
  destruct (H23 _ _ H2) as (i3 & H3 & Hle3).
  exists i3. split; [done | lia].
Qed.

(** Storing [i'] under a key keeps [f] from decreasing when the instance
    stored there before, if any, has an [f] no larger. *)

Lemma nonDecreasing_store f s k i' ip cm ex ms :
  (forall i, instances s !! k = Some i -> f i <= f i') ->
  nonDecreasing f s (mkScope (<[k := i']> (instances s)) ip cm ex ms).
Proof.
  intros Hle iid i H. simpl.
  destruct (decide (k = iid)) as [<- | Hne].
  - exists i'. rewrite lookup_insert_eq. split; [done | by apply Hle].
  - exists i. rewrite lookup_insert_ne by done. split; [done | lia].
Qed.

Lemma wfScope_store s k i' ip cm ex ms :
  IID i' = k ->
  wfScope s -> wfScope (mkScope (<[k := i']> (instances s)) ip cm ex ms).
Proof.
  intros Hk Hwf k' i. simpl. rewrite lookup_insert.
  case_decide; [intros [= <-]; congruence | apply Hwf].
Qed.

Ltac unfold_ops :=
  unfold ScopeAccept.acceptInstanceUnsafe, ScopeAccept.acceptStore,
    commitInstanceUnsafe, commitStore, preAcceptInstanceUnsafe,
    instancesAdd, adopt in *.

Ltac zbool :=
  repeat match goal with
  | H : (_ <? _) = true |- _ => apply Z.ltb_lt in H
  | H : (_ <? _) = false |- _ => apply Z.ltb_ge in H
  | H : (_ >=? _) = true |- _ => apply Z.geb_le in H
  | H : (_ >=? _) = false |- _ => rewrite Z.geb_leb in H; apply Z.leb_gt in H
  | H : (_ >? _) = true |- _ => rewrite Z.gtb_ltb in H; apply Z.ltb_lt in H
  | H : (_ >? _) = false |- _ => rewrite Z.gtb_ltb in H; apply Z.ltb_ge in H
  | H : (_ =? _) = true |- _ => apply Z.eqb_eq in H
  | H : (_ =? _) = false |- _ => apply Z.eqb_neq in H
  end.

Lemma accept_wf s inst :
  wfScope s -> wfScope (fst (ScopeAccept.acceptInstanceUnsafe s inst)).
Proof.
  intros Hwf. unfold_ops.
  destruct (instances s !! IID inst) as [existing|] eqn:E;
    [destruct (INSTANCE_ACCEPTED <? Status existing) eqn:Hs|]; simpl;
    try done; by apply wfScope_store.
Qed.

Lemma commit_wf s inst b :
  wfScope s -> wfScope (fst (commitInstanceUnsafe s inst b)).
Proof.
  intros Hwf. unfold_ops.
  destruct (instances s !! IID inst) as [existing|] eqn:E;
    [destruct (INSTANCE_COMMITTED <? Status existing) eqn:Hs|]; destruct b; simpl;
    try done; by apply wfScope_store.
Qed.

Lemma preAccept_wf s inst b :
  wfScope s -> wfScope (fst (preAcceptInstanceUnsafe s inst b)).
Proof.
  intros Hwf. unfold_ops.
  destruct (instances s !! IID inst) as [existing|] eqn:E;
    [destruct (INSTANCE_PREACCEPTED <? Status existing) eqn:Hs|]; destruct b; simpl;
    try done; by apply wfScope_store.
Qed.

Lemma accept_status s inst :
  wfScope s ->
  nonDecreasing Status s (fst (ScopeAccept.acceptInstanceUnsafe s inst)).
Proof.
  intros Hwf. unfold_ops.
  destruct (instances s !! IID inst) as [existing|] eqn:E.
  - destruct (INSTANCE_ACCEPTED <? Status existing) eqn:Hs; simpl.
    + apply nonDecreasing_refl.
    + apply nonDecreasing_store. simpl. intros i Hi. zbool.
      rewrite (Hwf _ _ E) in Hi. congruence.
  - simpl. apply nonDecreasing_store. intros i Hi. congruence.
Qed.

Lemma commit_status s inst b :
  wfScope s ->
  nonDecreasing Status s (fst (commitInstanceUnsafe s inst b)).
Proof.
  intros Hwf. unfold_ops.
  destruct (instances s !! IID inst) as [existing|] eqn:E.
  - destruct (INSTANCE_COMMITTED <? Status existing) eqn:Hs; simpl.
    + apply nonDecreasing_refl.
    + destruct b; apply nonDecreasing_store; simpl; intros i Hi; zbool;
        rewrite (Hwf _ _ E) in Hi; congruence.
  - destruct b; simpl; apply nonDecreasing_store; intros i Hi; simpl in Hi; congruence.
Qed.

Lemma preAccept_status s inst b :
  wfScope s ->
  nonDecreasing Status s (fst (preAcceptInstanceUnsafe s inst b)).
Proof.
  intros Hwf. unfold_ops.
  destruct (instances s !! IID inst) as [existing|] eqn:E.
  - destruct (INSTANCE_PREACCEPTED <? Status existing) eqn:Hs; simpl.
    + apply nonDecreasing_refl.
    + destruct b; apply nonDecreasing_store; simpl; intros i Hi; zbool;
        rewrite (Hwf _ _ E) in Hi; congruence.
  - destruct b; simpl; apply nonDecreasing_store; intros i Hi; simpl in Hi; congruence.
Qed.

Lemma incr32_ge b : b < uint32_max -> b <= incr32 b.
Proof.
  unfold incr32, uint32_max. intros H.
  destruct (Z_lt_le_dec (b + 1) 0) as [Hneg | Hpos].
  - pose proof (Z.mod_pos_bound (b + 1) (2 ^ 32) ltac:(lia)). lia.
  - rewrite Z.mod_small by lia. lia.
Qed.

Lemma accept_ballot s inst :
  wfScope s -> carriesBallot s inst false ->
  nonDecreasing MaxBallot s (fst (ScopeAccept.acceptInstanceUnsafe s inst)).
Proof.
  intros Hwf Hc. unfold_ops. unfold carriesBallot in Hc.
  destruct (instances s !! IID inst) as [existing|] eqn:E.
  - destruct (Hc _ eq_refl) as [Hle _].
    destruct (INSTANCE_ACCEPTED <? Status existing) eqn:Hs; simpl.
    + apply nonDecreasing_refl.
    + apply nonDecreasing_store. simpl. intros i Hi.
      rewrite (Hwf _ _ E) in Hi. congruence.
  - simpl. apply nonDecreasing_store. intros i Hi. congruence.
Qed.

Lemma commit_ballot s inst b :
  wfScope s -> carriesBallot s inst b ->
  nonDecreasing MaxBallot s (fst (commitInstanceUnsafe s inst b)).
Proof.
  intros Hwf Hc. unfold_ops. unfold carriesBallot in Hc.
  destruct (instances s !! IID inst) as [existing|] eqn:E.
  - destruct (Hc _ eq_refl) as [Hle Hmax].
    destruct (INSTANCE_COMMITTED <? Status existing) eqn:Hs; simpl.
    + apply nonDecreasing_refl.
    + destruct b; apply nonDecreasing_store; simpl; intros i Hi;
        rewrite (Hwf _ _ E) in Hi; replace i with existing by congruence; [|lia].
      pose proof (incr32_ge (MaxBallot inst) (Hmax eq_refl)). lia.
  - destruct b; simpl; apply nonDecreasing_store; intros i Hi; simpl in Hi; congruence.
Qed.

Lemma preAccept_fresh_ballot s inst :
  instances s !! IID inst = None ->
  nonDecreasing MaxBallot s (fst (preAcceptInstanceUnsafe s inst false)).
Proof.
  intros E. unfold_ops. rewrite E. simpl.
  apply nonDecreasing_store. intros i Hi. simpl in Hi. congruence.
Qed.

Lemma instancesAdd_wf s i : wfScope s -> wfScope (instancesAdd s i).
Proof. intros Hwf. by apply wfScope_store. Qed.

Lemma instancesAdd_mono f s inst :
  wfScope s ->
  (forall i, instances s !! IID inst = Some i -> f i <= f inst) ->
  nonDecreasing f s (instancesAdd s inst).
Proof. intros Hwf H. by apply nonDecreasing_store. Qed.

(** What [addMissingStep] does after a phase function returned. *)

Lemma addMissing_after f s s' inst :
  wfScope s' -> nonDecreasing f s s' ->
  nonDecreasing f s
    (match instances s' !! IID inst with
     | Some stored => instancesAdd s' stored
     | None => instancesAdd s' inst
     end)
  /\ wfScope (match instances s' !! IID inst with
     | Some stored => instancesAdd s' stored
     | None => instancesAdd s' inst
     end).
Proof.
  intros Hwf Hmono.
  destruct (instances s' !! IID inst) as [stored|] eqn:E.
  - split; [| by apply instancesAdd_wf].
    eapply nonDecreasing_trans; [exact Hmono |].
    apply instancesAdd_mono; [done |]. intros i Hi.
    rewrite (Hwf _ _ E) in Hi. replace i with stored by congruence. lia.
  - split; [| by apply instancesAdd_wf].
    eapply nonDecreasing_trans; [exact Hmono |].
    apply instancesAdd_mono; [done |]. intros i Hi. congruence.
Qed.

Lemma addMissingStep_mono f acc s inst :
  wfScope s ->
  wfPreserving acc -> freshMono f acc ->
  freshMono f (fun s i => preAcceptInstanceUnsafe s i false) ->
  freshMono f (fun s i => commitInstanceUnsafe s i false) ->
  nonDecreasing f s (scopeOfStep (addMissingStep acc s inst))
  /\ wfScope (scopeOfStep (addMissingStep acc s inst)).
Proof.
  intros Hwf Hacc Hfa Hfp Hfc. unfold addMissingStep.
  destruct (instances s !! IID inst) as [x|] eqn:E; simpl.
  { split; [apply nonDecreasing_refl | done]. }
  destruct (Status inst =? INSTANCE_PREACCEPTED).
  { pose proof (Hfp s inst Hwf E) as Hm. pose proof (preAccept_wf s inst false Hwf) as Hw.
    simpl in Hm. destruct (preAcceptInstanceUnsafe s inst false) as [s' [e|]]; simpl in *;
      [done | by apply addMissing_after]. }
  destruct (Status inst =? INSTANCE_ACCEPTED).
  { pose proof (Hfa s inst Hwf E) as Hm. pose proof (Hacc s inst Hwf) as Hw.
    destruct (acc s inst) as [s' [e|]]; simpl in *;
      [done | by apply addMissing_after]. }
  destruct ((Status inst =? INSTANCE_COMMITTED) || (Status inst =? INSTANCE_EXECUTED)).
  { pose proof (Hfc s inst Hwf E) as Hm. pose proof (commit_wf s inst false Hwf) as Hw.
    simpl in Hm. destruct (commitInstanceUnsafe s inst false) as [s' [e|]]; simpl in *;
      [done | by apply addMissing_after]. }
  simpl. split; [| by apply instancesAdd_wf].
  apply instancesAdd_mono; [done |]. intros i Hi. congruence.
Qed.

Lemma addMissingInstancesUnsafe_mono f acc l : forall s,
  wfScope s ->
  wfPreserving acc -> freshMono f acc ->
  freshMono f (fun s i => preAcceptInstanceUnsafe s i false) ->
  freshMono f (fun s i => commitInstanceUnsafe s i false) ->
  nonDecreasing f s (fst (addMissingInstancesUnsafe acc s l))
  /\ wfScope (fst (addMissingInstancesUnsafe acc s l)).
Proof.
  induction l as [| inst l IH]; intros s Hwf Hacc Hfa Hfp Hfc; simpl.
  { split; [apply nonDecreasing_refl | done]. }
  destruct (addMissingStep_mono f acc s inst Hwf Hacc Hfa Hfp Hfc) as [Hm Hw].
  destruct (addMissingStep acc s inst) as [s' | [s' e]]; simpl in *; [| done].
  destruct (IH s' Hw Hacc Hfa Hfp Hfc) as [Hm' Hw'].
  split; [by eapply nonDecreasing_trans | done].
Qed.

Lemma freshMono_status_accept : freshMono Status ScopeAccept.acceptInstanceUnsafe.
Proof. intros s i Hwf _. by apply accept_status. Qed.

Lemma freshMono_status_preAccept :
  freshMono Status (fun s i => preAcceptInstanceUnsafe s i false).
Proof. intros s i Hwf _. by apply preAccept_status. Qed.

Lemma freshMono_status_commit :
  freshMono Status (fun s i => commitInstanceUnsafe s i false).
Proof. intros s i Hwf _. by apply commit_status. Qed.

Lemma freshMono_ballot_accept : freshMono MaxBallot ScopeAccept.acceptInstanceUnsafe.
Proof. intros s i Hwf E. apply accept_ballot; [done |]. intros x Hx. congruence. Qed.

Lemma freshMono_ballot_preAccept :
  freshMono MaxBallot (fun s i => preAcceptInstanceUnsafe s i false).
Proof. intros s i Hwf E. by apply preAccept_fresh_ballot. Qed.

Lemma freshMono_ballot_commit :
  freshMono MaxBallot (fun s i => commitInstanceUnsafe s i false).
Proof. intros s i Hwf E. apply commit_ballot; [done |]. intros x Hx. congruence. Qed.

Lemma wfPreserving_accept : wfPreserving ScopeAccept.acceptInstanceUnsafe.
Proof. intros s i. apply accept_wf. Qed.

(** The missing instances of an accept request. *)

Lemma missing_mono f s s1 l :
  wfScope s1 -> nonDecreasing f s s1 ->
  freshMono f ScopeAccept.acceptInstanceUnsafe ->
  freshMono f (fun s i => preAcceptInstanceUnsafe s i false) ->
  freshMono f (fun s i => commitInstanceUnsafe s i false) ->
  nonDecreasing f s
    (if (0 <? length l)%nat
     then fst (addMissingInstancesUnsafe ScopeAccept.acceptInstanceUnsafe s1 l) else s1)
  /\ wfScope
    (if (0 <? length l)%nat
     then fst (addMissingInstancesUnsafe ScopeAccept.acceptInstanceUnsafe s1 l) else s1).
Proof.
  intros Hwf Hm Hfa Hfp Hfc.
  destruct (0 <? length l)%nat; [| done].
  destruct (addMissingInstancesUnsafe_mono f ScopeAccept.acceptInstanceUnsafe l s1
              Hwf wfPreserving_accept Hfa Hfp Hfc) as [H1 H2].
  split; [by eapply nonDecreasing_trans | done].
Qed.

Lemma HandleAccept_status s r :
  wfScope s ->
  nonDecreasing Status s (fst (ScopeAccept.HandleAccept s r))
  /\ wfScope (fst (ScopeAccept.HandleAccept s r)).
Proof.
  intros Hwf. unfold ScopeAccept.HandleAccept.
  pose proof (accept_status s (arInstance r) Hwf) as Hm.
  pose proof (accept_wf s (arInstance r) Hwf) as Hw.
  destruct (ScopeAccept.acceptInstanceUnsafe s (arInstance r)) as [s1 err]. simpl in Hm, Hw.
  pose proof (missing_mono Status s s1 (arMissingInstances r) Hw Hm
    freshMono_status_accept freshMono_status_preAccept freshMono_status_commit) as Ht.
  destruct (instances s !! IID (arInstance r)) as [instance|];
    [destruct (MaxBallot instance >=? MaxBallot (arInstance r))|];
    try (destruct err as [e|]; [destruct (isInvalidStatusUpdate e)|]);
    simpl; try exact Ht; try (split; [apply nonDecreasing_refl | done]); by split.
Qed.

Lemma HandleAccept_ballot s r :
  wfScope s ->
  nonDecreasing MaxBallot s (fst (ScopeAccept.HandleAccept s r)).
Proof.
  intros Hwf. unfold ScopeAccept.HandleAccept.
  pose proof (accept_wf s (arInstance r) Hwf) as Hw.
  assert (Hgo : carriesBallot s (arInstance r) false ->
    nonDecreasing MaxBallot s
      (fst (let (s1, err) := ScopeAccept.acceptInstanceUnsafe s (arInstance r) in
       match (match err with
              | Some e => if isInvalidStatusUpdate e then None else Some e
              | None => None
              end) with
       | Some e => (s1, Err e)
       | None =>
          let s2 :=
            if (0 <? length (arMissingInstances r))%nat
            then fst (addMissingInstancesUnsafe ScopeAccept.acceptInstanceUnsafe s1
                        (arMissingInstances r))
            else s1 in
          (s2, Ok (mkAcceptResponse true 0))
       end))).
  { intros Hc. pose proof (accept_ballot s (arInstance r) Hwf Hc) as Hm.
    destruct (ScopeAccept.acceptInstanceUnsafe s (arInstance r)) as [s1 err]. simpl in Hm, Hw.
    pose proof (missing_mono MaxBallot s s1 (arMissingInstances r) Hw Hm
      freshMono_ballot_accept freshMono_ballot_preAccept freshMono_ballot_commit) as [Ht _].
    destruct err as [e|]; [destruct (isInvalidStatusUpdate e)|]; simpl; done. }
  destruct (instances s !! IID (arInstance r)) as [instance|] eqn:E;
    [destruct (MaxBallot instance >=? MaxBallot (arInstance r)) eqn:Hb|]; simpl.
  - apply nonDecreasing_refl.
  - apply Hgo. intros x Hx. zbool. replace x with instance by congruence. split; [lia | done].
  - apply Hgo. intros x Hx. congruence.
Qed.

Lemma HandleCommit_fst s r :
  fst (HandleCommit s r) = fst (commitInstanceUnsafe s (crInstance r) false).
Proof.
  unfold HandleCommit.
  destruct (commitInstanceUnsafe s (crInstance r) false) as [s' [e|]];
    [destruct (isInvalidStatusUpdate e)|]; done.
Qed.

Lemma HandlePrepare_mono s r :
  wfScope s ->
  nonDecreasing Status s (fst (HandlePrepare s r))
  /\ nonDecreasing MaxBallot s (fst (HandlePrepare s r))
  /\ wfScope (fst (HandlePrepare s r)).
Proof.
  intros Hwf. unfold HandlePrepare, updateBallot.
  destruct (instances s !! prInstanceID r) as [instance|] eqn:E; simpl.
  2: { repeat split; try apply nonDecreasing_refl; done. }
  pose proof (Hwf _ _ E) as Hk.
  destruct (prBallot r >? MaxBallot instance) eqn:Hb; zbool.
  - assert (Hlt : (MaxBallot instance <? prBallot r) = true) by (apply Z.ltb_lt; lia).
    rewrite Hlt. simpl.
    repeat split.
    + apply nonDecreasing_store; simpl. intros i Hi.
      replace i with instance by congruence. lia.
    + apply nonDecreasing_store; simpl. intros i Hi.
      replace i with instance by congruence. lia.
    + by apply wfScope_store.
  - repeat split.
    + apply nonDecreasing_store. intros i Hi.
      replace i with instance by congruence. lia.
    + apply nonDecreasing_store. intros i Hi.
      replace i with instance by congruence. lia.
    + by apply wfScope_store.
Qed.

Lemma step_wf s o : wfScope s -> wfScope (step s o).
Proof.
  intros Hwf. destruct o; simpl.
  - by apply accept_wf.
  - by apply commit_wf.
  - by apply HandleAccept_status.
  - rewrite HandleCommit_fst. by apply commit_wf.
  - by apply HandlePrepare_mono.
Qed.

Lemma step_status s o : wfScope s -> nonDecreasing Status s (step s o).
Proof.
  intros Hwf. destruct o; simpl.
  - by apply accept_status.
  - by apply commit_status.
  - by apply HandleAccept_status.
  - rewrite HandleCommit_fst. by apply commit_status.
  - by apply HandlePrepare_mono.
Qed.

Lemma step_ballot s o :
  wfScope s -> ballotGuarded s o -> nonDecreasing MaxBallot s (step s o).
Proof.
  intros Hwf Hg. destruct o; simpl in *.
  - by apply accept_ballot.
  - by apply commit_ballot.
  - by apply HandleAccept_ballot.
  - rewrite HandleCommit_fst. by apply commit_ballot.
  - by apply HandlePrepare_mono.
Qed.

(** X23. Along every run of accepts, commits and of the accept, commit and
    prepare handlers on a scope that stores every instance under its own
    id, every instance stays stored and its status never decreases. Its
    ballot never decreases across the accept and the prepare handler,
    which compare ballots before they write, nor across an accept, a
    commit or the commit handler when the instance brought carries a
    ballot not below the stored one and the increment does not wrap
    around. *)
Theorem status_and_guarded_ballot_monotone (s : Scope) (ops : list operation) :
  wfScope s ->
  nonDecreasing Status s (run s ops)
  /\ (guardedRun s ops -> nonDecreasing MaxBallot s (run s ops)).
Proof.
  revert s. induction ops as [| o ops IH]; intros s Hwf; simpl.
  { split; [| intros _]; apply nonDecreasing_refl. }
  destruct (IH (step s o) (step_wf s o Hwf)) as [IHs IHb].
  split.
  - eapply nonDecreasing_trans; [by apply step_status | exact IHs].
  - intros [Hg Hrest].
    eapply nonDecreasing_trans; [by apply step_ballot | by apply IHb].
Qed.

Lemma startScope_wf : wfScope startScope.
Proof.
  intros k i. unfold startScope, scopeOf. simpl.
  rewrite lookup_insert. case_decide; [by intros [= <-] | by rewrite lookup_empty].
Qed.

Lemma status_and_guarded_ballot_monotone_witness :
  wfScope startScope
  /\ guardedRun startScope guardedOperations
  /\ nonDecreasing Status startScope (run startScope guardedOperations)
  /\ nonDecreasing MaxBallot startScope (run startScope guardedOperations)
  /\ instances (run startScope guardedOperations) !! 1%N
     = Some (sampleInstance 1 INSTANCE_COMMITTED 8).
Proof.
  assert (Hg : guardedRun startScope guardedOperations).
  { simpl. repeat split; try done;
      vm_compute in H; injection H as <-; vm_compute; congruence. }
  destruct (status_and_guarded_ballot_monotone startScope guardedOperations startScope_wf)
    as [Hs Hb].
  split; [exact startScope_wf |]. split; [exact Hg |]. split; [exact Hs |].
  split; [exact (Hb Hg) |]. vm_compute. reflexivity.
Defined.

(** C1, at a commit request whose instance carries a ballot below the
    stored one. The instance is stored with the ballot 5; the commit
    handler, given a request of ballot 3, leaves it stored with the
    ballot 3: [commitInstanceUnsafe] copies the ballot it is given. On the
    same scope the paths beside it keep the higher ballot: the prepare
    handler and the accept handler, given the ballot 3, reject and leave
    the ballot 5, and [updateInstanceBallotFromResponses], given a
    response of ballot 3, leaves the ballot 5. *)
Lemma commit_lowers_ballot :
  wfScope startScope
  /\ (MaxBallot <$> instances startScope !! 1%N) = Some 5
  /\ snd (HandleCommit startScope staleCommit) = Ok tt
  /\ (MaxBallot <$> instances (fst (HandleCommit startScope staleCommit)) !! 1%N)
     = Some 3
  /\ ~ nonDecreasing MaxBallot startScope (run startScope [OpHandleCommit staleCommit])
  /\ HandlePrepare startScope (mkPrepareRequest 3 1)
     = (startScope,
        Ok (mkPrepareResponse false (Some (sampleInstance 1 INSTANCE_PREACCEPTED 5))))
  /\ ScopeAccept.HandleAccept startScope
       (mkAcceptRequest (sampleInstance 1 INSTANCE_ACCEPTED 3) [])
     = (startScope, Ok (mkAcceptResponse false 5))
  /\ MaxBallot (updateInstanceBallotFromResponses
                  (sampleInstance 1 INSTANCE_PREACCEPTED 5) [3]) = 5.
Proof.
  split; [exact startScope_wf |].
  split; [vm_compute; reflexivity |]. split; [vm_compute; reflexivity |].
  split; [vm_compute; reflexivity |].
  split; [| split; [| split]]; try (vm_compute; reflexivity).
  intros H.
  destruct (H 1%N (sampleInstance 1 INSTANCE_PREACCEPTED 5)) as (i' & Hi' & Hb).
  { vm_compute. reflexivity. }
  vm_compute in Hi'. injection Hi' as <-. simpl in Hb. lia.
Qed.

(** ** The ballot check of [HandleAccept] *)

Lemma ScopeAccept_reject s r e :
  instances s !! IID (arInstance r) = Some e ->
  MaxBallot (arInstance r) <= MaxBallot e ->
  ScopeAccept.HandleAccept s r = (s, Ok (mkAcceptResponse false (MaxBallot e))).
Proof.
  intros E Hle. unfold ScopeAccept.HandleAccept. rewrite E.
  assert (Hb : (MaxBallot e >=? MaxBallot (arInstance r)) = true) by (apply Z.geb_le; lia).
  by rewrite Hb.
Qed.

Lemma ScopeAccept_no_reject s r resp :
  (forall e, instances s !! IID (arInstance r) = Some e ->
     MaxBallot e < MaxBallot (arInstance r)) ->
  snd (ScopeAccept.HandleAccept s r) = Ok resp -> arAccepted resp = true.
Proof.
  intros Hlt. unfold ScopeAccept.HandleAccept.
  destruct (instances s !! IID (arInstance r)) as [e|] eqn:E.
  - specialize (Hlt e eq_refl).
    assert (Hb : (MaxBallot e >=? MaxBallot (arInstance r)) = false).
    { rewrite Z.geb_leb. apply Z.leb_gt. lia. }
    rewrite Hb.
    destruct (ScopeAccept.acceptInstanceUnsafe s (arInstance r)) as [s1 [err|]];
      [destruct (isInvalidStatusUpdate err)|]; simpl; by intros [= <-].
  - destruct (ScopeAccept.acceptInstanceUnsafe s (arInstance r)) as [s1 [err|]];
      [destruct (isInvalidStatusUpdate err)|]; simpl; by intros [= <-].
Qed.

Lemma ManagerAccept_reject s r e :
  instances (ManagerAccept.missingAdded s r) !! IID (arInstance r) = Some e ->
  MaxBallot (arInstance r) <= MaxBallot e ->
  ManagerAccept.HandleAccept s r
  = (ManagerAccept.missingAdded s r, Ok (mkAcceptResponse false (MaxBallot e))).
Proof.
  intros E Hle. unfold ManagerAccept.HandleAccept. simpl. rewrite E.
  assert (Hb : (MaxBallot e >=? MaxBallot (arInstance r)) = true) by (apply Z.geb_le; lia).
  by rewrite Hb.
Qed.

Lemma ManagerAccept_no_reject s r resp :
  (forall e, instances (ManagerAccept.missingAdded s r) !! IID (arInstance r) = Some e ->
     MaxBallot e < MaxBallot (arInstance r)) ->
  snd (ManagerAccept.HandleAccept s r) = Ok resp -> arAccepted resp = true.
Proof.
  intros Hlt. unfold ManagerAccept.HandleAccept. simpl.
  destruct (instances (ManagerAccept.missingAdded s r) !! IID (arInstance r)) as [e|] eqn:E.
  - specialize (Hlt e eq_refl).
    assert (Hb : (MaxBallot e >=? MaxBallot (arInstance r)) = false).
    { rewrite Z.geb_leb. apply Z.leb_gt. lia. }
    rewrite Hb.
    destruct (ManagerAccept.acceptInstanceUnsafe _ (arInstance r) false) as [s1 [err|]];
      [destruct (isInvalidStatusUpdate err)|]; simpl; by intros [= <-].
  - destruct (ManagerAccept.acceptInstanceUnsafe _ (arInstance r) false) as [s1 [err|]];
      [destruct (isInvalidStatusUpdate err)|]; simpl; by intros [= <-].
Qed.

Lemma ScopeAccept_rejection s r :
  isRejection (snd (ScopeAccept.HandleAccept s r)) ->
  exists e, instances s !! IID (arInstance r) = Some e
            /\ MaxBallot (arInstance r) <= MaxBallot e.
Proof.
  intros (resp & Hr & Hacc).
  destruct (instances s !! IID (arInstance r)) as [e|] eqn:E.
  - destruct (Z_le_gt_dec (MaxBallot (arInstance r)) (MaxBallot e)) as [Hle | Hgt];
      [by exists e |].
    rewrite (ScopeAccept_no_reject s r resp) in Hacc; [done | | done].
    intros e' He'. rewrite E in He'. injection He' as <-. lia.
  - rewrite (ScopeAccept_no_reject s r resp) in Hacc; [done | | done].
    intros e' He'. congruence.
Qed.

Lemma ManagerAccept_rejection s r :
  isRejection (snd (ManagerAccept.HandleAccept s r)) ->
  exists e, instances (ManagerAccept.missingAdded s r) !! IID (arInstance r) = Some e
            /\ MaxBallot (arInstance r) <= MaxBallot e.
Proof.
  intros (resp & Hr & Hacc).
  destruct (instances (ManagerAccept.missingAdded s r) !! IID (arInstance r)) as [e|] eqn:E.
  - destruct (Z_le_gt_dec (MaxBallot (arInstance r)) (MaxBallot e)) as [Hle | Hgt];
      [by exists e |].
    rewrite (ManagerAccept_no_reject s r resp) in Hacc; [done | | done].
    intros e' He'. rewrite E in He'. injection He' as <-. lia.
  - rewrite (ManagerAccept_no_reject s r resp) in Hacc; [done | | done].
    intros e' He'. congruence.
Qed.

(** C9, as amended. Either accept handler rejects a request, with
    [Accepted = false] and the ballot it has recorded, if and only if the
    instance is known to the replica and the ballot of the request is not
    above the recorded one: lower or equal. The handler of scope_accept.go
    then leaves the scope as it was; the later one consults the scope to
    which the missing instances of the request have been added, and
    leaves that. *)
Theorem HandleAccept_rejects_iff_not_above (s : Scope) (r : AcceptRequest) :
  (isRejection (snd (ScopeAccept.HandleAccept s r)) <->
     exists e, instances s !! IID (arInstance r) = Some e
               /\ MaxBallot (arInstance r) <= MaxBallot e)
  /\ (forall e, instances s !! IID (arInstance r) = Some e ->
        isRejection (snd (ScopeAccept.HandleAccept s r)) ->
        ScopeAccept.HandleAccept s r = (s, Ok (mkAcceptResponse false (MaxBallot e))))
  /\ (isRejection (snd (ManagerAccept.HandleAccept s r)) <->
     exists e, instances (ManagerAccept.missingAdded s r) !! IID (arInstance r) = Some e
               /\ MaxBallot (arInstance r) <= MaxBallot e)
  /\ (forall e, instances (ManagerAccept.missingAdded s r) !! IID (arInstance r) = Some e ->
        isRejection (snd (ManagerAccept.HandleAccept s r)) ->
        ManagerAccept.HandleAccept s r
        = (ManagerAccept.missingAdded s r, Ok (mkAcceptResponse false (MaxBallot e)))).
Proof.
  repeat split.
  - apply ScopeAccept_rejection.
  - intros (e & E & Hle). rewrite (ScopeAccept_reject s r e E Hle). by eexists.
  - intros e E Hrej. destruct (ScopeAccept_rejection s r Hrej) as (e' & E' & Hle).
    replace e' with e in * by congruence. by apply ScopeAccept_reject.
  - apply ManagerAccept_rejection.
  - intros (e & E & Hle). rewrite (ManagerAccept_reject s r e E Hle). by eexists.
  - intros e E Hrej. destruct (ManagerAccept_rejection s r Hrej) as (e' & E' & Hle).
    replace e' with e in * by congruence. by apply ManagerAccept_reject.
Qed.

(** C9, as stated, at a request whose ballot equals the recorded one: it
    is rejected, and its ballot is not lower. *)

Lemma equal_ballot_is_rejected :
  snd (ScopeAccept.HandleAccept startScope equalBallotRequest)
    = Ok (mkAcceptResponse false 5)
  /\ snd (ManagerAccept.HandleAccept startScope equalBallotRequest)
    = Ok (mkAcceptResponse false 5)
  /\ ~ (exists e, instances startScope !! IID (arInstance equalBallotRequest) = Some e
                  /\ MaxBallot (arInstance equalBallotRequest) < MaxBallot e).
Proof.
  split; [| split].
  - vm_compute. reflexivity.
  - vm_compute. reflexivity.
  - intros (e & E & Hlt). vm_compute in E. injection E as <-. simpl in Hlt. lia.
Qed.

(** ** Missing instances are stored before the ballot check *)

Lemma is_Some_insert (m : gmap InstanceID Instance) k v iid :
  is_Some (m !! iid) \/ iid = k -> is_Some (<[k := v]> m !! iid).
Proof.
  intros [H | ->].
  - rewrite lookup_insert. case_decide; [by eexists | done].
  - rewrite lookup_insert_eq. by eexists.
Qed.

Lemma known_store s k i' ip cm ex ms iid :
  known s iid \/ iid = k ->
  known (mkScope (<[k := i']> (instances s)) ip cm ex ms) iid.
Proof. apply is_Some_insert. Qed.

Lemma commit_fresh s inst b :
  instances s !! IID inst = None ->
  exists s', commitInstanceUnsafe s inst b = (s', None)
    /\ keepsKnown s s' /\ known s' (IID inst).
Proof.
  intros E. unfold_ops. rewrite E. eexists. split; [reflexivity |].
  destruct b; simpl; split; try (intros iid H); apply known_store; auto.
Qed.

Lemma preAccept_fresh s inst b :
  instances s !! IID inst = None ->
  exists s', preAcceptInstanceUnsafe s inst b = (s', None)
    /\ keepsKnown s s' /\ known s' (IID inst).
Proof.
  intros E. unfold_ops. rewrite E. eexists. split; [reflexivity |].
  destruct b; simpl; split; try (intros iid H); apply known_store; auto.
Qed.

Lemma ManagerAccept_fresh s inst :
  instances s !! IID inst = None -> Status inst = INSTANCE_ACCEPTED ->
  exists s', ManagerAccept.acceptInstanceUnsafe s inst false = (s', None)
    /\ keepsKnown s s' /\ known s' (IID inst).
Proof.
  intros E Hst.
  unfold ManagerAccept.acceptInstanceUnsafe, ManagerAccept.acceptInstance,
    ManagerAccept.getOrSetInstance, ManagerAccept.instanceAccept.
  rewrite E, Hst. simpl. rewrite Hst. simpl. eexists. split; [reflexivity |].
  unfold keepsKnown, known. simpl.
  split; try (intros iid H); repeat (apply is_Some_insert; auto; left).
Qed.

Lemma addMissingStep_stores s inst :
  exists s', addMissingStep (fun s i => ManagerAccept.acceptInstanceUnsafe s i false) s inst
             = inl s'
    /\ keepsKnown s s' /\ known s' (IID inst).
Proof.
  unfold addMissingStep.
  destruct (instances s !! IID inst) as [x|] eqn:E.
  { exists s. split; [done |]. split; [by intros ? | by exists x]. }
  assert (Hafter : forall s', keepsKnown s s' -> known s' (IID inst) ->
    exists s'',
      inl (match instances s' !! IID inst with
           | Some stored => instancesAdd s' stored
           | None => instancesAdd s' inst
           end) = (inl s'' : Scope + Scope * option error)
      /\ keepsKnown s s'' /\ known s'' (IID inst)).
  { intros s' Hk [stored Hs]. rewrite Hs. eexists. split; [reflexivity |].
    split.
    - intros iid H. apply known_store. left. by apply Hk.
    - apply known_store. left. by exists stored. }
  destruct (Status inst =? INSTANCE_PREACCEPTED) eqn:H1.
  { destruct (preAccept_fresh s inst false E) as (s' & -> & Hk & Hin). by apply Hafter. }
  destruct (Status inst =? INSTANCE_ACCEPTED) eqn:H2.
  { zbool. destruct (ManagerAccept_fresh s inst E H2) as (s' & -> & Hk & Hin).
    by apply Hafter. }
  destruct ((Status inst =? INSTANCE_COMMITTED) || (Status inst =? INSTANCE_EXECUTED)).
  { destruct (commit_fresh s inst false E) as (s' & -> & Hk & Hin). by apply Hafter. }
  eexists. split; [reflexivity |].
  split; try (intros iid H); apply known_store; auto.
Qed.

Lemma addMissingInstancesUnsafe_stores l : forall s,
  let s' := fst (addMissingInstancesUnsafe
                   (fun s i => ManagerAccept.acceptInstanceUnsafe s i false) s l) in
  keepsKnown s s' /\ Forall (fun m => known s' (IID m)) l.
Proof.
  induction l as [| inst l IH]; intros s; simpl.
  { split; [by intros ? | constructor]. }
  destruct (addMissingStep_stores s inst) as (s1 & -> & Hk & Hin).
  destruct (IH s1) as [Hk' Hall]. split.
  - intros iid H. by apply Hk', Hk.
  - constructor; [by apply Hk' | exact Hall].
Qed.

(** C10. A request that the accept handler of the later version rejects
    has had its missing instances stored all the same: the scope the
    handler leaves is the one to which they were added, and each of them
    is known in it. *)
Theorem rejected_accept_has_stored_missing (s : Scope) (r : AcceptRequest)
    (resp : AcceptResponse) :
  snd (ManagerAccept.HandleAccept s r) = Ok resp ->
  arAccepted resp = false ->
  fst (ManagerAccept.HandleAccept s r) = ManagerAccept.missingAdded s r
  /\ Forall (fun m => known (fst (ManagerAccept.HandleAccept s r)) (IID m))
       (arMissingInstances r).
Proof.
  intros Hr Hacc.
  assert (Hrej : isRejection (snd (ManagerAccept.HandleAccept s r))) by (by exists resp).
  destruct (ManagerAccept_rejection s r Hrej) as (e & E & Hle).
  rewrite (ManagerAccept_reject s r e E Hle). simpl. split; [done |].
  unfold ManagerAccept.missingAdded.
  destruct (arMissingInstances r) as [| m l] eqn:El; [constructor |].
  simpl Nat.ltb. cbv iota.
  apply (addMissingInstancesUnsafe_stores (m :: l) s).
Qed.

Lemma rejected_accept_has_stored_missing_witness :
  snd (ManagerAccept.HandleAccept startScope staleAcceptRequest)
    = Ok (mkAcceptResponse false 5)
  /\ instances startScope !! 2%N = None
  /\ Forall (fun m => known (fst (ManagerAccept.HandleAccept startScope staleAcceptRequest)) (IID m))
       (arMissingInstances staleAcceptRequest).
Proof.
  split; [vm_compute; reflexivity |].
  split; [vm_compute; reflexivity |].
  apply (rejected_accept_has_stored_missing startScope staleAcceptRequest
           (mkAcceptResponse false 5)).
  - vm_compute. reflexivity.
  - reflexivity.
Defined.

(** ** Quorums *)

Lemma receiveLoop_quorum {A} (q : nat) (rs : list A) : forall n acc rest,
  (n + length rs = q)%nat ->
  receiveLoop q n acc (map Received rs ++ rest) = Quorum (acc ++ rs) rest.
Proof.
  induction rs as [| r rs IH]; intros n acc rest Hn; simpl in *.
  - assert (Hq : (n <? q)%nat = false) by (apply Nat.ltb_ge; lia).
    destruct rest; simpl; rewrite Hq; by rewrite app_nil_r.
  - assert (Hq : (n <? q)%nat = true) by (apply Nat.ltb_lt; lia).
    rewrite Hq, IH by lia. by rewrite <- app_assoc.
Qed.

Lemma receiveLoop_short {A} (q : nat) (rs : list A) : forall n acc rest,
  (n + length rs < q)%nat ->
  receiveLoop q n acc (map Received rs ++ TimedOut :: rest) = Timeout
  /\ receiveLoop q n acc (map Received rs) = Blocked (acc ++ rs).
Proof.
  induction rs as [| r rs IH]; intros n acc rest Hn; simpl in *.
  - assert (Hq : (n <? q)%nat = true) by (apply Nat.ltb_lt; lia).
    rewrite Hq. by rewrite app_nil_r.
  - assert (Hq : (n <? q)%nat = true) by (apply Nat.ltb_lt; lia).
    rewrite Hq. destruct (IH (S n) (acc ++ [r]) rest ltac:(lia)) as [-> ->].
    by rewrite <- app_assoc.
Qed.

Lemma half_odd_even (N : nat) :
  (1 <= N)%nat ->
  (Nat.Odd N -> ((N - 1) / 2 = N / 2)%nat) /\
  (Nat.Even N -> ((N - 1) / 2 + 1 = N / 2)%nat).
Proof.
  intros HN. split.
  - intros [k ->]. replace (2 * k + 1 - 1)%nat with (k * 2)%nat by lia.
    rewrite Nat.div_mul by lia.
    replace (2 * k + 1)%nat with (1 + k * 2)%nat by lia.
    rewrite Nat.div_add by lia. reflexivity.
  - intros [k ->]. destruct k as [| k]; [lia |].
    replace (2 * S k - 1)%nat with (1 + k * 2)%nat by lia.
    rewrite Nat.div_add by lia.
    replace (2 * S k)%nat with (S k * 2)%nat by lia.
    rewrite Nat.div_mul by lia. simpl. lia.
Qed.

(** The quorums of the three senders in a replica set of [N >= 1] nodes,
    [N - 1] of them remote. The pre-accept and the accept sender await
    ⌊N/2⌋ + 1 responses, the local replica counted as one; the prepare
    sender awaits ⌊(N-1)/2⌋ + 1, which is the same number for odd [N] and
    one less for even [N]. A sender succeeds as soon as that many responses
    are gathered, and times out or keeps waiting below it. For N = 3, 5 and
    1 all three quorums are 2, 3 and 1, and for N = 1 no remote response is
    awaited. *)
Lemma quorum_of_each_phase (N : nat) :
  (1 <= N)%nat ->
  preAcceptQuorumSize (remoteReplicas N) = majority N
  /\ acceptQuorumSize (remoteReplicas N) = majority N
  /\ prepareQuorumSize (remoteReplicas N) = ((N - 1) / 2 + 1)%nat
  /\ (Nat.Odd N -> prepareQuorumSize (remoteReplicas N) = majority N)
  /\ (Nat.Even N -> S (prepareQuorumSize (remoteReplicas N)) = majority N)
  /\ (forall (A : Type) (q : nat) (rs : list A) (rest : list (event A)),
        (S (length rs) = q ->
           awaitQuorum q (map Received rs ++ rest) = Quorum rs rest)
        /\ (S (length rs) < q ->
           awaitQuorum q (map Received rs ++ TimedOut :: rest) = Timeout
           /\ awaitQuorum q (map Received rs) = Blocked rs))%nat
  /\ (forall (A : Type) (events : list (event A)),
        awaitQuorum (majority 1) events = Quorum [] events
        /\ awaitQuorum (prepareQuorumSize (remoteReplicas 1)) events = Quorum [] events)
  /\ (map majority [3; 5; 1] = [2; 3; 1]
      /\ map (fun n => prepareQuorumSize (remoteReplicas n)) [3; 5; 1] = [2; 3; 1])%nat.
Proof.
  intros HN.
  destruct (half_odd_even N HN) as [Hodd Heven].
  unfold preAcceptQuorumSize, acceptQuorumSize, prepareQuorumSize, remoteReplicas, majority.
  replace (N - 1 + 1)%nat with N by lia.
  repeat split; try reflexivity.
  - intros H. by rewrite Hodd.
  - intros H. specialize (Heven H). lia.
  - intros Hq. apply (receiveLoop_quorum q rs 1 [] rest). lia.
  - apply (receiveLoop_short q rs 1 [] rest). lia.
  - apply (receiveLoop_short q rs 1 [] rest). lia.
  - by destruct events.
  - by destruct events.
Qed.

Lemma quorum_of_each_phase_witness :
  preAcceptQuorumSize (remoteReplicas 5) = 3%nat
  /\ prepareQuorumSize (remoteReplicas 5) = 3%nat
  /\ awaitQuorum (acceptQuorumSize (remoteReplicas 5))
       [Received 10; Received 11; Received 12] = Quorum [10; 11] [Received 12].
Proof.
  destruct (quorum_of_each_phase 5 ltac:(lia)) as (H1 & H2 & H3 & H4 & H5 & H6 & H7).
  split; [exact H1 |]. split; [exact H3 |].
  rewrite H2. exact (proj1 (H6 Z (majority 5) [10; 11] [Received 12]) eq_refl).
Defined.

(** C3, at a replica set of four nodes. The quorum is ⌊4/2⌋ + 1 = 3, and
    the pre-accept and the accept sender await it; the prepare sender is
    content with two responses, the local one and one remote. *)
Lemma prepare_quorum_of_four :
  prepareQuorumSize (remoteReplicas 4) = 2%nat
  /\ majority 4 = 3%nat
  /\ preAcceptQuorumSize (remoteReplicas 4) = 3%nat
  /\ acceptQuorumSize (remoteReplicas 4) = 3%nat
  /\ awaitQuorum (acceptQuorumSize (remoteReplicas 4)) [Received 7; TimedOut] = Timeout
  /\ sendPrepareReceive (remoteReplicas 4) [Received 7; TimedOut]
     = Quorum [7] [TimedOut].
Proof. repeat split. Qed.

(** ** [analyzePrepareResponses] *)

Lemma responseInstances_cons r rs :
  responseInstances (r :: rs)
  = match prInstance r with
    | Some i => i :: responseInstances rs
    | None => responseInstances rs
    end.
Proof. unfold responseInstances. simpl. by destruct (prInstance r). Qed.

(** The first loop, from any intermediate state. *)
Lemma highestBallot_fold rs : forall seen mb,
  let r := fold_left
    (fun (acc : bool * Z) response =>
       match prInstance response with
       | Some instance =>
           (true, if MaxBallot instance >? snd acc then MaxBallot instance else snd acc)
       | None => acc
       end) rs (seen, mb) in
  (fst r = seen || existsb (fun x => bool_decide (is_Some (prInstance x))) rs)
  /\ mb <= snd r
  /\ (forall i, In i (responseInstances rs) -> MaxBallot i <= snd r)
  /\ (snd r = mb \/ exists i, In i (responseInstances rs) /\ MaxBallot i = snd r).
Proof.
  induction rs as [| r rs IH]; intros seen mb; simpl.
  { repeat split; [by rewrite orb_false_r | lia | done | by left]. }
  rewrite responseInstances_cons.
  destruct (prInstance r) as [i|] eqn:Ei; simpl.
  - set (mb' := if MaxBallot i >? mb then MaxBallot i else mb).
    assert (Hmb' : mb <= mb' /\ MaxBallot i <= mb' /\ (mb' = mb \/ mb' = MaxBallot i)).
    { unfold mb'. destruct (MaxBallot i >? mb) eqn:Hc; zbool; lia. }
    destruct (IH true mb') as (H1 & H2 & H3 & H4).
    repeat split.
    + rewrite H1. simpl. by rewrite orb_true_r.
    + lia.
    + intros j [<- | Hj]; [lia | by apply H3].
    + destruct H4 as [H4 | (j & Hj & Hjb)].
      * destruct Hmb' as (_ & _ & [Hm | Hm]); [left; lia | right; exists i; split; [by left | lia]].
      * right. exists j. split; [by right | done].
  - destruct (IH seen mb) as (H1 & H2 & H3 & H4).
    repeat split; done.
Qed.

Lemma existsb_none_iff rs :
  existsb (fun x => bool_decide (is_Some (prInstance x))) rs = false
  <-> responseInstances rs = [].
Proof.
  induction rs as [| r rs IH]; simpl; [done |].
  rewrite responseInstances_cons, orb_false_iff, IH.
  destruct (prInstance r) as [i|]; simpl.
  - split; [by intros [? _] | done].
  - tauto.
Qed.

(** The second loop, from any intermediate state. *)
Lemma highestStatus_fold maxBallot rs : forall ms inst,
  let r := fold_left
    (fun (acc : Z * option Instance) response =>
       match prInstance response with
       | None => acc
       | Some instance =>
           if MaxBallot instance <? maxBallot then acc
           else if Status instance >? fst acc then (Status instance, Some instance)
           else acc
       end) rs (ms, inst) in
  ms <= fst r
  /\ (forall i, In i (responseInstances rs) -> maxBallot <= MaxBallot i -> Status i <= fst r)
  /\ (r = (ms, inst)
      \/ exists i, snd r = Some i /\ In i (responseInstances rs)
                   /\ maxBallot <= MaxBallot i /\ Status i = fst r /\ ms < fst r).
Proof.
  induction rs as [| r rs IH]; intros ms inst; simpl.
  { repeat split; [lia | done | by left]. }
  rewrite responseInstances_cons.
  destruct (prInstance r) as [i|] eqn:Ei; simpl.
  2: { apply IH. }
  destruct (MaxBallot i <? maxBallot) eqn:Hb; zbool.
  { destruct (IH ms inst) as (H1 & H2 & H3). repeat split; [done | |].
    - intros j [<- | Hj] Hjb; [lia | by apply H2].
    - destruct H3 as [H3 | (j & ? & ? & ?)]; [by left | right; exists j; simpl; tauto]. }
  destruct (Status i >? ms) eqn:Hs; zbool.
  - destruct (IH (Status i) (Some i)) as (H1 & H2 & H3). repeat split; [lia | |].
    + intros j [<- | Hj] Hjb; [lia | by apply H2].
    + right. destruct H3 as [-> | (j & Hj1 & Hj2 & Hj3 & Hj4 & Hj5)].
      * exists i. simpl. repeat split; try done; try (by left); lia.
      * exists j. repeat split; try done; try (by right); lia.
  - destruct (IH ms inst) as (H1 & H2 & H3). repeat split; [done | |].
    + intros j [<- | Hj] Hjb; [lia | by apply H2].
    + destruct H3 as [H3 | (j & ? & ? & ?)]; [by left | right; exists j; simpl; tauto].
Qed.

Lemma analyzePrepareResponses_none responses :
  responseInstances responses = [] -> analyzePrepareResponses responses = None.
Proof.
  intros Hnil. unfold analyzePrepareResponses, highestBallot.
  pose proof (highestBallot_fold responses false 0) as Hb. cbv zeta in Hb.
  destruct (fold_left _ responses (false, 0)) as [seen maxBallot].
  simpl in Hb. destruct Hb as (Hseen & _).
  apply existsb_none_iff in Hnil. rewrite Hnil in Hseen. by rewrite Hseen.
Qed.

(** C7. For a non-empty list of prepare responses whose instances are
    valid, [analyzePrepareResponses] returns [nil] when every response
    carries a [nil] instance; otherwise it returns one of the response
    instances, whose ballot is the highest among the response instances
    and whose status is the highest among the instances of that ballot. *)
Theorem analyzePrepareResponses_picks_highest (responses : list PrepareResponse) :
  responses <> [] ->
  Forall validInstance (responseInstances responses) ->
  (responseInstances responses = [] -> analyzePrepareResponses responses = None)
  /\ (responseInstances responses <> [] ->
      exists instance,
        analyzePrepareResponses responses = Some instance
        /\ In instance (responseInstances responses)
        /\ (forall i, In i (responseInstances responses) ->
              MaxBallot i <= MaxBallot instance)
        /\ (forall i, In i (responseInstances responses) ->
              MaxBallot i = MaxBallot instance -> Status i <= Status instance)).
Proof.
  intros _ Hvalid. unfold analyzePrepareResponses, highestBallot, highestStatus.
  pose proof (highestBallot_fold responses false 0) as Hb. cbv zeta in Hb.
  destruct (fold_left _ responses (false, 0)) as [seen maxBallot] eqn:Efold.
  simpl in Hb. destruct Hb as (Hseen & Hmb0 & Hmax & Hatt).
  split.
  - intros Hnil. apply existsb_none_iff in Hnil. rewrite Hnil in Hseen.
    by rewrite Hseen.
  - intros Hne.
    assert (Hs : seen = true).
    { rewrite Hseen. destruct (existsb _ responses) eqn:Hf; [done |].
      by apply existsb_none_iff in Hf. }
    rewrite Hs. simpl.
    assert (Hattained : exists i, In i (responseInstances responses) /\ MaxBallot i = maxBallot).
    { destruct Hatt as [-> | Hatt]; [| done].
      destruct (responseInstances responses) as [| i l] eqn:El; [done |].
      exists i. split; [by left |].
      apply Forall_cons in Hvalid as [[Hi _] _].
      specialize (Hmax i (or_introl eq_refl)). lia. }
    destruct Hattained as (w & Hw & Hwb).
    pose proof (highestStatus_fold maxBallot responses 0 None) as Hst. cbv zeta in Hst.
    destruct (fold_left _ responses (0, None)) as [maxStatus found] eqn:Efold2.
    simpl in Hst. destruct Hst as (Hms0 & Hall & Hsel).
    destruct Hsel as [[= -> ->] | (i & Hi1 & Hi2 & Hi3 & Hi4 & Hi5)].
    + exfalso. specialize (Hall w Hw ltac:(lia)).
      rewrite Forall_forall in Hvalid. destruct (Hvalid w) as [_ Hv].
      { by apply list_elem_of_In. }
      unfold INSTANCE_PREACCEPTED in Hv. lia.
    + simpl in Hi1. subst found. exists i. repeat split; [done | |].
      * intros j Hj. specialize (Hmax j Hj). lia.
      * intros j Hj Hjb. rewrite Hi4. apply Hall; [done |]. lia.
Qed.

Lemma analyzePrepareResponses_picks_highest_witness :
  exists instance,
    analyzePrepareResponses
      [mkPrepareResponse true None;
       mkPrepareResponse true (Some (sampleInstance 1 INSTANCE_ACCEPTED 2));
       mkPrepareResponse true (Some (sampleInstance 1 INSTANCE_COMMITTED 1));
       mkPrepareResponse false (Some (sampleInstance 1 INSTANCE_PREACCEPTED 2))]
    = Some instance
    /\ MaxBallot instance = 2 /\ Status instance = INSTANCE_ACCEPTED.
Proof.
  destruct (analyzePrepareResponses_picks_highest
    [mkPrepareResponse true None;
     mkPrepareResponse true (Some (sampleInstance 1 INSTANCE_ACCEPTED 2));
     mkPrepareResponse true (Some (sampleInstance 1 INSTANCE_COMMITTED 1));
     mkPrepareResponse false (Some (sampleInstance 1 INSTANCE_PREACCEPTED 2))])
    as [_ H].
  - discriminate.
  - repeat constructor; vm_compute; congruence.
  - destruct H as (instance & Hi & _); [discriminate |].
    exists instance. split; [exact Hi |].
    vm_compute in Hi. injection Hi as <-. split; reflexivity.
Defined.

(** ** [managerPrepareApply] on responses without an instance *)

Lemma checkLoop_fold responses : forall acc : bool * Z * Z,
  Forall unknownInstanceResponse responses ->
  fst (fst acc) = true ->
  fold_left
    (fun (acc : bool * Z * Z) response =>
       let '(accepted, maxBallot, maxStatus) := acc in
       let '(maxBallot, maxStatus) :=
         match prInstance response with
         | Some instance =>
             (if MaxBallot instance >? maxBallot then MaxBallot instance else maxBallot,
              if Status instance >? maxStatus then Status instance else maxStatus)
         | None => (maxBallot, maxStatus)
         end in
       (accepted && prAccepted response, maxBallot, maxStatus))
    responses acc = acc.
Proof.
  induction responses as [| r rs IH]; intros [[a b] c] Hall Ha; simpl in *; [done |].
  apply Forall_cons in Hall as [[Hi Hacc] Hall]. subst a.
  rewrite Hi, Hacc. simpl. by apply IH.
Qed.

Lemma checkLoop_unknown responses :
  Forall unknownInstanceResponse responses -> checkLoop responses = (true, 0, 0).
Proof. intros H. unfold checkLoop. by apply checkLoop_fold. Qed.

Lemma responseInstances_unknown responses :
  Forall unknownInstanceResponse responses -> responseInstances responses = [].
Proof.
  induction 1 as [| r rs [Hi _] _ IH]; [done |].
  by rewrite responseInstances_cons, Hi.
Qed.

Lemma mutateLocal_same f s instance :
  (forall i, instances s !! IID instance = Some i -> f i = i) ->
  mutateLocal f s instance = s.
Proof.
  intros H. unfold mutateLocal. destruct s as [m ip cm ex ms]. simpl in *.
  f_equal. apply map_eq. intros k. rewrite lookup_alter.
  case_decide as Hk; [| done]. subst k.
  destruct (m !! IID instance) as [i|] eqn:E; simpl; [| done].
  by rewrite (H i).
Qed.

Lemma updateBallot_zero i : 0 <= MaxBallot i -> fst (updateBallot i 0) = i.
Proof.
  intros H. unfold updateBallot.
  assert (Hb : (MaxBallot i <? 0) = false) by (apply Z.ltb_ge; lia).
  by rewrite Hb.
Qed.

Lemma check_unknown s instance responses :
  Forall unknownInstanceResponse responses ->
  0 <= MaxBallot (localInstance s instance) ->
  managerPrepareCheckResponses s instance responses = (s, None).
Proof.
  intros Hall Hb. unfold managerPrepareCheckResponses.
  rewrite (checkLoop_unknown responses Hall). simpl.
  rewrite mutateLocal_same; [done |].
  intros i Hi. apply updateBallot_zero.
  unfold localInstance in Hb. by rewrite Hi in Hb.
Qed.

(** C8, as amended. When every response to a prepare is the reply of a
    replica that does not know the instance (accepted, no instance) and the
    local instance is at most pre-accepted, [managerPrepareApply] marks the
    local instance noop and runs the pre-accept phase on it, then the
    accept phase on the local instance if the pre-accept phase reports
    that an accept is required, then the commit phase on the local
    instance, and stops at the first phase that fails. *)
Theorem prepare_apply_noop_recovery
    (preAcceptPhase : Scope -> Instance -> Scope * result bool)
    (acceptPhase commitPhase : Scope -> Instance -> Scope * option error)
    (s : Scope) (instance : Instance) (responses : list PrepareResponse) :
  Forall unknownInstanceResponse responses ->
  0 <= MaxBallot (localInstance s instance) ->
  Status (localInstance s instance) <= INSTANCE_PREACCEPTED ->
  managerPrepareApply preAcceptPhase acceptPhase commitPhase s instance responses
  = noopRecovery preAcceptPhase acceptPhase commitPhase s instance
  /\ (is_Some (instances s !! IID instance) ->
      Noop (localInstance (mutateLocal (setNoopFlag true) s instance) instance) = true).
Proof.
  intros Hall Hb Hst. split.
  - unfold managerPrepareApply. rewrite (check_unknown s instance responses Hall Hb).
    rewrite (analyzePrepareResponses_none responses (responseInstances_unknown responses Hall)).
    assert (Hle : (Status (localInstance s instance) <=? INSTANCE_PREACCEPTED) = true)
      by (apply Z.leb_le; lia).
    rewrite Hle. cbn [Z.eqb INSTANCE_PREACCEPTED Pos.eqb].
    unfold applyPreAccept, noopRecovery, applyAccept, applyCommit.
    destruct (preAcceptPhase _ _) as [s2 [acceptRequired | e]]; [| done].
    by destruct acceptRequired.
  - intros [i Hi]. unfold localInstance, mutateLocal. simpl.
    rewrite lookup_alter. rewrite decide_True by done. by rewrite Hi.
Qed.

Lemma prepare_apply_noop_recovery_witness :
  managerPrepareApply slowPreAccept localAccept localCommit
    unknownScope unknownInstance unknownResponses
  = noopRecovery slowPreAccept localAccept localCommit unknownScope unknownInstance
  /\ (fst (managerPrepareApply slowPreAccept localAccept localCommit
             unknownScope unknownInstance unknownResponses)).(instances) !! 1%N
     = Some (mkInstance 1 0 [] [] [] 1 INSTANCE_COMMITTED 3 true false false).
Proof.
  split.
  - apply (prepare_apply_noop_recovery slowPreAccept localAccept localCommit
             unknownScope unknownInstance unknownResponses).
    + repeat constructor.
    + vm_compute. congruence.
    + vm_compute. congruence.
  - vm_compute. reflexivity.
Defined.

(** C8, as stated, at a pre-accept phase that reports that no accept is
    required: the accept phase, which would fail here, is not run, and the
    instance is committed. *)
Lemma prepare_apply_skips_accept :
  Forall unknownInstanceResponse unknownResponses
  /\ Status (localInstance unknownScope unknownInstance) <= INSTANCE_PREACCEPTED
  /\ snd (managerPrepareApply fastPreAccept rejectedAccept localCommit
            unknownScope unknownInstance unknownResponses) = None
  /\ snd (noopRecoveryAllPhases fastPreAccept rejectedAccept localCommit
            unknownScope unknownInstance) = Some BallotError.
Proof.
  split; [repeat constructor |].
  split; [vm_compute; congruence |].
  split; vm_compute; reflexivity.
Qed.

(** ** [mergePreAcceptAttributes] *)

Lemma merge_fold responses : forall deps seq deps' seq',
  fold_left mergeAttributes responses (deps, seq) = (deps', seq') ->
  (forall d, d ∈ deps' <->
     d ∈ deps \/ exists response, In response responses
                   /\ In d (Dependencies (paInstance response)))
  /\ seq <= seq'
  /\ (forall response, In response responses -> Sequence (paInstance response) <= seq')
  /\ (seq' = seq \/ exists response, In response responses
                        /\ seq' = Sequence (paInstance response)).
Proof.
  induction responses as [| r rs IH]; intros deps seq deps' seq' Heq; simpl in Heq.
  { injection Heq as <- <-. repeat split; [tauto | | lia | done | by left].
    intros [H | (? & [] & _)]; done. }
  change (fold_left mergeAttributes rs
            (deps ∪ NewInstanceIDSet (Dependencies (paInstance r)),
             Z.max seq (Sequence (paInstance r))) = (deps', seq')) in Heq.
  apply IH in Heq as (H1 & H2 & H3 & H4).
  pose proof (Z.le_max_l seq (Sequence (paInstance r))) as Hl.
  pose proof (Z.le_max_r seq (Sequence (paInstance r))) as Hr.
  repeat split.
  - intros Hd. apply H1 in Hd. destruct Hd as [Hd | (x & Hx & Hdx)].
    + apply elem_of_union in Hd as [Hd | Hd]; [by left |].
      right. exists r. split; [by left |].
      unfold NewInstanceIDSet in Hd. rewrite elem_of_list_to_set in Hd.
      by apply list_elem_of_In.
    + right. exists x. split; [by right | done].
  - intros [Hd | (x & [<- | Hx] & Hdx)]; apply H1.
    + left. by apply elem_of_union_l.
    + left. apply elem_of_union_r. unfold NewInstanceIDSet.
      rewrite elem_of_list_to_set. by apply list_elem_of_In.
    + right. by exists x.
  - lia.
  - intros x [<- | Hx]; [lia | by apply H3].
  - destruct H4 as [H4 | (x & Hx & Hsx)].
    + destruct (Z.max_spec seq (Sequence (paInstance r))) as [[_ Hm] | [_ Hm]].
      * right. exists r. split; [by left | lia].
      * left. lia.
    + right. exists x. split; [by right | done].
Qed.

(** C6. Merging the pre-accept responses sets the dependencies of the
    coordinator's instance to the union of its own with all the returned
    ones and its sequence to the maximum of its own and all the returned
    ones, and reports changes exactly when the merged dependencies, as a
    set, or the merged sequence differ from what the instance had. *)
Theorem mergePreAcceptAttributes_union_max (instance : Instance)
    (responses : list PreAcceptResponse) :
  let merged := fst (mergePreAcceptAttributes instance responses) in
  let changes := snd (mergePreAcceptAttributes instance responses) in
  (forall d, In d (Dependencies merged) <->
     In d (Dependencies instance)
     \/ exists response, In response responses
          /\ In d (Dependencies (paInstance response)))
  /\ NoDup (Dependencies merged)
  /\ Sequence instance <= Sequence merged
  /\ (forall response, In response responses ->
        Sequence (paInstance response) <= Sequence merged)
  /\ (Sequence merged = Sequence instance
      \/ exists response, In response responses
           /\ Sequence merged = Sequence (paInstance response))
  /\ (changes = true <->
        NewInstanceIDSet (Dependencies merged) <> NewInstanceIDSet (Dependencies instance)
        \/ Sequence merged <> Sequence instance).
Proof.
  unfold mergePreAcceptAttributes.
  destruct (fold_left mergeAttributes responses _) as [deps seq] eqn:Hf. simpl.
  apply merge_fold in Hf as (H1 & H2 & H3 & H4).
  assert (Hset : NewInstanceIDSet (elements deps) = deps).
  { unfold NewInstanceIDSet. apply set_eq. intros x.
    by rewrite elem_of_list_to_set, elem_of_elements. }
  repeat split; try done.
  - intros Hd. apply list_elem_of_In, elem_of_elements, H1 in Hd.
    destruct Hd as [Hd | Hd]; [left | by right].
    unfold NewInstanceIDSet in Hd. rewrite elem_of_list_to_set in Hd.
    by apply list_elem_of_In.
  - intros Hd. apply list_elem_of_In, elem_of_elements, H1.
    destruct Hd as [Hd | Hd]; [left | by right].
    unfold NewInstanceIDSet. rewrite elem_of_list_to_set. by apply list_elem_of_In.
  - apply NoDup_elements.
  - rewrite Hset, orb_true_iff, !negb_true_iff. intros [Hc | Hc].
    + left. by apply bool_decide_eq_false in Hc.
    + right. by apply Z.eqb_neq in Hc.
  - rewrite Hset, orb_true_iff, !negb_true_iff. intros [Hc | Hc].
    + left. by apply bool_decide_eq_false.
    + right. by apply Z.eqb_neq.
Qed.

(** TestMergePreAcceptAttributes and TestMergePreAcceptAttributesNoChanges. *)
Example merge_changes :
  let r := mergePreAcceptAttributes mergeLocal [mkPreAcceptResponse true 0 mergeRemote []] in
  snd r = true /\ Sequence (fst r) = 4 /\ length (Dependencies (fst r)) = 5%nat.
Proof. vm_compute. repeat split. Qed.

Example merge_no_changes :
  let r := mergePreAcceptAttributes mergeLocal [mkPreAcceptResponse true 0 mergeLocal []] in
  snd r = false /\ Sequence (fst r) = 3 /\ length (Dependencies (fst r)) = 4%nat.
Proof. vm_compute. repeat split. Qed.

(** ** The dependency manager *)

Module DependencyManagerFacts.
Import DependencyManager.

Lemma relatedDeps_spec (m : gmap (list string) dependencies) key instance x :
  x ∈ relatedDeps m key instance <->
  exists other d, m !! other = Some d /\ related key other
                  /\ x ∈ getLocalDeps d instance.
Proof.
  unfold relatedDeps.
  apply (map_fold_weak_ind
    (fun (acc : gset InstanceID) (m : gmap (list string) dependencies) =>
       x ∈ acc <-> exists other d, m !! other = Some d /\ related key other
                                   /\ x ∈ getLocalDeps d instance)).
  - split; [by rewrite elem_of_empty |]. intros (other & d & H & _). by rewrite lookup_empty in H.
  - intros other d m' acc Hnone IH. split.
    + intros Hx. destruct (decide (related key other)) as [Hrel | Hrel].
      * apply elem_of_union in Hx as [Hx | Hx].
        -- exists other, d. by rewrite lookup_insert_eq.
        -- apply IH in Hx as (o & d' & Ho & Hr & Hin). exists o, d'.
           rewrite lookup_insert_ne; [done | congruence].
      * apply IH in Hx as (o & d' & Ho & Hr & Hin). exists o, d'.
        rewrite lookup_insert_ne; [done | congruence].
    + intros (o & d' & Ho & Hr & Hin). rewrite lookup_insert in Ho.
      case_decide as Hk.
      * injection Ho as <-. subst o. rewrite decide_True by done.
        by apply elem_of_union_l.
      * assert (x ∈ acc) by (apply IH; eauto).
        case_decide; [by apply elem_of_union_r | done].
Qed.


Lemma getLocalDeps_spec d instance x :
  x ∈ getLocalDeps d instance <->
  x ∈ writes d \/ (ReadOnly instance = false /\ x ∈ reads d).
Proof.
  unfold getLocalDeps. destruct (ReadOnly instance).
  - split; [by left | by intros [? | [? _]]].
  - rewrite elem_of_union. tauto.
Qed.

(** C4. For a write the dependencies [GetAndSetDeps] returns are the
    writes and the reads of the instance's key, of its ancestors and of its
    descendants; for a read they are the writes of these keys; in both
    cases without the instance's own id, which is never returned. *)
Theorem GetAndSetDeps_related_keys (m : gmap (list string) dependencies)
    (instance : Instance) :
  let deps := snd (GetAndSetDeps m instance) in
  (forall x, x ∈ deps <->
     x <> IID instance /\
     exists other d, m !! other = Some d
       /\ (other `prefix_of` instanceKey instance
           \/ instanceKey instance `prefix_of` other)
       /\ (x ∈ writes d \/ (ReadOnly instance = false /\ x ∈ reads d)))
  /\ IID instance ∉ deps.
Proof.
  unfold GetAndSetDeps, getAndSetDepsAt. simpl. split.
  - intros x. rewrite elem_of_difference, elem_of_singleton, relatedDeps_spec.
    split.
    + intros [(other & d & Ho & Hr & Hx) Hne]. split; [done |].
      exists other, d. by rewrite <- getLocalDeps_spec.
    + intros [Hne (other & d & Ho & Hr & Hx)]. split; [| done].
      exists other, d. by rewrite getLocalDeps_spec.
  - rewrite elem_of_difference, elem_of_singleton. tauto.
Qed.

(** TestIntegration: a read of [a:b] depends on the writes of [a], [a:b],
    [a:b:c] and [a:b:c:d], a write of [a:b] on their reads too and on the
    read just registered; the sibling [a:b1] contributes to neither. *)
Example integration_read_then_write :
  let (m, readDeps) := GetAndSetDeps integrationManager (instanceOn 11 "a:b" true) in
  let writeDeps := snd (GetAndSetDeps m (instanceOn 12 "a:b" false)) in
  readDeps = list_to_set [1; 3; 5; 7]%N
  /\ writeDeps = list_to_set [1; 2; 3; 4; 5; 6; 7; 8; 11]%N.
Proof. vm_compute. split; reflexivity. Qed.

(** TestSingleKeyIntegration: the write 0, acknowledged and executed, is
    still a dependency of the write 3, whose registration removes it, and
    no longer one of the write 4. *)
Example single_key_integration :
  snd singleKeySteps
  = [∅; list_to_set [0]; list_to_set [0; 1]; list_to_set [0; 1; 2];
     list_to_set [1; 2; 3]]%N.
Proof. vm_compute. reflexivity. Qed.

Lemma prune_spec d x :
  (x ∈ writes (prune d) <-> x ∈ writes d /\ ~ (x ∈ acknowledged d /\ x ∈ executed d))
  /\ (x ∈ reads (prune d) <-> x ∈ reads d /\ ~ (x ∈ acknowledged d /\ x ∈ executed d)).
Proof.
  unfold prune. simpl. rewrite !elem_of_difference, elem_of_intersection. tauto.
Qed.

Lemma register_spec instance d x :
  x <> IID instance ->
  (x ∈ writes (register instance d) <-> x ∈ writes d)
  /\ (x ∈ reads (register instance d) <-> x ∈ reads d).
Proof.
  intros Hne. unfold register.
  destruct (ReadOnly instance); simpl; rewrite elem_of_union, elem_of_singleton; tauto.
Qed.

(** C5, as amended. Of the ids other than the new instance's own that the
    key's live sets hold, registration removes exactly those that are both
    acknowledged and executed; every id held in the writes is among the
    dependencies computed, and every id held in the reads is when the new
    instance is a write. *)
Theorem registration_prunes_executed_and_acknowledged
    (m : gmap (list string) dependencies) (instance : Instance) (x : InstanceID) :
  x <> IID instance ->
  let key := instanceKey instance in
  let before := depsOf m key in
  let after := depsOf (fst (GetAndSetDeps m instance)) key in
  let deps := snd (GetAndSetDeps m instance) in
  (x ∈ writes before ->
     (x ∈ writes after <-> ~ (x ∈ acknowledged before /\ x ∈ executed before))
     /\ x ∈ deps)
  /\ (x ∈ reads before ->
     (x ∈ reads after <-> ~ (x ∈ acknowledged before /\ x ∈ executed before))
     /\ (ReadOnly instance = false -> x ∈ deps)).
Proof.
  intros Hne. unfold GetAndSetDeps, getAndSetDepsAt, depsOf. simpl.
  rewrite lookup_insert_eq. simpl.
  set (key := instanceKey instance).
  set (before := default newDependencies (m !! key)).
  destruct (register_spec instance (prune before) x Hne) as [Hw Hr].
  destruct (prune_spec before x) as [Hpw Hpr].
  assert (Hdeps : x ∈ getLocalDeps before instance ->
                  x ∈ relatedDeps m key instance ∖ {[IID instance]}).
  { intros Hx. rewrite elem_of_difference, elem_of_singleton. split; [| done].
    apply relatedDeps_spec. subst before.
    destruct (m !! key) as [d|] eqn:E; simpl in Hx.
    - exists key, d. split; [done |]. split; [by left | done].
    - apply getLocalDeps_spec in Hx. simpl in Hx.
      destruct Hx as [Hx | [_ Hx]]; by rewrite elem_of_empty in Hx. }
  split.
  - intros Hx. split; [rewrite Hw, Hpw; tauto |].
    apply Hdeps, getLocalDeps_spec. by left.
  - intros Hx. split; [rewrite Hr, Hpr; tauto |].
    intros Hro. apply Hdeps, getLocalDeps_spec. by right.
Qed.

Lemma registration_prunes_executed_and_acknowledged_witness :
  let m : gmap (list string) dependencies :=
    {[ ["a"] := mkDependencies (list_to_set [1; 2; 3]%N) ∅
                  (list_to_set [2; 3]%N) (list_to_set [1; 3]%N) ]} in
  let r := GetAndSetDeps m (instanceOn 4 "a" false) in
  (1%N ∈ writes (depsOf (fst r) ["a"]) /\ 1%N ∈ snd r)
  /\ ((3%N ∉ writes (depsOf (fst r) ["a"])) /\ 3%N ∈ snd r).
Proof.
  cbv zeta. split.
  - destruct (registration_prunes_executed_and_acknowledged
      {[ ["a"] := mkDependencies (list_to_set [1; 2; 3]%N) ∅
                    (list_to_set [2; 3]%N) (list_to_set [1; 3]%N) ]}
      (instanceOn 4 "a" false) 1%N ltac:(discriminate)) as [[Hw Hd] _].
    + vm_compute. reflexivity.
    + split; [| exact Hd]. apply Hw. intros [Ha _]. vm_compute in Ha. discriminate.
  - destruct (registration_prunes_executed_and_acknowledged
      {[ ["a"] := mkDependencies (list_to_set [1; 2; 3]%N) ∅
                    (list_to_set [2; 3]%N) (list_to_set [1; 3]%N) ]}
      (instanceOn 4 "a" false) 3%N ltac:(discriminate)) as [[Hw Hd] _].
    + vm_compute. reflexivity.
    + split; [| exact Hd]. intros Hin. apply Hw in Hin. apply Hin.
      split; vm_compute; reflexivity.
Defined.

(** C5, as stated, at a read: an id held in the reads of the key and only
    acknowledged stays in the reads, and is not among the dependencies of
    the read that is registered (as in TestLocalReadDeps). *)
Lemma read_does_not_depend_on_reads :
  let m : gmap (list string) dependencies :=
    {[ ["a"] := mkDependencies ∅ {[7%N]} {[7%N]} ∅ ]} in
  let r := GetAndSetDeps m (instanceOn 8 "a" true) in
  7%N ∈ reads (depsOf m ["a"])
  /\ 7%N ∈ acknowledged (depsOf m ["a"])
  /\ (7%N ∉ executed (depsOf m ["a"]))
  /\ 7%N ∈ reads (depsOf (fst r) ["a"])
  /\ (7%N ∉ snd r).
Proof.
  cbv zeta. repeat split; try (vm_compute; reflexivity);
    intros H; vm_compute in H; discriminate.
Qed.

End DependencyManagerFacts.

(** ** The execution order *)

#[local] Set Warnings "-clear-no-such-hyp".









Lemma dependency_in_universe s root x d :
  In d (dependenciesOf s x) -> d ∈ universe s root.
Proof.
  unfold dependenciesOf, universe. intros Hd.
  destruct (instances s !! x) as [i|] eqn:E; [| done].
  apply elem_of_union_r. revert x i E Hd.
  apply (map_fold_weak_ind
    (fun (acc : gset InstanceID) (m : gmap InstanceID Instance) =>
       forall x i, m !! x = Some i -> In d (Dependencies i) -> d ∈ acc)).
  - intros x i H. by rewrite lookup_empty in H.
  - intros k v m acc Hnone IH x i Hx Hd. rewrite lookup_insert in Hx.
    case_decide.
    + injection Hx as ->. apply elem_of_union_l, elem_of_list_to_set.
      by apply list_elem_of_In.
    + apply elem_of_union_r. by eapply IH.
Qed.









(** *** Instances that wait for each other *)



Lemma executed_set s d :
  d ∈ (list_to_set (executed s) : gset InstanceID) <-> In d (executed s).
Proof. by rewrite elem_of_list_to_set, list_elem_of_In. Qed.

Lemma pending_source s V a b : pending s V a b -> a ∉ V.
Proof. by destruct 1. Qed.



Lemma pending_universe s V root x : pending s V root x -> x ∈ universe s root.
Proof.
  induction 1 as [a Ha | a d b Ha Hd _ IH].
  - unfold universe. set_solver.
  - pose proof (dependency_in_universe s a a d Hd) as HdU.
    unfold universe in *. set_solver.
Qed.




Lemma interdependent_pending s a b : interdependent s a b -> ~ In a (executed s).
Proof. intros [H _]. apply pending_source in H. by rewrite executed_set in H. Qed.








(** *** Sorted lists *)




(** *** The traversal by levels *)






(** *** Where no two instances wait for each other *)










(** ** The accept sender *)

Lemma receiveLoop_quorum_inv {A} (q : nat) : forall (events : list (event A)) n acc rs rest,
  (n <= q)%nat ->
  receiveLoop q n acc events = Quorum rs rest ->
  exists new, events = map Received new ++ rest /\ rs = acc ++ new
              /\ (n + length new = q)%nat.
Proof.
  induction events as [| ev events IH]; intros n acc rs rest Hn H; simpl in H.
  - destruct (n <? q)%nat eqn:Hq; [done |]. apply Nat.ltb_ge in Hq.
    injection H as <- <-. exists []. simpl. rewrite app_nil_r. split; [done |]. split; [done | lia].
  - destruct (n <? q)%nat eqn:Hq.
    + apply Nat.ltb_lt in Hq. destruct ev as [r |]; [| done].
      apply IH in H; [| lia]. destruct H as (new & -> & -> & Hlen).
      exists (r :: new). simpl. rewrite <- app_assoc. simpl.
      split; [done |]. split; [done | lia].
    + apply Nat.ltb_ge in Hq. injection H as <- <-.
      exists []. simpl. rewrite app_nil_r. split; [done |]. split; [done | lia].
Qed.

Lemma accepted_fold (responses : list AcceptResponse) : forall acc,
  fold_left (fun accepted response => accepted && arAccepted response) responses acc
  = acc && forallb arAccepted responses.
Proof.
  induction responses as [| r rs IH]; intros acc; simpl.
  - by rewrite andb_true_r.
  - rewrite IH. by rewrite andb_assoc.
Qed.

Lemma forallb_accepted (responses : list AcceptResponse) :
  (forallb arAccepted responses = true ->
     Forall (fun r => arAccepted r = true) responses)
  /\ (forallb arAccepted responses = false ->
     Exists (fun r => arAccepted r = false) responses).
Proof.
  induction responses as [| r rs [IHt IHf]]; simpl.
  - split; [constructor | done].
  - destruct (arAccepted r) eqn:Hr; simpl; split; intros H; try done.
    + constructor; [done | by apply IHt].
    + apply Exists_cons_tl. by apply IHf.
    + by apply Exists_cons_hd.
Qed.

Lemma Forall_ballots (P : Z -> Prop) (responses : list AcceptResponse) :
  Forall P (map arMaxBallot responses) -> Forall (fun r => P (arMaxBallot r)) responses.
Proof.
  induction responses as [| r rs IH]; simpl; intros H; [constructor |].
  inversion H; subst. constructor; [done | by apply IH].
Qed.

Lemma highest_fold (responses : list Z) : forall b,
  let m := fold_left (fun ballot response => if response >? ballot then response else ballot)
             responses b in
  b <= m /\ Forall (fun r => r <= m) responses.
Proof.
  induction responses as [| r rs IH]; intros b; simpl.
  - split; [lia | constructor].
  - destruct (IH (if r >? b then r else b)) as [Hle Hall].
    destruct (r >? b) eqn:Hrb; zbool; (split; [lia | constructor; [lia | done]]).
Qed.

Lemma updateInstanceBallotFromResponses_max instance responses :
  let i' := updateInstanceBallotFromResponses instance responses in
  i' = setMaxBallot (MaxBallot i') instance
  /\ MaxBallot instance <= MaxBallot i'
  /\ Forall (fun r => r <= MaxBallot i') responses.
Proof.
  unfold updateInstanceBallotFromResponses.
  destruct (highest_fold responses (MaxBallot instance)) as [Hle Hall].
  set (m := fold_left _ responses (MaxBallot instance)) in *.
  destruct (m >? MaxBallot instance) eqn:Hm; zbool; simpl.
  - repeat split; [lia | done].
  - assert (m = MaxBallot instance) as Hm' by lia. rewrite Hm' in Hall.
    repeat split; [by destruct instance | lia | done].
Qed.

(** X1. The accept sender reports success exactly when the events it is
    given begin with as many responses as the quorum lacks, one less than
    the quorum size, and all of these accept; what comes after them is not
    looked at, and the instance is left as it was. *)
Theorem sendAccept_succeeds_iff (instance i' : Instance) (replicas : nat)
    (events : list (event AcceptResponse)) :
  sendAccept instance replicas events = Some (i', None)
  <->
  i' = instance
  /\ exists responses rest,
       events = map Received responses ++ rest
       /\ S (length responses) = acceptQuorumSize replicas
       /\ Forall (fun r => arAccepted r = true) responses.
Proof.
  unfold sendAccept, awaitQuorum. split.
  - intros H.
    destruct (receiveLoop _ 1 [] events) as [rs rest | | rs] eqn:E; [| done | done].
    apply receiveLoop_quorum_inv in E; [| unfold acceptQuorumSize; lia].
    destruct E as (new & -> & -> & Hlen).
    simpl app in *. rewrite accepted_fold in H. simpl in *.
    destruct (forallb arAccepted new) eqn:Hall; simpl in H; [| done].
    injection H as <-. split; [done |].
    exists new, rest. split; [done |]. split; [lia |].
    by apply forallb_accepted.
  - intros (-> & responses & rest & -> & Hlen & Hall).
    rewrite (receiveLoop_quorum (acceptQuorumSize replicas) responses 1 [] rest) by lia.
    simpl app. rewrite accepted_fold. simpl.
    destruct (forallb arAccepted responses) eqn:Hf; [done |].
    apply forallb_accepted in Hf. exfalso. clear Hlen.
    induction Hall as [| r rs Hr Hall IH]; inversion Hf; subst; [congruence | auto].
Qed.

(** X2. When the accept sender fails, the instance it was given differs
    from the one it leaves in the ballot at most, and the ballot has not
    gone down. After a timeout the instance is untouched. After a
    rejection the ballot is not below the ballot of any response that was
    counted towards the quorum. *)
Theorem sendAccept_failure_raises_ballot (instance i' : Instance) (replicas : nat)
    (events : list (event AcceptResponse)) (e : error) :
  sendAccept instance replicas events = Some (i', Some e) ->
  i' = setMaxBallot (MaxBallot i') instance
  /\ MaxBallot instance <= MaxBallot i'
  /\ (e = TimeoutError /\ i' = instance
      \/ e = BallotError
         /\ exists responses rest,
              events = map Received responses ++ rest
              /\ S (length responses) = acceptQuorumSize replicas
              /\ Exists (fun r => arAccepted r = false) responses
              /\ Forall (fun r => arMaxBallot r <= MaxBallot i') responses).
Proof.
  unfold sendAccept, awaitQuorum. intros H.
  destruct (receiveLoop _ 1 [] events) as [rs rest | | rs] eqn:E; [| | done].
  - apply receiveLoop_quorum_inv in E; [| unfold acceptQuorumSize; lia].
    destruct E as (new & -> & -> & Hlen).
    simpl app in *. rewrite accepted_fold in H. simpl in H.
    destruct (forallb arAccepted new) eqn:Hall; simpl in H; [done |].
    injection H as <- <-.
    destruct (updateInstanceBallotFromResponses_max instance (map arMaxBallot new))
      as (Heq & Hle & Hmax).
    split; [done |]. split; [done |]. right. split; [done |].
    exists new, rest. split; [done |]. split; [lia |]. split.
    + by apply forallb_accepted.
    + by apply (Forall_ballots (fun b => b <= _)) in Hmax.
  - injection H as <- <-. split; [by destruct instance |]. split; [lia |]. by left.
Qed.

Lemma sendAccept_failure_raises_ballot_witness :
  sendAccept (sampleInstance 1 INSTANCE_ACCEPTED 3) 2
    [Received (mkAcceptResponse false 9); Received (mkAcceptResponse true 0)]
  = Some (sampleInstance 1 INSTANCE_ACCEPTED 9, Some BallotError)
  /\ 3 <= MaxBallot (sampleInstance 1 INSTANCE_ACCEPTED 9).
Proof.
  split; [reflexivity |].
  apply (sendAccept_failure_raises_ballot (sampleInstance 1 INSTANCE_ACCEPTED 3)
           (sampleInstance 1 INSTANCE_ACCEPTED 9) 2
           [Received (mkAcceptResponse false 9); Received (mkAcceptResponse true 0)]
           BallotError).
  reflexivity.
Defined.
(** ** Idempotence of the commit handler *)

Lemma adopt_again (st : Z) (x inst : Instance) :
  adopt (setStatus st (adopt x inst)) inst = setStatus st (adopt x inst).
Proof. by destruct x, inst. Qed.

Lemma adopt_fresh_again (st : Z) (inst : Instance) :
  adopt (setStatus st inst) inst = setStatus st inst.
Proof. by destruct inst. Qed.

Lemma setStatus_again (st : Z) (i : Instance) :
  setStatus st (setStatus st i) = setStatus st i.
Proof. by destruct i. Qed.

Lemma updateSeq_again (m seq : Z) : updateSeq (updateSeq m seq) seq = updateSeq m seq.
Proof.
  unfold updateSeq. destruct (m <? seq) eqn:H1.
  - by rewrite Z.ltb_irrefl.
  - by rewrite H1.
Qed.

Lemma commitStore_again (s : Scope) (i : Instance) :
  commitStore (commitStore s i false) i false = commitStore s i false.
Proof.
  unfold commitStore. simpl.
  rewrite insert_insert_eq, updateSeq_again.
  f_equal; set_solver.
Qed.

Lemma commitStore_setStatus (s : Scope) (i : Instance) :
  commitStore s (setStatus INSTANCE_COMMITTED i) false = commitStore s i false.
Proof. unfold commitStore. simpl. by rewrite setStatus_again. Qed.

(** X3. The commit handler is idempotent: a commit request handled twice
    leaves the scope the first handling left, and is answered alike. *)
Theorem HandleCommit_idempotent (s : Scope) (request : CommitRequest) :
  HandleCommit (fst (HandleCommit s request)) request = HandleCommit s request.
Proof.
  unfold HandleCommit, commitInstanceUnsafe.
  destruct (instances s !! IID (crInstance request)) as [existing |] eqn:E.
  - destruct (INSTANCE_COMMITTED <? Status existing) eqn:Hs; simpl.
    + by rewrite E, Hs.
    + destruct (decide (IID existing = IID (crInstance request))) as [Heq | Hne].
      * unfold commitStore at 1. simpl instances. simpl IID. rewrite Heq.
        rewrite lookup_insert_eq. simpl.
        rewrite adopt_again, commitStore_setStatus.
        fold (commitStore s (adopt existing (crInstance request)) false).
        by rewrite commitStore_again.
      * unfold commitStore at 1. simpl instances. simpl IID.
        rewrite lookup_insert_ne by done. rewrite E, Hs. simpl.
        fold (commitStore s (adopt existing (crInstance request)) false).
        by rewrite commitStore_again.
  - simpl. unfold commitStore at 1. simpl instances. simpl IID.
    rewrite lookup_insert_eq. simpl. rewrite adopt_fresh_again, commitStore_setStatus.
    fold (commitStore s (crInstance request) false).
    by rewrite commitStore_again.
Qed.

(** ** The containers agree with the statuses *)

Lemma consistent_store s k i' ip cm ex ms :
  consistent s -> IID i' = k ->
  (forall iid, iid ∈ ip ->
     iid = k /\ Status i' <= INSTANCE_ACCEPTED \/ iid <> k /\ iid ∈ inProgress s) ->
  (forall iid, iid ∈ cm ->
     iid = k /\ INSTANCE_COMMITTED <= Status i' \/ iid <> k /\ iid ∈ committed s) ->
  consistent (mkScope (<[k := i']> (instances s)) ip cm ex ms).
Proof.
  intros (Hwf & Hip & Hcm) Hk Hip' Hcm'. split; [by apply wfScope_store |].
  split; intros iid Hin; simpl in *.
  - destruct (Hip' iid Hin) as [[-> Hst] | [Hne Hold]].
    + exists i'. by rewrite lookup_insert_eq.
    + rewrite lookup_insert_ne by done. by apply Hip.
  - destruct (Hcm' iid Hin) as [[-> Hst] | [Hne Hold]].
    + exists i'. by rewrite lookup_insert_eq.
    + rewrite lookup_insert_ne by done. by apply Hcm.
Qed.

(** Storing an instance with the status it is stored with already keeps
    the agreement, whatever else of it changes. *)
Lemma consistent_restore s k x i' :
  consistent s -> instances s !! k = Some x -> IID i' = k -> Status i' = Status x ->
  consistent (mkScope (<[k := i']> (instances s))
                (inProgress s) (committed s) (executed s) (maxSeq s)).
Proof.
  intros Hc Hx Hk Hst. pose proof Hc as (Hwf & Hip & Hcm).
  apply consistent_store; [done | done | |]; intros iid Hin;
    (destruct (decide (iid = k)) as [-> | Hne]; [left | right; done]).
  - split; [done |]. destruct (Hip _ Hin) as (i & Hi & Hle). rewrite Hst. congruence.
  - split; [done |]. destruct (Hcm _ Hin) as (i & Hi & Hle). rewrite Hst. congruence.
Qed.

Lemma accept_consistent s inst :
  consistent s -> consistent (fst (ScopeAccept.acceptInstanceUnsafe s inst)).
Proof.
  intros Hc. pose proof Hc as (Hwf & Hip & Hcm). unfold_ops.
  destruct (instances s !! IID inst) as [existing |] eqn:E.
  - destruct (INSTANCE_ACCEPTED <? Status existing) eqn:Hs; simpl; [done |]. zbool.
    pose proof (Hwf _ _ E) as Hid.
    apply consistent_store; [done | done | |]; intros iid Hin; simpl.
    + destruct (decide (iid = IID existing)) as [-> | Hne].
      * left. split; [done |]. unfold INSTANCE_ACCEPTED. lia.
      * right. split; [done |]. set_solver.
    + destruct (decide (iid = IID existing)) as [-> | Hne]; [| by right].
      exfalso. destruct (Hcm _ Hin) as (i & Hi & Hle).
      rewrite Hid, E in Hi. injection Hi as <-.
      unfold INSTANCE_COMMITTED, INSTANCE_ACCEPTED in *. lia.
  - simpl. apply consistent_store; [done | done | |]; intros iid Hin; simpl.
    + destruct (decide (iid = IID inst)) as [-> | Hne].
      * left. split; [done |]. unfold INSTANCE_ACCEPTED. lia.
      * right. split; [done |]. set_solver.
    + destruct (decide (iid = IID inst)) as [-> | Hne]; [| by right].
      exfalso. destruct (Hcm _ Hin) as (i & Hi & Hle). congruence.
Qed.

Lemma commit_consistent s inst b :
  consistent s -> consistent (fst (commitInstanceUnsafe s inst b)).
Proof.
  intros Hc. pose proof Hc as (Hwf & Hip & Hcm).
  assert (Hstore : forall k i', IID i' = k -> Status i' = INSTANCE_COMMITTED ->
    consistent (mkScope (<[k := i']> (instances s)) (inProgress s ∖ {[k]})
                  ({[k]} ∪ committed s) (executed s)
                  (updateSeq (maxSeq s) (Sequence i')))).
  { intros k i' Hk Hst. apply consistent_store; [done | done | |]; intros iid Hin.
    - right. set_solver.
    - destruct (decide (iid = k)) as [-> | Hne].
      + left. split; [done | lia].
      + right. split; [done |]. set_solver. }
  unfold commitInstanceUnsafe, commitStore.
  destruct (instances s !! IID inst) as [existing |] eqn:E.
  - destruct (INSTANCE_COMMITTED <? Status existing) eqn:Hs; simpl; [done |].
    destruct b; by apply Hstore.
  - destruct b; by apply Hstore.
Qed.

Lemma preAccept_consistent s inst b :
  consistent s -> consistent (fst (preAcceptInstanceUnsafe s inst b)).
Proof.
  intros Hc. pose proof Hc as (Hwf & Hip & Hcm). unfold_ops.
  destruct (instances s !! IID inst) as [existing |] eqn:E.
  - destruct (INSTANCE_PREACCEPTED <? Status existing) eqn:Hs; simpl; [done |]. zbool.
    pose proof (Hwf _ _ E) as Hid.
    destruct b; simpl; (apply consistent_store; [done | done | |]); intros iid Hin; simpl;
      (destruct (decide (iid = IID existing)) as [-> | Hne];
       [| right; split; [done |]; set_solver]).
    all: try (left; split; [done |]; unfold INSTANCE_PREACCEPTED, INSTANCE_ACCEPTED; lia).
    all: exfalso; destruct (Hcm _ Hin) as (i & Hi & Hle);
      rewrite Hid, E in Hi; injection Hi as <-;
      unfold INSTANCE_COMMITTED, INSTANCE_PREACCEPTED in *; lia.
  - destruct b; simpl; (apply consistent_store; [done | done | |]); intros iid Hin; simpl;
      (destruct (decide (iid = IID inst)) as [-> | Hne];
       [| right; split; [done |]; set_solver]).
    all: try (left; split; [done |]; unfold INSTANCE_PREACCEPTED, INSTANCE_ACCEPTED; lia).
    all: exfalso; destruct (Hcm _ Hin) as (i & Hi & Hle); congruence.
Qed.

(** An invariant of the scope that the phase functions keep is kept by
    [addMissingInstancesUnsafe]. [V] is what the invariant asks of a
    missing instance that is stored as it comes. *)
Section MissingInvariant.

Variable P : Scope -> Prop.
Variable V : Instance -> Prop.
Variable acc : Scope -> Instance -> Scope * option error.

Hypothesis Hacc : forall s i, P s -> P (fst (acc s i)).
Hypothesis Hacc_known : forall s i,
  instances s !! IID i = None -> known (fst (acc s i)) (IID i).
Hypothesis Hpre : forall s i, P s -> P (fst (preAcceptInstanceUnsafe s i false)).
Hypothesis Hcommit : forall s i, P s -> P (fst (commitInstanceUnsafe s i false)).
Hypothesis Hrestore : forall s k stored,
  P s -> instances s !! k = Some stored -> P (instancesAdd s stored).
Hypothesis Hadd : forall s inst,
  P s -> V inst -> instances s !! IID inst = None ->
  Status inst <> INSTANCE_PREACCEPTED -> Status inst <> INSTANCE_ACCEPTED ->
  Status inst <> INSTANCE_COMMITTED -> Status inst <> INSTANCE_EXECUTED ->
  P (instancesAdd s inst).

Lemma addMissingStep_inv s inst :
  P s -> V inst -> P (scopeOfStep (addMissingStep acc s inst)).
Proof.
  intros HP HV. unfold addMissingStep.
  destruct (instances s !! IID inst) as [x |] eqn:E; [done |].
  assert (Hafter : forall (r : Scope * option error) onErr,
    P (fst r) -> known (fst r) (IID inst) ->
    P (scopeOfStep
         (match r with
          | (s', Some e) => inr (s', onErr e)
          | (s', None) =>
              inl (match instances s' !! IID inst with
                   | Some stored => instancesAdd s' stored
                   | None => instancesAdd s' inst
                   end)
          end))).
  { intros [s' [e |]] onErr HP' [stored Hs]; simpl in *; [done |].
    rewrite Hs. by eapply Hrestore. }
  destruct (Status inst =? INSTANCE_PREACCEPTED) eqn:H1.
  { apply Hafter; [by apply Hpre |].
    by destruct (preAccept_fresh s inst false E) as (s' & -> & _ & Hk). }
  destruct (Status inst =? INSTANCE_ACCEPTED) eqn:H2.
  { apply Hafter; [by apply Hacc | by apply Hacc_known]. }
  destruct ((Status inst =? INSTANCE_COMMITTED) || (Status inst =? INSTANCE_EXECUTED)) eqn:H3.
  { apply Hafter; [by apply Hcommit |].
    by destruct (commit_fresh s inst false E) as (s' & -> & _ & Hk). }
  apply orb_false_elim in H3 as [H3 H4]. zbool. simpl. by apply Hadd.
Qed.

Lemma addMissingInstancesUnsafe_inv l : forall s,
  P s -> Forall V l -> P (fst (addMissingInstancesUnsafe acc s l)).
Proof.
  induction l as [| inst l IH]; intros s HP HV; simpl; [done |].
  inversion HV as [| ? ? Hi Hl]; subst.
  pose proof (addMissingStep_inv s inst HP Hi) as Hstep.
  destruct (addMissingStep acc s inst) as [s' | [s' e]]; simpl in *; [| done].
  by apply IH.
Qed.

End MissingInvariant.

Lemma accept_fresh_known s inst :
  instances s !! IID inst = None ->
  known (fst (ScopeAccept.acceptInstanceUnsafe s inst)) (IID inst).
Proof.
  intros E. unfold_ops. rewrite E. simpl. apply known_store. by right.
Qed.

Lemma instancesAdd_consistent s k stored :
  consistent s -> instances s !! k = Some stored -> consistent (instancesAdd s stored).
Proof.
  intros Hc Hs. pose proof Hc as (Hwf & _). pose proof (Hwf _ _ Hs) as Hk.
  unfold instancesAdd. rewrite Hk. by eapply consistent_restore.
Qed.

Lemma instancesAdd_unknown_consistent s inst :
  consistent s -> instances s !! IID inst = None -> consistent (instancesAdd s inst).
Proof.
  intros Hc E. pose proof Hc as (Hwf & Hip & Hcm).
  apply consistent_store; [done | done | |]; intros iid Hin; right; (split; [| done]);
    intros ->.
  - destruct (Hip _ Hin) as (i & Hi & _). congruence.
  - destruct (Hcm _ Hin) as (i & Hi & _). congruence.
Qed.

Lemma missing_consistent s l :
  consistent s ->
  consistent (fst (addMissingInstancesUnsafe ScopeAccept.acceptInstanceUnsafe s l)).
Proof.
  intros Hc.
  apply (addMissingInstancesUnsafe_inv consistent (fun _ => True)); try done.
  - intros; by apply accept_consistent.
  - intros; by apply accept_fresh_known.
  - intros; by apply preAccept_consistent.
  - intros; by apply commit_consistent.
  - intros; by eapply instancesAdd_consistent.
  - intros; by apply instancesAdd_unknown_consistent.
  - by apply Forall_true.
Qed.

Lemma HandleAccept_consistent s r :
  consistent s -> consistent (fst (ScopeAccept.HandleAccept s r)).
Proof.
  intros Hc. unfold ScopeAccept.HandleAccept.
  pose proof (accept_consistent s (arInstance r) Hc) as Ha.
  destruct (ScopeAccept.acceptInstanceUnsafe s (arInstance r)) as [s1 err]. simpl in Ha.
  pose proof (missing_consistent s1 (arMissingInstances r) Ha) as Hm.
  destruct (instances s !! IID (arInstance r)) as [instance |];
    [destruct (MaxBallot instance >=? MaxBallot (arInstance r)) |];
    try (destruct err as [e |]; [destruct (isInvalidStatusUpdate e) |]);
    simpl; try done;
    by destruct (0 <? length (arMissingInstances r))%nat.
Qed.

Lemma HandlePrepare_consistent s r :
  consistent s -> consistent (fst (HandlePrepare s r)).
Proof.
  intros Hc. pose proof Hc as (Hwf & _). unfold HandlePrepare, updateBallot.
  destruct (instances s !! prInstanceID r) as [instance |] eqn:E; simpl; [| done].
  pose proof (Hwf _ _ E) as Hk.
  eapply consistent_restore; [done | exact E | |];
    destruct (prBallot r >? MaxBallot instance); try done;
    by destruct (MaxBallot instance <? prBallot r).
Qed.

Lemma step_consistent s o : consistent s -> consistent (step s o).
Proof.
  intros Hc. destruct o; simpl.
  - by apply accept_consistent.
  - by apply commit_consistent.
  - by apply HandleAccept_consistent.
  - rewrite HandleCommit_fst. by apply commit_consistent.
  - by apply HandlePrepare_consistent.
Qed.

(** X4. Along every run of accepts, commits and of the accept, commit and
    prepare handlers, the containers of the scope keep agreeing with the
    statuses of the instances: what is in progress is stored and not yet
    committed, what is committed is stored as committed or executed, and
    no instance is in progress and committed at once. *)
Theorem containers_agree_with_statuses (s : Scope) (ops : list operation) :
  consistent s ->
  consistent (run s ops) /\ inProgress (run s ops) ## committed (run s ops).
Proof.
  intros Hc.
  assert (Hrun : consistent (run s ops)).
  { unfold run. revert s Hc. induction ops as [| o ops IH]; intros s Hc; simpl; [done |].
    apply IH. by apply step_consistent. }
  split; [done |].
  destruct Hrun as (_ & Hip & Hcm). intros iid Hi Hcmt.
  destruct (Hip _ Hi) as (i & Hs & Hle). destruct (Hcm _ Hcmt) as (i' & Hs' & Hge).
  rewrite Hs in Hs'. injection Hs' as <-.
  unfold INSTANCE_ACCEPTED, INSTANCE_COMMITTED in *. lia.
Qed.

Lemma startScope_consistent : consistent startScope.
Proof.
  split; [apply startScope_wf |]. split; intros iid Hin; vm_compute in Hin; set_solver.
Qed.

Lemma containers_agree_with_statuses_witness :
  consistent (run startScope guardedOperations)
  /\ inProgress (run startScope guardedOperations)
     ## committed (run startScope guardedOperations).
Proof.
  apply (containers_agree_with_statuses startScope guardedOperations).
  apply startScope_consistent.
Defined.
(** ** Sequences *)

Lemma updateSeq_bounds (m seq : Z) : m <= updateSeq m seq /\ seq <= updateSeq m seq.
Proof. unfold updateSeq. destruct (m <? seq) eqn:H; zbool; lia. Qed.

Lemma seqBounded_store s k i' ip cm ex ms :
  seqBounded s -> maxSeq s <= ms -> Sequence i' <= ms ->
  seqBounded (mkScope (<[k := i']> (instances s)) ip cm ex ms).
Proof.
  intros Hb Hms Hi iid i. simpl. rewrite lookup_insert.
  case_decide; [intros [= <-]; done |]. intros Hlk. specialize (Hb _ _ Hlk). lia.
Qed.

Lemma accept_seqBounded s inst :
  seqBounded s -> seqBounded (fst (ScopeAccept.acceptInstanceUnsafe s inst)).
Proof.
  intros Hb. unfold_ops.
  destruct (instances s !! IID inst) as [existing |] eqn:E;
    [destruct (INSTANCE_ACCEPTED <? Status existing) |]; simpl; try done;
    apply seqBounded_store; try done; apply updateSeq_bounds.
Qed.

Lemma commit_seqBounded s inst b :
  seqBounded s -> seqBounded (fst (commitInstanceUnsafe s inst b)).
Proof.
  intros Hb. unfold_ops.
  destruct (instances s !! IID inst) as [existing |] eqn:E;
    [destruct (INSTANCE_COMMITTED <? Status existing) |]; destruct b; simpl; try done;
    apply seqBounded_store; try done; apply updateSeq_bounds.
Qed.

Lemma preAccept_seqBounded s inst b :
  seqBounded s -> seqBounded (fst (preAcceptInstanceUnsafe s inst b)).
Proof.
  intros Hb. unfold_ops.
  destruct (instances s !! IID inst) as [existing |] eqn:E;
    [destruct (INSTANCE_PREACCEPTED <? Status existing) |]; destruct b; simpl; try done;
    apply seqBounded_store; try done; apply updateSeq_bounds.
Qed.

Lemma missing_seqBounded s l :
  seqBounded s -> Forall validInstance l ->
  seqBounded (fst (addMissingInstancesUnsafe ScopeAccept.acceptInstanceUnsafe s l)).
Proof.
  intros Hb Hl.
  apply (addMissingInstancesUnsafe_inv seqBounded validInstance); try done.
  - intros; by apply accept_seqBounded.
  - intros; by apply accept_fresh_known.
  - intros; by apply preAccept_seqBounded.
  - intros; by apply commit_seqBounded.
  - intros s0 k stored H0 Hs. apply seqBounded_store; [done | lia | by eapply H0].
  - intros s0 inst _ (_ & Hst) _ H1 H2 H3 H4. exfalso.
    unfold INSTANCE_PREACCEPTED, INSTANCE_ACCEPTED, INSTANCE_COMMITTED,
      INSTANCE_EXECUTED in *. lia.
Qed.

Lemma HandleAccept_seqBounded s r :
  seqBounded s -> Forall validInstance (arMissingInstances r) ->
  seqBounded (fst (ScopeAccept.HandleAccept s r)).
Proof.
  intros Hb Hl. unfold ScopeAccept.HandleAccept.
  pose proof (accept_seqBounded s (arInstance r) Hb) as Ha.
  destruct (ScopeAccept.acceptInstanceUnsafe s (arInstance r)) as [s1 err]. simpl in Ha.
  pose proof (missing_seqBounded s1 (arMissingInstances r) Ha Hl) as Hm.
  destruct (instances s !! IID (arInstance r)) as [instance |];
    [destruct (MaxBallot instance >=? MaxBallot (arInstance r)) |];
    try (destruct err as [e |]; [destruct (isInvalidStatusUpdate e) |]);
    simpl; try done;
    by destruct (0 <? length (arMissingInstances r))%nat.
Qed.

Lemma HandlePrepare_seqBounded s r :
  seqBounded s -> seqBounded (fst (HandlePrepare s r)).
Proof.
  intros Hb. unfold HandlePrepare, updateBallot.
  destruct (instances s !! prInstanceID r) as [instance |] eqn:E; simpl; [| done].
  apply seqBounded_store; [done | lia |].
  specialize (Hb _ _ E).
  destruct (prBallot r >? MaxBallot instance); [| done].
  by destruct (MaxBallot instance <? prBallot r).
Qed.

Lemma step_seqBounded s o :
  seqBounded s -> wellFormedOperation o -> seqBounded (step s o).
Proof.
  intros Hb Hw. destruct o; simpl in *.
  - by apply accept_seqBounded.
  - by apply commit_seqBounded.
  - by apply HandleAccept_seqBounded.
  - rewrite HandleCommit_fst. by apply commit_seqBounded.
  - by apply HandlePrepare_seqBounded.
Qed.

Lemma run_seqBounded ops : forall s,
  seqBounded s -> Forall wellFormedOperation ops -> seqBounded (run s ops).
Proof.
  unfold run. induction ops as [| o ops IH]; intros s Hb Hw; simpl; [done |].
  inversion Hw; subst. apply IH; [by apply step_seqBounded | done].
Qed.

(** X5. The sequence of a new instance is above the sequence of every
    instance the scope has come to store: after any run of accepts,
    commits and handlers whose missing instances carry one of the four
    statuses, on a scope whose [maxSeq] bounded the stored sequences and
    has not reached the end of [uint64], [makeInstance] gives its instance
    a sequence strictly above all of them, and [maxSeq] bounds the stored
    sequences again. *)
Theorem makeInstance_sequence_above_all (s : Scope) (ops : list operation)
    (newInstanceID : InstanceID) (localID : NodeId) (instructions : list Instruction) :
  seqBounded s ->
  Forall wellFormedOperation ops ->
  maxSeq (run s ops) < 2 ^ 64 - 1 ->
  let (s', instance) :=
    FirstScope.makeInstance (run s ops) newInstanceID localID instructions in
  (forall iid i, instances (run s ops) !! iid = Some i -> Sequence i < Sequence instance)
  /\ seqBounded s'
  /\ instances s' !! newInstanceID = Some instance.
Proof.
  intros Hb Hw Hmax.
  pose proof (run_seqBounded ops s Hb Hw) as Hr.
  set (s0 := run s ops) in *.
  unfold FirstScope.makeInstance, getNextSeqUnsafe. simpl.
  assert (Hincr : incr64 (maxSeq s0) = maxSeq s0 + 1 \/ maxSeq s0 < 0).
  { unfold incr64. destruct (Z_lt_ge_dec (maxSeq s0) 0) as [Hneg | Hpos]; [by right |].
    left. apply Z.mod_small. lia. }
  destruct Hincr as [Hincr | Hneg].
  - rewrite Hincr. split; [| split].
    + intros iid i Hi. specialize (Hr _ _ Hi). lia.
    + apply seqBounded_store; simpl; [done | lia | lia].
    + by rewrite lookup_insert_eq.
  - assert (Hge : 0 <= incr64 (maxSeq s0)) by (unfold incr64; apply Z.mod_pos_bound; lia).
    split; [| split].
    + intros iid i Hi. specialize (Hr _ _ Hi). lia.
    + apply seqBounded_store; simpl; [done | lia | lia].
    + by rewrite lookup_insert_eq.
Qed.

Lemma NewScope_seqBounded : seqBounded NewScope.
Proof. intros iid i H. simpl in H. by rewrite lookup_empty in H. Qed.

Lemma makeInstance_sequence_above_all_witness :
  let (s', instance) :=
    FirstScope.makeInstance (run NewScope guardedOperations) 9%N 0%N [] in
  (forall iid i, instances (run NewScope guardedOperations) !! iid = Some i ->
     Sequence i < Sequence instance)
  /\ seqBounded s'
  /\ instances s' !! 9%N = Some instance.
Proof.
  apply (makeInstance_sequence_above_all NewScope guardedOperations 9%N 0%N []).
  - apply NewScope_seqBounded.
  - repeat constructor.
  - vm_compute. reflexivity.
Defined.

(** ** The dependencies of a new instance *)

Lemma last_executed (l : list InstanceID) :
  (0 <? length l)%nat = true ->
  last l = Some (nth (length l - 1) l 0%N).
Proof.
  intros H. apply Nat.ltb_lt in H. rewrite last_lookup.
  replace (pred (length l)) with (length l - 1)%nat by lia.
  rewrite nth_lookup. destruct (l !! (length l - 1)%nat) eqn:E; [done |].
  apply lookup_ge_None in E. lia.
Qed.

Lemma getCurrentDepsUnsafe_length (s : Scope) :
  length (getCurrentDepsUnsafe s) = numDeps s.
Proof.
  unfold getCurrentDepsUnsafe, numDeps. simpl app.
  destruct (0 <? length (executed s))%nat;
    rewrite ?length_app; simpl; unfold size, set_size; simpl; lia.
Qed.

Lemma getCurrentDepsUnsafe_elem_of (s : Scope) (iid : InstanceID) :
  iid ∈ getCurrentDepsUnsafe s
  <-> iid ∈ inProgress s \/ iid ∈ committed s \/ last (executed s) = Some iid.
Proof.
  unfold getCurrentDepsUnsafe. simpl app.
  destruct (0 <? length (executed s))%nat eqn:He.
  - rewrite (last_executed _ He).
    rewrite !elem_of_app, !elem_of_elements, list_elem_of_singleton.
    split; [intros [[H | H] | H]; auto; right; right; congruence |].
    intros [H | [H | H]]; auto. right. congruence.
  - apply Nat.ltb_ge in He.
    assert (executed s = []) as -> by (destruct (executed s); [done | simpl in He; lia]).
    simpl. rewrite !elem_of_app, !elem_of_elements. split; [intros [H | H]; auto |].
    intros [H | [H | H]]; auto. done.
Qed.

(** X6. The dependencies of a new instance. [getCurrentDepsUnsafe] of
    part_002 returns the instances in progress, the committed ones and
    the instance executed last, no other, in as many entries as it
    reserved room for. The version of scope.go returns the same entries
    preceded by as many zero ids, a list twice as long whose first half
    names no instance, so that a new instance of that version depends on
    the zero id as soon as it has a dependency. *)
Theorem getCurrentDepsUnsafe_of_both_versions (s : Scope) :
  (forall iid,
     iid ∈ getCurrentDepsUnsafe s
     <-> iid ∈ inProgress s \/ iid ∈ committed s \/ last (executed s) = Some iid)
  /\ length (getCurrentDepsUnsafe s) = numDeps s
  /\ FirstScope.getCurrentDepsUnsafe s
     = replicate (numDeps s) 0%N ++ getCurrentDepsUnsafe s
  /\ length (FirstScope.getCurrentDepsUnsafe s) = (2 * numDeps s)%nat
  /\ ((0 < numDeps s)%nat -> 0%N ∈ FirstScope.getCurrentDepsUnsafe s).
Proof.
  assert (Heq : FirstScope.getCurrentDepsUnsafe s
                = replicate (numDeps s) 0%N ++ getCurrentDepsUnsafe s).
  { unfold FirstScope.getCurrentDepsUnsafe, getCurrentDepsUnsafe, numDeps. simpl app.
    destruct (executed s) as [| x l]; simpl length.
    - simpl. by rewrite <- !app_assoc.
    - simpl Nat.eqb. simpl Nat.ltb. cbv iota. by rewrite <- !app_assoc. }
  split; [apply getCurrentDepsUnsafe_elem_of |].
  split; [apply getCurrentDepsUnsafe_length |].
  split; [done |]. split.
  - rewrite Heq, length_app, length_replicate, getCurrentDepsUnsafe_length. lia.
  - intros Hpos. rewrite Heq. apply elem_of_app. left.
    destruct (numDeps s) as [| n]; [lia |]. simpl. by left.
Qed.

(** ** The replica setup of [ExecuteInstructions] *)

Lemma replicaSetup_fold (localID : NodeId) (replicas : list NodeId) :
  forall remote found,
  fold_left
    (fun (acc : list NodeId * bool) replica =>
       let (remoteReplicas, localReplicaFound) := acc in
       if negb (replica =? localID)%N
       then (remoteReplicas ++ [replica], localReplicaFound)
       else (remoteReplicas, true))
    replicas (remote, found)
  = (remote ++ List.filter (fun r => negb (r =? localID)%N) replicas,
     found || (0 <? count_occ N.eq_dec replicas localID)%nat).
Proof.
  induction replicas as [| r rs IH]; intros remote found; simpl.
  - by rewrite app_nil_r, orb_false_r.
  - destruct (N.eqb_spec r localID) as [-> | Hne]; simpl.
    + rewrite IH. destruct (N.eq_dec localID localID); [| done].
      simpl. by rewrite orb_true_r.
    + rewrite IH, <- app_assoc. destruct (N.eq_dec r localID); done.
Qed.

Lemma filter_remote_length (localID : NodeId) (replicas : list NodeId) :
  (length (List.filter (fun r => negb (r =? localID)%N) replicas)
   + count_occ N.eq_dec replicas localID = length replicas)%nat.
Proof.
  induction replicas as [| r rs IH]; simpl; [done |].
  destruct (N.eqb_spec r localID) as [-> | Hne]; simpl.
  - destruct (N.eq_dec localID localID); [lia | done].
  - destruct (N.eq_dec r localID); [done | lia].
Qed.

(** X7. The replica setup of [ExecuteInstructions] panics on an empty
    replica list; it reports that the local replica is missing when the
    local node does not occur among the replicas, and a size mismatch
    when it occurs more than once; it passes exactly when it occurs once,
    with the other replicas in their order. A replica other than the
    local one that is listed twice goes unnoticed. *)
Theorem replicaSetup_outcome (localID : NodeId) (replicas : list NodeId) :
  let n := count_occ N.eq_dec replicas localID in
  (FirstScope.replicaSetup localID replicas = Panicked <-> replicas = [])
  /\ (FirstScope.replicaSetup localID replicas
        = Returned (inr FirstScope.LocalReplicaNotFound)
      <-> replicas <> [] /\ n = 0%nat)
  /\ (FirstScope.replicaSetup localID replicas
        = Returned (inr FirstScope.RemoteReplicaSize)
      <-> (2 <= n)%nat)
  /\ (forall remoteReplicas,
        FirstScope.replicaSetup localID replicas = Returned (inl remoteReplicas)
        <-> n = 1%nat
            /\ remoteReplicas = List.filter (fun r => negb (r =? localID)%N) replicas).
Proof.
  intros n.
  assert (Hcases :
    replicas = [] /\ FirstScope.replicaSetup localID replicas = Panicked
    \/ replicas <> [] /\ n = 0%nat
       /\ FirstScope.replicaSetup localID replicas
          = Returned (inr FirstScope.LocalReplicaNotFound)
    \/ replicas <> [] /\ n = 1%nat
       /\ FirstScope.replicaSetup localID replicas
          = Returned
              (inl (List.filter (fun r => negb (r =? localID)%N) replicas))
    \/ replicas <> [] /\ (2 <= n)%nat
       /\ FirstScope.replicaSetup localID replicas
          = Returned (inr FirstScope.RemoteReplicaSize)).
  { unfold FirstScope.replicaSetup.
    rewrite replicaSetup_fold. simpl app.
    pose proof (filter_remote_length localID replicas) as Hlen. fold n in Hlen. fold n.
    destruct replicas as [| r rs] eqn:Er; [by left |].
    rewrite <- Er in *. assert (Hne : replicas <> []) by (by rewrite Er).
    assert (Hpos : (0 < length replicas)%nat) by (rewrite Er; simpl; lia).
    clear Er. right.
    assert (Hz : (Z.of_nat (length replicas) - 1 <? 0) = false) by (apply Z.ltb_ge; lia).
    rewrite Hz. simpl orb.
    destruct (0 <? n)%nat eqn:Hn; simpl negb; cbv iota.
    - apply Nat.ltb_lt in Hn.
      destruct (Z.of_nat (length (List.filter (fun r => negb (r =? localID)%N) replicas))
                =? Z.of_nat (length replicas) - 1) eqn:Hsz; zbool; simpl.
      + right. left. split; [done |]. split; [lia | done].
      + right. right. split; [done |]. split; [lia | done].
    - apply Nat.ltb_ge in Hn. left. split; [done |]. split; [lia | done]. }
  destruct Hcases as [[He H] | [(Hne & Hn & H) | [(Hne & Hn & H) | (Hne & Hn & H)]]];
    rewrite H; (split; [| split; [| split]]); try intros remoteReplicas;
    (split; [intros Hr | intros Hr]); try done; try lia;
    try (destruct Hr; done); try (destruct Hr; lia).
  - exfalso. subst replicas n. simpl in Hr. lia.
  - exfalso. destruct Hr as [Hr _]. subst replicas n. simpl in Hr. lia.
  - injection Hr as <-. done.
  - destruct Hr as [_ ->]. done.
Qed.
(** ** Missing instances *)

Lemma preAccept_storesFresh inst :
  storesFresh (fun s i => preAcceptInstanceUnsafe s i false) inst.
Proof.
  intros s E. unfold preAcceptInstanceUnsafe. rewrite E. simpl.
  by eexists _, _.
Qed.

Lemma commit_storesFresh inst :
  storesFresh (fun s i => commitInstanceUnsafe s i false) inst.
Proof.
  intros s E. unfold commitInstanceUnsafe, commitStore. rewrite E. simpl.
  by eexists _, _.
Qed.

Lemma ScopeAccept_storesFresh inst : storesFresh ScopeAccept.acceptInstanceUnsafe inst.
Proof.
  intros s E. unfold ScopeAccept.acceptInstanceUnsafe, ScopeAccept.acceptStore.
  rewrite E. simpl. by eexists _, _.
Qed.

Lemma ManagerAccept_storesFresh inst :
  Status inst = INSTANCE_ACCEPTED ->
  storesFresh (fun s i => ManagerAccept.acceptInstanceUnsafe s i false) inst.
Proof.
  intros Hst s E.
  unfold ManagerAccept.acceptInstanceUnsafe, ManagerAccept.acceptInstance,
    ManagerAccept.getOrSetInstance, ManagerAccept.instanceAccept.
  rewrite E, Hst. simpl. rewrite Hst. simpl.
  eexists _, (setMaxBallot _ _). split; [reflexivity |]. simpl.
  split; [apply insert_insert_eq | reflexivity].
Qed.

Lemma addMissingStep_fresh acc s inst :
  (Status inst = INSTANCE_ACCEPTED -> storesFresh acc inst) ->
  exists s', addMissingStep acc s inst = inl s'
    /\ (s' = s /\ known s (IID inst)
        \/ instances s !! IID inst = None
           /\ exists v, instances s' = <[IID inst := v]> (instances s)).
Proof.
  intros Hacc. unfold addMissingStep.
  destruct (instances s !! IID inst) as [x |] eqn:E.
  { exists s. split; [done |]. left. split; [done | by exists x]. }
  assert (Hafter : forall (phase : Scope -> Instance -> Scope * option error) onErr,
    storesFresh phase inst ->
    exists s',
      (match phase s inst with
       | (s', Some e) => inr (s', onErr e)
       | (s', None) =>
           inl (match instances s' !! IID inst with
                | Some stored => instancesAdd s' stored
                | None => instancesAdd s' inst
                end)
       end : Scope + Scope * option error) = inl s'
      /\ (s' = s /\ known s (IID inst)
          \/ None = (None : option Instance)
             /\ exists v, instances s' = <[IID inst := v]> (instances s))).
  { intros phase onErr Hp. destruct (Hp s E) as (s' & v & -> & Hi & Hv).
    rewrite Hi, lookup_insert_eq. eexists. split; [reflexivity |]. right.
    split; [done |]. exists v. simpl. by rewrite Hi, Hv, insert_insert_eq. }
  destruct (Status inst =? INSTANCE_PREACCEPTED) eqn:H1.
  { apply (Hafter (fun s i => preAcceptInstanceUnsafe s i false)).
    apply preAccept_storesFresh. }
  destruct (Status inst =? INSTANCE_ACCEPTED) eqn:H2.
  { zbool. by apply Hafter, Hacc. }
  destruct ((Status inst =? INSTANCE_COMMITTED) || (Status inst =? INSTANCE_EXECUTED)).
  { apply (Hafter (fun s i => commitInstanceUnsafe s i false)).
    apply commit_storesFresh. }
  eexists. split; [reflexivity |]. right. split; [done |]. by exists inst.
Qed.

Lemma addMissingInstancesUnsafe_fresh acc l :
  (forall inst, Status inst = INSTANCE_ACCEPTED -> storesFresh acc inst) ->
  forall s,
  exists s', addMissingInstancesUnsafe acc s l = (s', None)
    /\ keepsInstances s s'
    /\ Forall (fun m => known s' (IID m)) l.
Proof.
  intros Hacc. induction l as [| inst l IH]; intros s; simpl.
  { exists s. split; [done |]. split; [by intros ? | constructor]. }
  destruct (addMissingStep_fresh acc s inst (Hacc inst)) as (s1 & -> & Hs1).
  destruct (IH s1) as (s' & -> & Hk & Hall). exists s'. split; [done |].
  assert (Hk1 : keepsInstances s s1 /\ known s1 (IID inst)).
  { destruct Hs1 as [[-> Hkn] | [E [v Hv]]]; [split; [by intros ? |]; done |].
    split.
    - intros iid i Hi. rewrite Hv, lookup_insert_ne; [done | congruence].
    - unfold known. rewrite Hv, lookup_insert_eq. by eexists. }
  destruct Hk1 as [Hk1 Hkn]. split; [| constructor; [| done]].
  - intros iid i Hi. by apply Hk, Hk1.
  - destruct Hkn as [x Hx]. exists x. by apply Hk.
Qed.

(** X8. [addMissingInstancesUnsafe] does not fail, whichever of the two
    accepts it calls: it returns no error, every instance of the list is
    stored when it returns, and every instance that was stored before is
    stored unchanged. *)
Theorem addMissingInstancesUnsafe_stores_all (s : Scope) (l : list Instance) :
  (snd (addMissingInstancesUnsafe ScopeAccept.acceptInstanceUnsafe s l) = None
   /\ keepsInstances s (fst (addMissingInstancesUnsafe ScopeAccept.acceptInstanceUnsafe s l))
   /\ Forall (fun m => known (fst (addMissingInstancesUnsafe
                                     ScopeAccept.acceptInstanceUnsafe s l)) (IID m)) l)
  /\
  (let accept := fun s i => ManagerAccept.acceptInstanceUnsafe s i false in
   snd (addMissingInstancesUnsafe accept s l) = None
   /\ keepsInstances s (fst (addMissingInstancesUnsafe accept s l))
   /\ Forall (fun m => known (fst (addMissingInstancesUnsafe accept s l)) (IID m)) l).
Proof.
  split.
  - destruct (addMissingInstancesUnsafe_fresh ScopeAccept.acceptInstanceUnsafe l
                (fun inst _ => ScopeAccept_storesFresh inst) s) as (s' & -> & Hk & Hall).
    done.
  - intros accept.
    destruct (addMissingInstancesUnsafe_fresh accept l
                (fun inst H => ManagerAccept_storesFresh inst H) s) as (s' & -> & Hk & Hall).
    done.
Qed.

(** ** Requests that arrive twice *)

Lemma ScopeAccept_missing_keeps s l :
  keepsInstances s
    (if (0 <? length l)%nat
     then fst (addMissingInstancesUnsafe ScopeAccept.acceptInstanceUnsafe s l) else s).
Proof.
  destruct (0 <? length l)%nat; [| by intros ?].
  destruct (addMissingInstancesUnsafe_fresh ScopeAccept.acceptInstanceUnsafe l
              (fun inst _ => ScopeAccept_storesFresh inst) s) as (s' & -> & Hk & _).
  done.
Qed.

Lemma ManagerAccept_missing_keeps s r :
  keepsInstances s (ManagerAccept.missingAdded s r).
Proof.
  unfold ManagerAccept.missingAdded.
  destruct (0 <? length (arMissingInstances r))%nat; [| by intros ?].
  destruct (addMissingInstancesUnsafe_fresh
              (fun s i => ManagerAccept.acceptInstanceUnsafe s i false)
              (arMissingInstances r)
              (fun inst H => ManagerAccept_storesFresh inst H) s) as (s' & -> & Hk & _).
  done.
Qed.

(** X9. An accept request that the handler of scope_accept.go accepts
    and applies is rejected when it arrives a second time: the ballot it
    carries is the recorded one by then. The rejection carries that
    ballot, and the scope stays as the first handling left it. *)
Theorem HandleAccept_repeated_is_rejected (s : Scope) (r : AcceptRequest) :
  wfScope s ->
  (forall e, instances s !! IID (arInstance r) = Some e ->
     Status e <= INSTANCE_ACCEPTED /\ MaxBallot e < MaxBallot (arInstance r)) ->
  snd (ScopeAccept.HandleAccept s r) = Ok (mkAcceptResponse true 0)
  /\ ScopeAccept.HandleAccept (fst (ScopeAccept.HandleAccept s r)) r
     = (fst (ScopeAccept.HandleAccept s r),
        Ok (mkAcceptResponse false (MaxBallot (arInstance r)))).
Proof.
  intros Hwf Hknown.
  assert (Hfirst : exists s1 a,
    ScopeAccept.HandleAccept s r
    = (if (0 <? length (arMissingInstances r))%nat
       then fst (addMissingInstancesUnsafe ScopeAccept.acceptInstanceUnsafe s1
                   (arMissingInstances r))
       else s1, Ok (mkAcceptResponse true 0))
    /\ instances s1 !! IID (arInstance r) = Some a
    /\ MaxBallot a = MaxBallot (arInstance r)).
  { unfold ScopeAccept.HandleAccept, ScopeAccept.acceptInstanceUnsafe,
      ScopeAccept.acceptStore.
    destruct (instances s !! IID (arInstance r)) as [e |] eqn:E.
    - destruct (Hknown e eq_refl) as [Hst Hb]. pose proof (Hwf _ _ E) as Hid.
      assert (H1 : (MaxBallot e >=? MaxBallot (arInstance r)) = false).
      { rewrite Z.geb_leb. apply Z.leb_gt. lia. }
      assert (H2 : (INSTANCE_ACCEPTED <? Status e) = false) by (apply Z.ltb_ge; lia).
      rewrite H1, H2. simpl. eexists _, _. split; [reflexivity |]. simpl.
      rewrite Hid, lookup_insert_eq. split; reflexivity.
    - simpl. eexists _, _. split; [reflexivity |]. simpl.
      rewrite lookup_insert_eq. split; reflexivity. }
  destruct Hfirst as (s1 & a & Heq & Ha & Hb). rewrite Heq. simpl. split; [done |].
  pose proof (ScopeAccept_missing_keeps s1 (arMissingInstances r) _ _ Ha) as Hkept.
  rewrite (ScopeAccept_reject _ r a Hkept) by lia. by rewrite Hb.
Qed.

Lemma HandleAccept_repeated_is_rejected_witness :
  snd (ScopeAccept.HandleAccept startScope
         (mkAcceptRequest (sampleInstance 1 INSTANCE_PREACCEPTED 7) []))
    = Ok (mkAcceptResponse true 0)
  /\ ScopeAccept.HandleAccept
       (fst (ScopeAccept.HandleAccept startScope
               (mkAcceptRequest (sampleInstance 1 INSTANCE_PREACCEPTED 7) [])))
       (mkAcceptRequest (sampleInstance 1 INSTANCE_PREACCEPTED 7) [])
     = (fst (ScopeAccept.HandleAccept startScope
               (mkAcceptRequest (sampleInstance 1 INSTANCE_PREACCEPTED 7) [])),
        Ok (mkAcceptResponse false 7)).
Proof.
  apply (HandleAccept_repeated_is_rejected startScope
           (mkAcceptRequest (sampleInstance 1 INSTANCE_PREACCEPTED 7) [])).
  - apply startScope_wf.
  - intros e He. vm_compute in He. injection He as <-. vm_compute. split; [congruence | done].
Defined.

(** X10. An instance that is stored with a status above accepted is out
    of the reach of accept requests: whatever request for it the accept
    handler of scope_accept.go is given, missing instances included, the
    instance stays stored exactly as it was. When the request carries a
    ballot above the recorded one, the handler all the same replies that
    it accepted. *)
Theorem HandleAccept_leaves_committed_instance (s : Scope) (r : AcceptRequest)
    (e : Instance) :
  instances s !! IID (arInstance r) = Some e ->
  INSTANCE_ACCEPTED < Status e ->
  instances (fst (ScopeAccept.HandleAccept s r)) !! IID (arInstance r) = Some e
  /\ (MaxBallot e < MaxBallot (arInstance r) ->
      snd (ScopeAccept.HandleAccept s r) = Ok (mkAcceptResponse true 0))
  /\ (MaxBallot (arInstance r) <= MaxBallot e ->
      ScopeAccept.HandleAccept s r = (s, Ok (mkAcceptResponse false (MaxBallot e)))).
Proof.
  intros E Hst.
  assert (H2 : (INSTANCE_ACCEPTED <? Status e) = true) by (apply Z.ltb_lt; lia).
  assert (Hscope : forall b, (MaxBallot e >=? MaxBallot (arInstance r)) = b ->
    instances (fst (ScopeAccept.HandleAccept s r)) !! IID (arInstance r) = Some e
    /\ (b = false -> snd (ScopeAccept.HandleAccept s r) = Ok (mkAcceptResponse true 0))
    /\ (b = true ->
        ScopeAccept.HandleAccept s r = (s, Ok (mkAcceptResponse false (MaxBallot e))))).
  { intros b Hb. unfold ScopeAccept.HandleAccept, ScopeAccept.acceptInstanceUnsafe.
    rewrite E, Hb, H2. destruct b; simpl; [done |]. split; [| done].
    by apply ScopeAccept_missing_keeps. }
  split; [by eapply Hscope |]. split; intros Hb.
  - apply (Hscope false); [| done]. rewrite Z.geb_leb. apply Z.leb_gt. lia.
  - apply (Hscope true); [| done]. rewrite Z.geb_leb. apply Z.leb_le. lia.
Qed.

Lemma HandleAccept_leaves_committed_instance_witness :
  let s := scopeOf [sampleInstance 1 INSTANCE_COMMITTED 5] in
  let r := mkAcceptRequest (sampleInstance 1 INSTANCE_ACCEPTED 7)
             [sampleInstance 2 INSTANCE_ACCEPTED 0] in
  instances (fst (ScopeAccept.HandleAccept s r)) !! 1%N
    = Some (sampleInstance 1 INSTANCE_COMMITTED 5)
  /\ (5 < 7 -> snd (ScopeAccept.HandleAccept s r) = Ok (mkAcceptResponse true 0))
  /\ (7 <= 5 -> ScopeAccept.HandleAccept s r = (s, Ok (mkAcceptResponse false 5))).
Proof.
  apply (HandleAccept_leaves_committed_instance
           (scopeOf [sampleInstance 1 INSTANCE_COMMITTED 5])
           (mkAcceptRequest (sampleInstance 1 INSTANCE_ACCEPTED 7)
              [sampleInstance 2 INSTANCE_ACCEPTED 0])
           (sampleInstance 1 INSTANCE_COMMITTED 5)).
  - vm_compute. reflexivity.
  - vm_compute. reflexivity.
Defined.

(** ** The promise of the prepare handler *)

Lemma setMaxBallot_same (i : Instance) : setMaxBallot (MaxBallot i) i = i.
Proof. by destruct i. Qed.

Lemma restore_same (s : Scope) (k : InstanceID) (i : Instance) :
  instances s !! k = Some i ->
  mkScope (<[k := i]> (instances s)) (inProgress s) (committed s) (executed s) (maxSeq s)
  = s.
Proof. intros H. rewrite insert_id by done. by destruct s. Qed.

(** X11. A replica that has accepted a prepare request with ballot [b]
    for an instance it stores keeps its promise: the same prepare request
    is rejected when repeated, and an accept request for that instance
    with a ballot up to [b] is rejected by either accept handler, each
    rejection carrying [b]. The accepted reply carried the instance with
    its ballot raised to [b]. *)
Theorem prepare_is_a_promise (s : Scope) (req : PrepareRequest) (e : Instance)
    (r : AcceptRequest) :
  instances s !! prInstanceID req = Some e ->
  MaxBallot e < prBallot req ->
  IID (arInstance r) = prInstanceID req ->
  MaxBallot (arInstance r) <= prBallot req ->
  let s1 := fst (HandlePrepare s req) in
  let promised := setMaxBallot (prBallot req) e in
  snd (HandlePrepare s req) = Ok (mkPrepareResponse true (Some promised))
  /\ HandlePrepare s1 req = (s1, Ok (mkPrepareResponse false (Some promised)))
  /\ ScopeAccept.HandleAccept s1 r = (s1, Ok (mkAcceptResponse false (prBallot req)))
  /\ ManagerAccept.HandleAccept s1 r
     = (ManagerAccept.missingAdded s1 r, Ok (mkAcceptResponse false (prBallot req))).
Proof.
  intros E Hlt Hid Hle s1 promised.
  assert (Hgt : (prBallot req >? MaxBallot e) = true) by (rewrite Z.gtb_ltb; by apply Z.ltb_lt).
  assert (Hltb : (MaxBallot e <? prBallot req) = true) by (by apply Z.ltb_lt).
  assert (Hs1 : HandlePrepare s req
                = (mkScope (<[prInstanceID req := promised]> (instances s))
                     (inProgress s) (committed s) (executed s) (maxSeq s),
                   Ok (mkPrepareResponse true (Some promised)))).
  { unfold HandlePrepare, updateBallot. by rewrite E, Hgt, Hltb. }
  assert (Hstored : instances s1 !! prInstanceID req = Some promised).
  { unfold s1. rewrite Hs1. simpl. by rewrite lookup_insert_eq. }
  split; [by rewrite Hs1 |]. split; [| split].
  - unfold HandlePrepare at 1. rewrite Hstored.
    assert (Hngt : (prBallot req >? MaxBallot promised) = false).
    { simpl. rewrite Z.gtb_ltb. apply Z.ltb_irrefl. }
    rewrite Hngt. by rewrite (restore_same s1 _ _ Hstored).
  - rewrite <- Hid in Hstored.
    by rewrite (ScopeAccept_reject s1 r promised Hstored).
  - rewrite <- Hid in Hstored.
    pose proof (ManagerAccept_missing_keeps s1 r _ _ Hstored) as Hkept.
    by rewrite (ManagerAccept_reject s1 r promised Hkept).
Qed.

Lemma prepare_is_a_promise_witness :
  let s1 := fst (HandlePrepare startScope (mkPrepareRequest 8 1)) in
  let promised := setMaxBallot 8 (sampleInstance 1 INSTANCE_PREACCEPTED 5) in
  snd (HandlePrepare startScope (mkPrepareRequest 8 1))
    = Ok (mkPrepareResponse true (Some promised))
  /\ HandlePrepare s1 (mkPrepareRequest 8 1)
     = (s1, Ok (mkPrepareResponse false (Some promised)))
  /\ ScopeAccept.HandleAccept s1
       (mkAcceptRequest (sampleInstance 1 INSTANCE_ACCEPTED 8) [])
     = (s1, Ok (mkAcceptResponse false 8))
  /\ ManagerAccept.HandleAccept s1
       (mkAcceptRequest (sampleInstance 1 INSTANCE_ACCEPTED 8) [])
     = (ManagerAccept.missingAdded s1
          (mkAcceptRequest (sampleInstance 1 INSTANCE_ACCEPTED 8) []),
        Ok (mkAcceptResponse false 8)).
Proof.
  apply (prepare_is_a_promise startScope (mkPrepareRequest 8 1)
           (sampleInstance 1 INSTANCE_PREACCEPTED 5)
           (mkAcceptRequest (sampleInstance 1 INSTANCE_ACCEPTED 8) [])).
  - vm_compute. reflexivity.
  - vm_compute. reflexivity.
  - reflexivity.
  - vm_compute. congruence.
Defined.

(** ** Executed instances *)

Lemma accept_frame s inst iid x :
  wfScope s -> instances s !! iid = Some x ->
  IID inst <> iid \/ INSTANCE_ACCEPTED < Status x ->
  instances (fst (ScopeAccept.acceptInstanceUnsafe s inst)) !! iid = Some x.
Proof.
  intros Hwf Hx Hor. unfold_ops.
  destruct (instances s !! IID inst) as [existing |] eqn:E.
  - destruct (INSTANCE_ACCEPTED <? Status existing) eqn:Hs; simpl; [done |]. zbool.
    pose proof (Hwf _ _ E) as Hid.
    rewrite lookup_insert_ne; [done |]. simpl. rewrite Hid. intros Heq.
    destruct Hor as [Hne | Hst]; [done |].
    rewrite Heq, Hx in E. injection E as <-. lia.
  - simpl. rewrite lookup_insert_ne; [done |]. simpl. intros Heq. congruence.
Qed.

Lemma commit_frame s inst b iid x :
  wfScope s -> instances s !! iid = Some x ->
  IID inst <> iid \/ INSTANCE_COMMITTED < Status x ->
  instances (fst (commitInstanceUnsafe s inst b)) !! iid = Some x.
Proof.
  intros Hwf Hx Hor. unfold_ops.
  destruct (instances s !! IID inst) as [existing |] eqn:E.
  - destruct (INSTANCE_COMMITTED <? Status existing) eqn:Hs; simpl; [done |]. zbool.
    pose proof (Hwf _ _ E) as Hid.
    assert (Hne : IID existing <> iid).
    { rewrite Hid. intros Heq. destruct Hor as [Hne | Hst]; [done |].
      rewrite Heq, Hx in E. injection E as <-. lia. }
    destruct b; simpl; by rewrite lookup_insert_ne.
  - assert (Hne : IID inst <> iid) by congruence.
    destruct b; simpl; by rewrite lookup_insert_ne.
Qed.

Lemma HandleAccept_frame s r iid x :
  wfScope s -> instances s !! iid = Some x -> INSTANCE_ACCEPTED < Status x ->
  instances (fst (ScopeAccept.HandleAccept s r)) !! iid = Some x.
Proof.
  intros Hwf Hx Hst. unfold ScopeAccept.HandleAccept.
  pose proof (accept_frame s (arInstance r) iid x Hwf Hx (or_intror Hst)) as Ha.
  destruct (ScopeAccept.acceptInstanceUnsafe s (arInstance r)) as [s1 err]. simpl in Ha.
  pose proof (ScopeAccept_missing_keeps s1 (arMissingInstances r) _ _ Ha) as Hm.
  destruct (instances s !! IID (arInstance r)) as [instance |];
    [destruct (MaxBallot instance >=? MaxBallot (arInstance r)) |];
    try (destruct err as [e |]; [destruct (isInvalidStatusUpdate e) |]);
    simpl; done.
Qed.

Lemma step_storedButBallot s o iid e :
  wfScope s -> INSTANCE_COMMITTED < Status e ->
  storedButBallot s iid e -> storedButBallot (step s o) iid e.
Proof.
  intros Hwf Hst (e' & He' & Heq & Hle).
  assert (Hst' : INSTANCE_COMMITTED < Status e') by (rewrite Heq; simpl; done).
  assert (Hsta : INSTANCE_ACCEPTED < Status e').
  { unfold INSTANCE_COMMITTED, INSTANCE_ACCEPTED in *. lia. }
  destruct o as [inst | inst b | r | r | r]; simpl.
  - exists e'. split; [| done]. apply accept_frame; auto.
  - exists e'. split; [| done]. apply commit_frame; auto.
  - exists e'. split; [| done]. by apply HandleAccept_frame.
  - exists e'. split; [| done]. rewrite HandleCommit_fst. apply commit_frame; auto.
  - unfold HandlePrepare, updateBallot, storedButBallot.
    destruct (instances s !! prInstanceID r) as [instance |] eqn:E; simpl;
      [| by exists e'].
    destruct (decide (prInstanceID r = iid)) as [Hid | Hne].
    + rewrite Hid in *. rewrite lookup_insert_eq. rewrite He' in E. injection E as <-.
      destruct (prBallot r >? MaxBallot e') eqn:Hb; [| by exists e'].
      zbool. assert (Hlt : (MaxBallot e' <? prBallot r) = true) by (by apply Z.ltb_lt).
      rewrite Hlt. simpl. eexists. split; [done |]. simpl. split; [| lia].
      rewrite Heq. by destruct e.
    + rewrite lookup_insert_ne by done. by exists e'.
Qed.

(** X12. An executed instance is final: along every run of accepts,
    commits and of the accept, commit and prepare handlers on a
    well-formed scope, an instance stored with a status above committed
    stays stored with its dependencies, sequence, status, commands and
    noop flag; only its ballot may rise, when a prepare is accepted. *)
Theorem executed_instance_is_final (s : Scope) (ops : list operation)
    (iid : InstanceID) (e : Instance) :
  wfScope s ->
  instances s !! iid = Some e ->
  INSTANCE_COMMITTED < Status e ->
  storedButBallot (run s ops) iid e.
Proof.
  intros Hwf He Hst.
  assert (H0 : storedButBallot s iid e).
  { exists e. split; [done |]. split; [by destruct e | lia]. }
  clear He. unfold run. revert s Hwf H0.
  induction ops as [| o ops IH]; intros s Hwf H0; simpl; [done |].
  apply IH; [by apply step_wf | by apply step_storedButBallot].
Qed.

Lemma executed_instance_is_final_witness :
  storedButBallot
    (run (scopeOf [sampleInstance 1 INSTANCE_EXECUTED 5])
       [OpHandleAccept (mkAcceptRequest (sampleInstance 1 INSTANCE_PREACCEPTED 7) []);
        OpHandlePrepare (mkPrepareRequest 9 1);
        OpHandleCommit (mkCommitRequest (sampleInstance 1 INSTANCE_COMMITTED 8));
        OpCommit (sampleInstance 1 INSTANCE_ACCEPTED 7) true])
    1%N (sampleInstance 1 INSTANCE_EXECUTED 5).
Proof.
  apply (executed_instance_is_final (scopeOf [sampleInstance 1 INSTANCE_EXECUTED 5])).
  - intros k i. unfold scopeOf. simpl.
    rewrite lookup_insert. case_decide; [by intros [= <-] | by rewrite lookup_empty].
  - vm_compute. reflexivity.
  - vm_compute. reflexivity.
Defined.
(** ** The check of the prepare responses *)

Lemma checkLoop_accepted responses : forall acc : bool * Z * Z,
  fst (fst (fold_left
    (fun (acc : bool * Z * Z) response =>
       let '(accepted, maxBallot, maxStatus) := acc in
       let '(maxBallot, maxStatus) :=
         match prInstance response with
         | Some instance =>
             (if MaxBallot instance >? maxBallot then MaxBallot instance else maxBallot,
              if Status instance >? maxStatus then Status instance else maxStatus)
         | None => (maxBallot, maxStatus)
         end in
       (accepted && prAccepted response, maxBallot, maxStatus))
    responses acc))
  = fst (fst acc) && forallb prAccepted responses.
Proof.
  induction responses as [| r rs IH]; intros [[a b] c]; simpl.
  - by rewrite andb_true_r.
  - destruct (prInstance r) as [i |]; rewrite IH; simpl; by rewrite andb_assoc.
Qed.

Lemma maxInstanceOf_answers instance maxBallot maxStatus responses :
  answersFor instance responses ->
  forall acc maxInstance,
  (forall i, acc = Some i -> IID i = IID instance) ->
  fold_left
    (fun (acc : option Instance) response =>
       match prInstance response with
       | Some rInstance =>
           if (MaxBallot rInstance =? maxBallot) && (Status rInstance =? maxStatus)
           then Some rInstance else acc
       | None => acc
       end)
    responses acc = Some maxInstance ->
  IID maxInstance = IID instance.
Proof.
  induction 1 as [| r rs Hr Hrs IH]; intros acc maxInstance Hacc; simpl.
  - intros ->. by apply Hacc.
  - apply IH. destruct (prInstance r) as [i |]; [| done].
    destruct ((MaxBallot i =? maxBallot) && (Status i =? maxStatus)); [| done].
    intros ? [= <-]. by apply Hr.
Qed.

(** X13. When the responses to a prepare carry the instance asked for,
    the check of the responses returns no error if every response
    accepted and a ballot error if one did not; bringing the local
    instance up to an accepted or committed response never makes it
    return a status error instead. *)
Theorem prepare_check_error_is_ballot_error (s : Scope) (instance : Instance)
    (responses : list PrepareResponse) :
  answersFor instance responses ->
  snd (managerPrepareCheckResponses s instance responses)
  = if forallb prAccepted responses then None else Some BallotError.
Proof.
  intros Hans. unfold managerPrepareCheckResponses.
  pose proof (checkLoop_accepted responses (true, 0, 0)) as Hacc.
  fold (checkLoop responses) in Hacc. simpl in Hacc.
  destruct (checkLoop responses) as [[accepted maxBallot] maxStatus]. simpl in Hacc.
  subst accepted.
  destruct (forallb prAccepted responses); simpl; [done |].
  set (s1 := mutateLocal (fun i => fst (updateBallot i maxBallot)) s instance).
  destruct (maxInstanceOf maxBallot maxStatus responses) as [maxInstance |] eqn:Hmax;
    [| done].
  assert (Hid : IID maxInstance = IID instance).
  { eapply (maxInstanceOf_answers instance maxBallot maxStatus responses Hans None);
      [done | exact Hmax]. }
  destruct (Status maxInstance >? Status (localInstance s1 instance)) eqn:Hgt; [| done].
  zbool. unfold localInstance in Hgt.
  destruct (Status maxInstance =? INSTANCE_ACCEPTED) eqn:Ha.
  { zbool.
    unfold ManagerAccept.acceptInstance, ManagerAccept.getOrSetInstance,
      ManagerAccept.instanceAccept. rewrite Hid.
    destruct (instances s1 !! IID instance) as [existing |] eqn:E; simpl in *.
    - assert (Hs : (INSTANCE_ACCEPTED <? Status existing) = false) by (apply Z.ltb_ge; lia).
      by rewrite Hs.
    - rewrite Ha. simpl. by rewrite Ha. }
  destruct ((Status maxInstance =? INSTANCE_COMMITTED)
            || (Status maxInstance =? INSTANCE_EXECUTED)) eqn:Hc; [| done].
  unfold commitInstanceUnsafe. rewrite Hid.
  destruct (instances s1 !! IID instance) as [existing |] eqn:E; simpl in *; [| done].
  assert (Hs : (INSTANCE_COMMITTED <? Status existing) = false).
  { apply Z.ltb_ge. apply orb_true_iff in Hc as [Hc | Hc]; zbool;
      unfold INSTANCE_COMMITTED, INSTANCE_EXECUTED in *; lia. }
  by rewrite Hs.
Qed.

Lemma prepare_check_error_is_ballot_error_witness :
  snd (managerPrepareCheckResponses startScope (sampleInstance 1 INSTANCE_PREACCEPTED 5)
         [mkPrepareResponse true None;
          mkPrepareResponse false (Some (sampleInstance 1 INSTANCE_COMMITTED 9))])
  = Some BallotError.
Proof.
  apply (prepare_check_error_is_ballot_error startScope
           (sampleInstance 1 INSTANCE_PREACCEPTED 5)
           [mkPrepareResponse true None;
            mkPrepareResponse false (Some (sampleInstance 1 INSTANCE_COMMITTED 9))]).
  repeat constructor; intros i; simpl; [done |]. by intros [= <-].
Defined.

(** ** Deferring to the successors *)

Lemma deferLoop_contacts acceptInstance commitInstance contact s instance localID replicas :
  forall successors contacted,
  exists more,
    snd (deferLoop acceptInstance commitInstance contact s instance localID replicas
           successors contacted) = contacted ++ more
    /\ more `prefix_of` consulted localID replicas successors.
Proof.
  unfold consulted.
  induction successors as [| nid rest IH]; intros contacted; simpl.
  { exists []. by rewrite app_nil_r. }
  destruct (nid =? localID)%N; simpl.
  { exists []. rewrite app_nil_r. split; [done | apply prefix_nil]. }
  destruct (existsb (N.eqb nid) replicas); [| apply IH].
  assert (Hstop : forall (s' : Scope) (r : result bool),
    exists more, snd (s', r, contacted ++ [nid]) = contacted ++ more
      /\ more `prefix_of` nid :: List.filter (fun nid => existsb (N.eqb nid) replicas)
                                   (ahead localID rest)).
  { intros s' r. exists [nid]. split; [done |]. apply prefix_cons, prefix_nil. }
  assert (Hgo : exists more,
    snd (deferLoop acceptInstance commitInstance contact s instance localID replicas
           rest (contacted ++ [nid])) = contacted ++ more
    /\ more `prefix_of` nid :: List.filter (fun nid => existsb (N.eqb nid) replicas)
                                 (ahead localID rest)).
  { destruct (IH (contacted ++ [nid])) as (more & Heq & Hpre).
    exists (nid :: more). rewrite Heq, <- app_assoc. split; [done |].
    by apply prefix_cons. }
  destruct (contact nid) as [[rInstance |] | | |]; try done.
  destruct (Status rInstance >? Status (localInstance s instance)); [| done].
  destruct (Status rInstance =? INSTANCE_ACCEPTED).
  { destruct (acceptInstance s (localInstance s instance)) as [s' [e |]]; done. }
  destruct ((Status rInstance =? INSTANCE_COMMITTED)
            || (Status rInstance =? INSTANCE_EXECUTED)); [| done].
  destruct (commitInstance s (localInstance s instance)) as [s' [e |]]; done.
Qed.

(** X14. [managerDeferToSuccessor] turns to successors in the order of
    the successor list, to those only that are listed ahead of the local
    node and are replicas of the instance: the nodes it sent a request to
    are an initial part of that selection. The local node and the
    successors after it are never contacted. *)
Theorem defer_contacts_only_successors_ahead
    (acceptInstance commitInstance : Scope -> Instance -> Scope * option error)
    (contact : NodeId -> successorEvent)
    (s : Scope) (instance : Instance) (localID : NodeId) (replicas : list NodeId) :
  let contacted :=
    snd (managerDeferToSuccessor acceptInstance commitInstance contact
           s instance localID replicas) in
  contacted `prefix_of` consulted localID replicas (Successors (localInstance s instance))
  /\ (localID ∉ contacted)
  /\ Forall (fun nid => nid ∈ replicas) contacted.
Proof.
  intros contacted. unfold contacted, managerDeferToSuccessor.
  destruct (deferLoop_contacts acceptInstance commitInstance contact s instance localID
              replicas (Successors (localInstance s instance)) []) as (more & -> & Hpre).
  simpl. split; [done |].
  assert (Hall : Forall (fun nid => nid <> localID /\ nid ∈ replicas)
                   (consulted localID replicas (Successors (localInstance s instance)))).
  { unfold consulted. generalize (Successors (localInstance s instance)).
    induction l as [| nid rest IH]; simpl; [constructor |].
    destruct (N.eqb_spec nid localID) as [-> | Hne]; simpl; [constructor |].
    destruct (existsb (N.eqb nid) replicas) eqn:Hex; [| done].
    constructor; [| done]. split; [done |].
    apply existsb_exists in Hex as (x & Hin & Heq). apply N.eqb_eq in Heq. subst x.
    by apply list_elem_of_In. }
  destruct Hpre as [k Hk]. rewrite Hk in Hall. apply Forall_app in Hall as [Hall _].
  split.
  - intros Hin. rewrite Forall_forall in Hall. by destruct (Hall _ Hin).
  - eapply Forall_impl; [exact Hall |]. by intros ? [_ ?].
Qed.

Lemma deferLoop_fruitless acceptInstance commitInstance contact s instance localID replicas :
  forall successors contacted,
  Forall (fun nid => fruitless (contact nid)) (consulted localID replicas successors) ->
  deferLoop acceptInstance commitInstance contact s instance localID replicas
    successors contacted
  = (s, Ok true, contacted ++ consulted localID replicas successors).
Proof.
  unfold consulted.
  induction successors as [| nid rest IH]; intros contacted Hall; simpl in *.
  { by rewrite app_nil_r. }
  destruct (nid =? localID)%N; simpl in *; [by rewrite app_nil_r |].
  destruct (existsb (N.eqb nid) replicas); [| by apply IH].
  inversion Hall as [| ? ? Hnid Hrest]; subst.
  rewrite (IH (contacted ++ [nid]) Hrest), <- app_assoc. simpl.
  by destruct Hnid as [-> | [-> | ->]].
Qed.

(** X15. When every successor [managerDeferToSuccessor] turns to fails,
    times out or does not know the instance, all of them have been
    asked, the scope is as it was, and the node is told to proceed with
    the prepare itself. *)
Theorem defer_proceeds_when_successors_fail
    (acceptInstance commitInstance : Scope -> Instance -> Scope * option error)
    (contact : NodeId -> successorEvent)
    (s : Scope) (instance : Instance) (localID : NodeId) (replicas : list NodeId) :
  Forall (fun nid => fruitless (contact nid))
    (consulted localID replicas (Successors (localInstance s instance))) ->
  managerDeferToSuccessor acceptInstance commitInstance contact s instance localID replicas
  = (s, Ok true, consulted localID replicas (Successors (localInstance s instance))).
Proof.
  intros Hall. unfold managerDeferToSuccessor.
  by rewrite (deferLoop_fruitless _ _ _ _ _ _ _ _ [] Hall).
Qed.

Lemma defer_proceeds_when_successors_fail_witness :
  managerDeferToSuccessor
    (fun s i => ManagerAccept.acceptInstance s i false)
    (fun s i => commitInstanceUnsafe s i false)
    (fun _ => SuccessorTimedOut)
    (scopeOf [succeededInstance]) succeededInstance 4%N [2; 3; 4; 5]%N
  = (scopeOf [succeededInstance], Ok true, [2; 3]%N).
Proof.
  apply (defer_proceeds_when_successors_fail
           (fun s i => ManagerAccept.acceptInstance s i false)
           (fun s i => commitInstanceUnsafe s i false)
           (fun _ => SuccessorTimedOut)
           (scopeOf [succeededInstance]) succeededInstance 4%N [2; 3; 4; 5]%N).
  vm_compute. constructor; [by right; right |]. constructor; [by right; right |].
  constructor.
Defined.

(** ** Resuming at the phase of the reference instance *)

(** X16. When the check of the prepare responses passes and a response
    carries an instance, the recovery resumes at the phase of the
    reference instance, which is the local instance if its status is
    above the one picked from the responses and the picked one
    otherwise. An accepted reference goes through the accept phase, and
    the local instance through the commit phase after it; a committed or
    executed reference goes through the commit phase alone. The
    pre-accept phase is not run in either case. *)
Theorem prepare_apply_resumes_at_reference
    (preAcceptPhase : Scope -> Instance -> Scope * result bool)
    (acceptPhase commitPhase : Scope -> Instance -> Scope * option error)
    (s : Scope) (instance remote : Instance) (responses : list PrepareResponse) :
  snd (managerPrepareCheckResponses s instance responses) = None ->
  analyzePrepareResponses responses = Some remote ->
  let s1 := fst (managerPrepareCheckResponses s instance responses) in
  let local := localInstance s1 instance in
  let reference := if Status local >? Status remote then local else remote in
  (Status reference = INSTANCE_ACCEPTED ->
     managerPrepareApply preAcceptPhase acceptPhase commitPhase s instance responses
     = match acceptPhase s1 reference with
       | (s2, Some e) => (s2, Some e)
       | (s2, None) => commitPhase s2 (localInstance s2 instance)
       end)
  /\ (Status reference = INSTANCE_COMMITTED \/ Status reference = INSTANCE_EXECUTED ->
      managerPrepareApply preAcceptPhase acceptPhase commitPhase s instance responses
      = commitPhase s1 reference).
Proof.
  intros Hcheck Hremote s1 local reference.
  unfold managerPrepareApply.
  subst s1. destruct (managerPrepareCheckResponses s instance responses) as [s1 err].
  simpl in *. subst err. rewrite Hremote. fold local. fold reference.
  split.
  - intros Hst. rewrite Hst. simpl. unfold applyAccept, applyCommit. done.
  - intros [Hst | Hst]; rewrite Hst; simpl; by unfold applyCommit.
Qed.

Lemma prepare_apply_resumes_at_reference_witness :
  let responses :=
    [mkPrepareResponse true (Some (sampleInstance 1 INSTANCE_COMMITTED 5));
     mkPrepareResponse true None] in
  (Status (sampleInstance 1 INSTANCE_COMMITTED 5) = INSTANCE_ACCEPTED ->
     managerPrepareApply slowPreAccept rejectedAccept localCommit
       startScope (sampleInstance 1 INSTANCE_PREACCEPTED 5) responses
     = match rejectedAccept startScope (sampleInstance 1 INSTANCE_COMMITTED 5) with
       | (s2, Some e) => (s2, Some e)
       | (s2, None) =>
           localCommit s2 (localInstance s2 (sampleInstance 1 INSTANCE_PREACCEPTED 5))
       end)
  /\ (Status (sampleInstance 1 INSTANCE_COMMITTED 5) = INSTANCE_COMMITTED
      \/ Status (sampleInstance 1 INSTANCE_COMMITTED 5) = INSTANCE_EXECUTED ->
      managerPrepareApply slowPreAccept rejectedAccept localCommit
        startScope (sampleInstance 1 INSTANCE_PREACCEPTED 5) responses
      = localCommit startScope (sampleInstance 1 INSTANCE_COMMITTED 5)).
Proof.
  apply (prepare_apply_resumes_at_reference slowPreAccept rejectedAccept localCommit
           startScope (sampleInstance 1 INSTANCE_PREACCEPTED 5)
           (sampleInstance 1 INSTANCE_COMMITTED 5)
           [mkPrepareResponse true (Some (sampleInstance 1 INSTANCE_COMMITTED 5));
            mkPrepareResponse true None]).
  - vm_compute. reflexivity.
  - vm_compute. reflexivity.
Defined.

(** ** The responses the prepare sender returns *)

Lemma drain_undrained {A} (events : list (event A)) : forall responses,
  exists drained,
    drain responses events = responses ++ drained
    /\ events = map Received drained ++ undrained events
    /\ (forall r rest, undrained events <> Received r :: rest).
Proof.
  induction events as [| ev events IH]; intros responses; simpl.
  - exists []. by rewrite app_nil_r.
  - destruct ev as [r |].
    + destruct (IH (responses ++ [r])) as (drained & -> & Hev & Hnext).
      exists (r :: drained). rewrite <- app_assoc. simpl. split; [done |].
      split; [by rewrite <- Hev | done].
    + exists []. by rewrite app_nil_r.
Qed.

(** X17. When the prepare sender returns responses, it returns all that
    had arrived: the responses counted towards its quorum, one less than
    the quorum size, followed by every response that was waiting in the
    channel behind them; the first event it leaves is not a response. *)
Theorem sendPrepare_returns_all_arrived {A : Type} (replicas : nat)
    (events rest : list (event A)) (responses : list A) :
  sendPrepareReceive replicas events = Quorum responses rest ->
  exists counted drained,
    events = map Received (counted ++ drained) ++ rest
    /\ responses = counted ++ drained
    /\ S (length counted) = prepareQuorumSize replicas
    /\ (forall r rest', rest <> Received r :: rest').
Proof.
  unfold sendPrepareReceive, awaitQuorum. intros H.
  destruct (receiveLoop (prepareQuorumSize replicas) 1 [] events)
    as [counted left | | blocked] eqn:E; [| done | done].
  apply receiveLoop_quorum_inv in E; [| unfold prepareQuorumSize; lia].
  destruct E as (new & -> & -> & Hlen). simpl app in H.
  injection H as <- <-.
  destruct (drain_undrained left new) as (drained & -> & Hleft & Hnext).
  exists new, drained. split; [| split; [done | split; [lia | done]]].
  rewrite map_app, <- app_assoc. by rewrite <- Hleft.
Qed.

Lemma sendPrepare_returns_all_arrived_witness :
  exists counted drained,
    [Received 7; Received 8; Received 9; TimedOut; Received 10]
    = map Received (counted ++ drained) ++ [TimedOut; Received 10]
    /\ [7; 8; 9] = counted ++ drained
    /\ S (length counted) = prepareQuorumSize 2
    /\ (forall r rest', [TimedOut; Received 10] <> Received r :: rest').
Proof.
  apply (sendPrepare_returns_all_arrived 2
           [Received 7; Received 8; Received 9; TimedOut; Received 10]
           [TimedOut; Received 10] [7; 8; 9]).
  reflexivity.
Defined.
(** ** Equality of instructions *)

Lemma argsLoop_true (iArgs oArgs : list string) : forall count n,
  Store.argsLoop iArgs oArgs n count = true
  <-> forall k, (n <= k < n + count)%nat ->
        nth k iArgs EmptyString = nth k oArgs EmptyString.
Proof.
  induction count as [| count IH]; intros n; simpl.
  - split; [intros _ k Hk; lia | done].
  - destruct (String.eqb_spec (nth n iArgs EmptyString) (nth n oArgs EmptyString))
      as [Heq | Hne]; simpl.
    + rewrite IH. split; intros H k Hk.
      * destruct (decide (k = n)) as [-> | Hkn]; [done | apply H; lia].
      * apply H. lia.
    + split; [done |]. intros H. exfalso. apply Hne, H. lia.
Qed.

Lemma nth_ext_strings (l1 l2 : list string) :
  length l1 = length l2 ->
  (forall k, (0 <= k < 0 + length l1)%nat -> nth k l1 EmptyString = nth k l2 EmptyString) ->
  l1 = l2.
Proof.
  intros Hlen H. apply (List.nth_ext l1 l2 EmptyString EmptyString Hlen).
  intros k Hk. apply H. lia.
Qed.

(** X18. [Equal] decides the equality of instructions: it returns true
    exactly when command, key, arguments and timestamp of the two
    instructions are the same. A [Copy] of an instruction is [Equal] to
    it. *)
Theorem Equal_decides_equality (i o : Instruction) :
  (Store.Equal i o = true <-> i = o) /\ Store.Equal i (Store.Copy i) = true.
Proof.
  assert (Hiff : forall a b, Store.Equal a b = true <-> a = b).
  { intros a b. unfold Store.Equal. split.
    - destruct (String.eqb_spec (Cmd a) (Cmd b)) as [Hc | Hc]; simpl; [| done].
      destruct (String.eqb_spec (Key a) (Key b)) as [Hk | Hk]; simpl; [| done].
      destruct (Nat.eqb_spec (length (Args a)) (length (Args b))) as [Hl | Hl]; simpl; [| done].
      destruct (Store.argsLoop (Args a) (Args b) 0 (length (Args a))) eqn:Ha; simpl; [| done].
      destruct (Z.eqb_spec (Timestamp a) (Timestamp b)) as [Ht | Ht]; simpl; [| done].
      intros _. pose proof (proj1 (argsLoop_true _ _ _ _) Ha) as Hnth.
      pose proof (nth_ext_strings _ _ Hl Hnth) as Hargs.
      destruct a, b; simpl in *; congruence.
    - intros <-. rewrite !String.eqb_refl, Nat.eqb_refl, Z.eqb_refl. simpl.
      assert (Ha : Store.argsLoop (Args a) (Args a) 0 (length (Args a)) = true)
        by (apply (proj2 (argsLoop_true _ _ _ _)); done).
      by rewrite Ha. }
  split; [apply Hiff |]. apply Hiff.
  unfold Store.Copy, Store.copy. rewrite length_replicate, Nat.min_id.
  rewrite firstn_all, drop_replicate, Nat.sub_diag. simpl. rewrite app_nil_r.
  by destruct i.
Qed.
(** ** Joining the cluster *)

Lemma indexLoop_found (localID : NodeId) (pre : list Cluster.Node) l rest : forall i,
  Forall (fun n => Cluster.nodeId n <> localID) pre ->
  Cluster.nodeId l = localID ->
  Cluster.indexLoop localID (pre ++ l :: rest) i = Some (i + length pre)%nat.
Proof.
  induction pre as [| p pre IH]; intros i Hpre Hl; simpl.
  - rewrite Hl, N.eqb_refl. f_equal. lia.
  - inversion Hpre as [| ? ? Hp Hpre']; subst.
    destruct (N.eqb_spec (Cluster.nodeId p) (Cluster.nodeId l)) as [Heq | _]; [done |].
    rewrite IH by done. f_equal. lia.
Qed.

Lemma indexLoop_inv (localID : NodeId) (nodes : list Cluster.Node) : forall i,
  match Cluster.indexLoop localID nodes i with
  | Some k =>
      exists pre l rest,
        nodes = pre ++ l :: rest
        /\ Forall (fun n => Cluster.nodeId n <> localID) pre
        /\ Cluster.nodeId l = localID /\ k = (i + length pre)%nat
  | None => Forall (fun n => Cluster.nodeId n <> localID) nodes
  end.
Proof.
  induction nodes as [| n nodes IH]; intros i; simpl; [constructor |].
  destruct (N.eqb_spec (Cluster.nodeId n) localID) as [Heq | Hne].
  - exists [], n, nodes. simpl. repeat split; [constructor | done | lia].
  - specialize (IH (S i)).
    destruct (Cluster.indexLoop localID nodes (S i)) as [k |].
    + destruct IH as (pre & l & rest & -> & Hpre & Hl & ->).
      exists (n :: pre), l, rest. simpl. repeat split; [by constructor | done | lia].
    + by constructor.
Qed.

Lemma index_middle (pre : list Cluster.Node) l rest :
  Cluster.index (pre ++ l :: rest) (Z.of_nat (length pre)) = Returned l.
Proof.
  unfold Cluster.index.
  assert (H : (Z.of_nat (length pre) <? 0) = false) by (apply Z.ltb_ge; lia).
  rewrite H, Nat2Z.id. by rewrite list_lookup_middle.
Qed.

Lemma JoinCluster_first (status : Cluster.ClusterStatus) (l : Cluster.Node)
    (rest : list Cluster.Node) (reply : Cluster.streamReply) :
  Cluster.JoinCluster status (Cluster.nodeId l) (l :: rest) reply
  = match rest with
    | [] => if Cluster.isRemote l
            then Returned (Cluster.joined status reply, None) else Panicked
    | _ :: _ => Panicked
    end.
Proof.
  unfold Cluster.JoinCluster. simpl Cluster.indexLoop. rewrite N.eqb_refl. simpl default.
  change (Cluster.index (l :: rest) (Z.of_nat 0)) with (Returned l). cbv beta iota.
  rewrite N.eqb_refl. simpl negb. cbv iota.
  destruct rest as [| r rest].
  - change (Z.rem (Z.of_nat 0 - 1) (Z.of_nat (length [l]))) with 0.
    change (Cluster.index [l] 0) with (Returned l). cbv beta iota.
    unfold Cluster.streamFromNode.
    destruct (Cluster.isRemote l); simpl; [| done]. by destruct reply.
  - assert (Hrem : Z.rem (Z.of_nat 0 - 1) (Z.of_nat (length (l :: r :: rest))) = -1).
    { change (Z.of_nat 0 - 1) with (- (1)). rewrite Z.rem_opp_l by (simpl; lia).
      rewrite Z.rem_small; [done |]. simpl length. lia. }
    rewrite Hrem. done.
Qed.

Lemma JoinCluster_later (status : Cluster.ClusterStatus) (localID : NodeId)
    (pre : list Cluster.Node) (p l : Cluster.Node) (rest : list Cluster.Node)
    (reply : Cluster.streamReply) :
  Forall (fun n => Cluster.nodeId n <> localID) (pre ++ [p]) ->
  Cluster.nodeId l = localID ->
  Cluster.JoinCluster status localID (pre ++ p :: l :: rest) reply
  = if Cluster.isRemote p
    then Returned (Cluster.joined status reply, None) else Panicked.
Proof.
  intros Hpre Hl. unfold Cluster.JoinCluster.
  replace (pre ++ p :: l :: rest) with ((pre ++ [p]) ++ l :: rest)
    by (by rewrite <- app_assoc).
  rewrite (indexLoop_found localID (pre ++ [p]) l rest 0 Hpre Hl). simpl default.
  rewrite index_middle. cbv beta iota. rewrite Hl, N.eqb_refl. simpl negb. cbv iota.
  assert (Hrem : Z.rem (Z.of_nat (length (pre ++ [p])) - 1)
                   (Z.of_nat (length ((pre ++ [p]) ++ l :: rest)))
                 = Z.of_nat (length pre)).
  { rewrite !length_app. simpl length. rewrite Z.rem_small; lia. }
  rewrite Hrem. rewrite <- app_assoc. simpl app.
  rewrite index_middle. cbv beta iota. unfold Cluster.streamFromNode.
  destruct (Cluster.isRemote p); simpl; [| done]. by destruct reply.
Qed.

(** X19. [JoinCluster] returns only when the node listed just before
    the local node is a remote node, or when the local node is the only
    node and is itself a remote node; it then returns no error, whatever
    the streaming came to, and the cluster is streaming only if the
    stream request was answered. Otherwise it panics: when the list is
    empty, when the local node is not in it, and when the local node is
    the first of several, for the index before it is -1 and not the
    last. *)
Theorem JoinCluster_returns_iff (status : Cluster.ClusterStatus) (localID : NodeId)
    (nodes : list Cluster.Node) (reply : Cluster.streamReply)
    (x : Cluster.ClusterStatus * option error) :
  Cluster.JoinCluster status localID nodes reply = Returned x
  <->
  x = (Cluster.joined status reply, None)
  /\ ((exists pre p l rest,
         nodes = pre ++ p :: l :: rest
         /\ Forall (fun n => Cluster.nodeId n <> localID) (pre ++ [p])
         /\ Cluster.nodeId l = localID
         /\ Cluster.isRemote p = true)
      \/ (exists l, nodes = [l] /\ Cluster.nodeId l = localID
                    /\ Cluster.isRemote l = true)).
Proof.
  split.
  - intros H. pose proof (indexLoop_inv localID nodes 0) as Hidx.
    destruct (Cluster.indexLoop localID nodes 0) as [k |] eqn:Ek.
    + destruct Hidx as (pre & l & rest & -> & Hpre & Hl & ->).
      destruct pre as [| p0 pre0] using rev_ind.
      * simpl app in *. subst localID. rewrite JoinCluster_first in H.
        destruct rest as [| r rest]; [| done].
        destruct (Cluster.isRemote l) eqn:Hr; [| done].
        injection H as <-. split; [done |]. right. by exists l.
      * clear IHpre0. rewrite <- app_assoc in H. simpl app in H.
        rewrite (JoinCluster_later status localID pre0 p0 l rest reply Hpre Hl) in H.
        destruct (Cluster.isRemote p0) eqn:Hr; [| done].
        injection H as <-. split; [done |]. left.
        exists pre0, p0, l, rest. rewrite <- app_assoc. done.
    + exfalso. unfold Cluster.JoinCluster in H. rewrite Ek in H. simpl default in H.
      destruct nodes as [| n nodes]; [done |].
      change (Cluster.index (n :: nodes) (Z.of_nat 0)) with (Returned n) in H.
      cbv beta iota in H.
      inversion Hidx as [| ? ? Hn _]; subst.
      destruct (N.eqb_spec (Cluster.nodeId n) localID) as [Heq | _]; done.
  - intros [-> [(pre & p & l & rest & -> & Hpre & Hl & Hr) | (l & -> & Hl & Hr)]].
    + by rewrite (JoinCluster_later status localID pre p l rest reply Hpre Hl), Hr.
    + subst localID. by rewrite JoinCluster_first, Hr.
Qed.

(** ** Reading at a consistency level *)

Lemma planLoop_keeps consistency localDC (m : Cluster.replicaMap) : forall R NM R' NM' k,
  Cluster.planLoop consistency localDC m R NM = inl (R', NM') ->
  k ∉ map fst m -> R' !! k = R !! k.
Proof.
  induction m as [| [dcid nodes] m IH]; intros R NM R' NM' k H Hk; simpl in *.
  { by injection H as <- <-. }
  apply not_elem_of_cons in Hk as [Hne Hk].
  destruct (negb (String.eqb dcid localDC) && Cluster.readLocalOnly consistency).
  - rewrite (IH _ _ _ _ _ H Hk). by rewrite lookup_insert_ne.
  - destruct (Cluster.requiredResponses consistency nodes) as [num | e]; [| done].
    rewrite (IH _ _ _ _ _ H Hk). by rewrite lookup_insert_ne.
Qed.

Lemma nodeMap_fold (nodes : list Cluster.Node) : forall (NM : gmap NodeId Cluster.Node) nid n,
  fold_left (fun nodeMap n => <[Cluster.nodeId n := n]> nodeMap) nodes NM !! nid = Some n ->
  NM !! nid = Some n \/ (Cluster.nodeId n = nid /\ In n nodes).
Proof.
  induction nodes as [| x nodes IH]; intros NM nid n H; simpl in *; [by left |].
  destruct (IH _ _ _ H) as [Hin | [Hid Hin]].
  - rewrite lookup_insert in Hin. case_decide as Hx.
    + injection Hin as <-. right. split; [done | by left].
    + by left.
  - right. split; [done | by right].
Qed.

Lemma planLoop_plan consistency localDC (m : Cluster.replicaMap) : forall R NM R' NM',
  Cluster.planLoop consistency localDC m R NM = inl (R', NM') ->
  NoDup (map fst m) ->
  (forall dcid nodes, In (dcid, nodes) m ->
     dcid = localDC \/ Cluster.readLocalOnly consistency = false ->
     exists num, Cluster.requiredResponses consistency nodes = inl num
                 /\ R' !! dcid = Some num)
  /\ (forall nid n, NM' !! nid = Some n ->
        NM !! nid = Some n
        \/ (Cluster.nodeId n = nid
            /\ exists dcid nodes, In (dcid, nodes) m /\ In n nodes)).
Proof.
  induction m as [| [dcid nodes] m IH]; intros R NM R' NM' H Hnd; simpl in *.
  { injection H as <- <-. split; [by intros | by left]. }
  apply NoDup_cons in Hnd as [Hnotin Hnd].
  destruct (negb (String.eqb dcid localDC) && Cluster.readLocalOnly consistency) eqn:Hskip.
  - destruct (IH _ _ _ _ H Hnd) as [Hreq Hnm]. split.
    + intros d ns [[= <- <-] | Hin] Hq.
      * exfalso. apply andb_true_iff in Hskip as [Hne Hlo].
        destruct Hq as [-> | Hq]; [| congruence].
        by rewrite String.eqb_refl in Hne.
      * by apply Hreq.
    + intros nid n Hn. destruct (Hnm _ _ Hn) as [? | (Hid & d & ns & Hin & Hnn)];
        [by left |]. right. split; [done |]. exists d, ns. split; [by right | done].
  - destruct (Cluster.requiredResponses consistency nodes) as [num | e] eqn:Hrr; [| done].
    destruct (IH _ _ _ _ H Hnd) as [Hreq Hnm]. split.
    + intros d ns [[= <- <-] | Hin] Hq.
      * exists num. split; [done |].
        rewrite (planLoop_keeps _ _ _ _ _ _ _ _ H Hnotin). by rewrite lookup_insert_eq.
      * by apply Hreq.
    + intros nid n Hn. destruct (Hnm _ _ Hn) as [Hf | (Hid & d & ns & Hin & Hnn)].
      * destruct (nodeMap_fold _ _ _ _ Hf) as [? | [Hid Hin]]; [by left |].
        right. split; [done |]. exists dcid, nodes. split; [by left | done].
      * right. split; [done |]. exists d, ns. split; [by right | done].
Qed.

Lemma consistencySatisfied_true (R rcv : gmap Cluster.DatacenterID nat) :
  Cluster.consistencySatisfied R rcv = true ->
  forall dcid num, R !! dcid = Some num -> (num <= Cluster.counted rcv dcid)%nat.
Proof.
  unfold Cluster.consistencySatisfied. intros H dcid num Hr.
  rewrite forallb_forall in H.
  specialize (H (dcid, num)). simpl in H.
  assert (Hin : In (dcid, num) (map_to_list R)).
  { apply list_elem_of_In. by apply elem_of_map_to_list. }
  specialize (H Hin). apply negb_true_iff, Nat.ltb_ge in H. done.
Qed.

Lemma waitLoop_counts {V} (R : gmap Cluster.DatacenterID nat)
    (NM : gmap NodeId Cluster.Node) (N : nat) (events : list (Cluster.queryEvent V)) :
  forall rcv tot vals values rest,
  Cluster.waitLoop R NM N rcv tot vals events = Cluster.ReadValues values rest ->
  exists consumed,
    events = consumed ++ rest
    /\ forall dcid num, R !! dcid = Some num ->
         (num <= Cluster.counted rcv dcid
                 + length (List.filter
                     (fun ev =>
                        match ev with
                        | Cluster.Responded nid (Some _) =>
                            match NM !! nid with
                            | Some n => String.eqb (Cluster.dcId n) dcid
                            | None => false
                            end
                        | _ => false
                        end) consumed))%nat.
Proof.
  induction events as [| ev events IH]; intros rcv tot vals values rest H; simpl in H.
  - destruct (Cluster.consistencySatisfied R rcv) eqn:Hs.
    + injection H as <- <-. exists []. split; [done |]. intros dcid num Hr. simpl.
      pose proof (consistencySatisfied_true _ _ Hs _ _ Hr). lia.
    + by destruct (N <=? tot)%nat.
  - destruct (Cluster.consistencySatisfied R rcv) eqn:Hs.
    + injection H as <- <-. exists []. split; [done |]. intros dcid num Hr. simpl.
      pose proof (consistencySatisfied_true _ _ Hs _ _ Hr). lia.
    + destruct (N <=? tot)%nat; [done |].
      destruct ev as [nid [val |] |]; [| | done].
      * destruct (NM !! nid) as [n |] eqn:En; [| done].
        destruct (IH _ _ _ _ _ H) as (consumed & -> & Hc).
        exists (Cluster.Responded nid (Some val) :: consumed). split; [done |].
        intros dcid num Hr. specialize (Hc _ _ Hr). simpl. rewrite En.
        unfold Cluster.counted in *.
        destruct (String.eqb_spec (Cluster.dcId n) dcid) as [<- | Hne].
        -- rewrite lookup_insert_eq in Hc. simpl in *. lia.
        -- rewrite lookup_insert_ne in Hc by done. lia.
      * destruct (IH _ _ _ _ _ H) as (consumed & -> & Hc).
        exists (Cluster.Responded nid None :: consumed). split; [done |].
        intros dcid num Hr. specialize (Hc _ _ Hr). simpl. lia.
Qed.

Lemma filter_length_le {A} (f g : A -> bool) (l : list A) :
  (forall x, In x l -> f x = true -> g x = true) ->
  (length (List.filter f l) <= length (List.filter g l))%nat.
Proof.
  induction l as [| x l IH]; intros H; simpl; [lia |].
  assert (IH' : (length (List.filter f l) <= length (List.filter g l))%nat).
  { apply IH. intros y Hy. apply H. by right. }
  destruct (f x) eqn:Hf.
  - rewrite (H x (or_introl eq_refl) Hf). simpl. lia.
  - destruct (g x); simpl; lia.
Qed.

(** X20. A read returns values only after every datacenter it queries
    has answered as the consistency level requires: when [ExecuteRead]
    hands values to the reconciliation, the events it has taken hold, for
    the local datacenter and, unless the level is a local one, for every
    other datacenter, at least as many successful responses of that
    datacenter's nodes as the level asks for: one for ONE, more than half
    of the nodes for QUORUM, all of them for ALL. *)
Theorem ExecuteRead_waits_for_consistency {V : Type}
    (consistency : Cluster.ConsistencyLevel) (localDC : Cluster.DatacenterID)
    (m : Cluster.replicaMap) (events rest : list (Cluster.queryEvent V))
    (values : list V) :
  Cluster.grouped m ->
  Cluster.ExecuteRead consistency localDC m events = Cluster.ReadValues values rest ->
  exists consumed,
    events = consumed ++ rest
    /\ forall dcid nodes,
         In (dcid, nodes) m ->
         dcid = localDC \/ Cluster.readLocalOnly consistency = false ->
         exists num,
           Cluster.requiredResponses consistency nodes = inl num
           /\ (num <= Cluster.answersOf nodes consumed)%nat.
Proof.
  intros [Hnd Hgr] H. unfold Cluster.ExecuteRead in H.
  destruct (Cluster.planLoop consistency localDC m ∅ ∅) as [[R NM] | e] eqn:Hplan;
    [| done].
  destruct (planLoop_plan _ _ _ _ _ _ _ Hplan Hnd) as [Hreq Hnm].
  destruct (waitLoop_counts _ _ _ _ _ _ _ _ _ H) as (consumed & -> & Hc).
  exists consumed. split; [done |].
  intros dcid nodes Hin Hq.
  destruct (Hreq _ _ Hin Hq) as (num & Hrr & Hr).
  exists num. split; [done |].
  specialize (Hc _ _ Hr). unfold Cluster.counted in Hc. rewrite lookup_empty in Hc.
  simpl in Hc. unfold Cluster.answersOf.
  etransitivity; [exact Hc |]. apply filter_length_le.
  intros [nid [val |] |] _ Hf; try done.
  destruct (NM !! nid) as [n |] eqn:En; [| done].
  apply String.eqb_eq in Hf.
  destruct (Hnm _ _ En) as [He | (Hid & d & ns & Hin' & Hn)];
    [by rewrite lookup_empty in He |].
  assert (d = dcid) as ->.
  { rewrite Forall_forall in Hgr. specialize (Hgr _ (proj2 (list_elem_of_In _ _) Hin')).
    simpl in Hgr. rewrite Forall_forall in Hgr.
    specialize (Hgr _ (proj2 (list_elem_of_In _ _) Hn)). congruence. }
  assert (ns = nodes) as ->.
  { clear -Hnd Hin Hin'. induction m as [| [d0 n0] m IH]; [done |].
    simpl in Hnd. apply NoDup_cons in Hnd as [Hnotin Hnd].
    destruct Hin as [[= -> ->] | Hin]; destruct Hin' as [[= <-] | Hin']; try done.
    - exfalso. apply Hnotin. apply list_elem_of_In.
      apply (in_map fst) in Hin'. done.
    - exfalso. subst. apply Hnotin. apply list_elem_of_In.
      apply (in_map fst) in Hin. done.
    - by apply IH. }
  apply existsb_exists. exists n. split; [done |]. by apply N.eqb_eq.
Qed.

Lemma ExecuteRead_waits_for_consistency_witness :
  exists consumed,
    Cluster.sampleEvents = consumed ++ [Cluster.QueryTimedOut]
    /\ forall dcid nodes,
         In (dcid, nodes) Cluster.sampleReplicas ->
         dcid = "DC1"%string
         \/ Cluster.readLocalOnly Cluster.CONSISTENCY_QUORUM_LOCAL = false ->
         exists num,
           Cluster.requiredResponses Cluster.CONSISTENCY_QUORUM_LOCAL nodes = inl num
           /\ (num <= Cluster.answersOf nodes consumed)%nat.
Proof.
  apply (ExecuteRead_waits_for_consistency Cluster.CONSISTENCY_QUORUM_LOCAL "DC1"%string
           Cluster.sampleReplicas Cluster.sampleEvents [Cluster.QueryTimedOut] [10; 30]).
  - split.
    + apply (bool_decide_unpack _). vm_compute. reflexivity.
    + repeat constructor.
  - vm_compute. reflexivity.
Defined.

Lemma waitLoop_too_many {V} (R : gmap Cluster.DatacenterID nat)
    (NM : gmap NodeId Cluster.Node) (N : nat) (events : list (Cluster.queryEvent V)) :
  forall rcv tot vals,
  Cluster.waitLoop R NM N rcv tot vals events = Cluster.ReadFailed Cluster.TooManyErrors ->
  (N <= tot + Cluster.responsesIn events)%nat.
Proof.
  unfold Cluster.responsesIn.
  induction events as [| ev events IH]; intros rcv tot vals H; simpl in H.
  - destruct (Cluster.consistencySatisfied R rcv); [done |].
    destruct (N <=? tot)%nat eqn:Hn; [| done]. apply Nat.leb_le in Hn. simpl. lia.
  - destruct (Cluster.consistencySatisfied R rcv); [done |].
    destruct (N <=? tot)%nat eqn:Hn; [apply Nat.leb_le in Hn; lia |].
    destruct ev as [nid [val |] |]; [| | done].
    + destruct (NM !! nid) as [n |]; [| done].
      specialize (IH _ _ _ H). simpl. lia.
    + specialize (IH _ _ _ H). simpl. lia.
Qed.

(** X21. [ExecuteRead] gives up on failed nodes only when it has taken as
    many responses as the replica map holds nodes, those of the
    datacenters it does not query included: while fewer responses have
    come in, the failure it reports is never that too many nodes
    failed. At a local level with nodes in another datacenter, the
    failure of every local node thus leaves the read waiting for its
    timeout. *)
Theorem ExecuteRead_counts_unqueried_nodes {V : Type}
    (consistency : Cluster.ConsistencyLevel) (localDC : Cluster.DatacenterID)
    (m : Cluster.replicaMap) (events : list (Cluster.queryEvent V)) :
  (Cluster.responsesIn events < Cluster.numMappedNodes m)%nat ->
  Cluster.ExecuteRead consistency localDC m events
  <> Cluster.ReadFailed Cluster.TooManyErrors.
Proof.
  intros Hlt H. unfold Cluster.ExecuteRead in H.
  destruct (Cluster.planLoop consistency localDC m ∅ ∅) as [[R NM] | e] eqn:Hplan.
  - apply waitLoop_too_many in H. lia.
  - injection H as ->. clear Hlt. revert Hplan. generalize (∅ : gmap Cluster.DatacenterID nat).
    generalize (∅ : gmap NodeId Cluster.Node).
    induction m as [| [dcid nodes] m IH]; intros NM R Hplan; simpl in Hplan; [done |].
    destruct (negb (String.eqb dcid localDC) && Cluster.readLocalOnly consistency);
      [by eapply IH |].
    destruct (Cluster.requiredResponses consistency nodes) as [num | e] eqn:Hrr;
      [by eapply IH |].
    injection Hplan as ->. by destruct consistency.
Qed.

Lemma ExecuteRead_counts_unqueried_nodes_witness :
  Cluster.ExecuteRead Cluster.CONSISTENCY_QUORUM_LOCAL "DC1"%string
    Cluster.sampleReplicas Cluster.failingEvents
  <> Cluster.ReadFailed Cluster.TooManyErrors
  /\ Cluster.ExecuteRead Cluster.CONSISTENCY_QUORUM_LOCAL "DC1"%string
       Cluster.sampleReplicas Cluster.failingEvents = Cluster.ReadWaiting.
Proof.
  split.
  - apply (ExecuteRead_counts_unqueried_nodes Cluster.CONSISTENCY_QUORUM_LOCAL "DC1"%string
             Cluster.sampleReplicas Cluster.failingEvents).
    vm_compute. lia.
  - vm_compute. reflexivity.
Defined.
(** ** The literal partitioner *)

Lemma Write_keeps_contents (h : Partitioner.heap) (b : Partitioner.Buffer) (p : list Z)
    (old : list Z) :
  h !! Partitioner.array (Partitioner.buf b) = Some old ->
  (Partitioner.len (Partitioner.buf b) <= length old)%nat ->
  Partitioner.bytesOf (fst (Partitioner.Write h b p)) (Partitioner.buf b)
  = Partitioner.bytesOf h (Partitioner.buf b).
Proof.
  intros Hold Hlen. unfold Partitioner.Write, Partitioner.bytesOf.
  pose proof (lookup_lt_Some _ _ _ Hold) as Hin.
  destruct (Partitioner.len (Partitioner.buf b) + length p
            <=? Partitioner.cap (Partitioner.buf b))%nat; simpl.
  - rewrite list_lookup_insert_eq by done. rewrite Hold. simpl.
    rewrite take_app_le by (rewrite length_take; lia).
    by rewrite take_take, Nat.min_id.
  - by rewrite lookup_app_l.
Qed.

(** X22. The token [GetToken] of the literal partitioner returns does
    not depend on the key: for every key that reads as a non-negative
    integer it is the slice of eight zero bytes the function made, since
    the buffer appends the encoded number after the contents it was given
    and the slice returned does not show it. For every other key the
    function panics. *)
Theorem GetToken_is_zero (Atoi : string -> option Z) (key : string) :
  Partitioner.GetToken Atoi key
  = match Atoi key with
    | Some val => if val <? 0 then Panicked else Returned (replicate 8 0)
    | None => Panicked
    end.
Proof.
  unfold Partitioner.GetToken.
  destruct (Atoi key) as [val |]; [| done].
  destruct (val <? 0); [done |].
  pose proof (Write_keeps_contents [replicate 8 0]
                (Partitioner.NewBuffer (Partitioner.mkSlice 0 8 8))
                (Partitioner.littleEndian64 (val mod 2 ^ 64))
                (replicate 8 0) eq_refl) as Hkeep.
  unfold Partitioner.make.
  change ([] ++ [replicate 8 0]) with [replicate 8 0].
  change (length (@nil (list Z))) with 0%nat.
  destruct (Partitioner.Write [replicate 8 0]
              (Partitioner.NewBuffer (Partitioner.mkSlice 0 8 8))
              (Partitioner.littleEndian64 (val mod 2 ^ 64))) as [h buffer].
  simpl fst in Hkeep. simpl Partitioner.buf in Hkeep.
  cbn [Partitioner.len Nat.eqb negb].
  rewrite Hkeep; [done |]. simpl. lia.
Qed.
